(** * pyqode.core: the CodeEdit widget, its plugin registries, automatic indentation

    A shallow embedding of [pyqode/core/api/code_edit.py] and
    [pyqode/core/modes/autoindent.py], followed by the properties the
    specification states about them.

    Conventions:
    - Python objects live in a store and are referred to by identifiers, so
      that aliasing ([clone.setDocument(self.document())], the [clones] list)
      is visible in the model;
    - Python [int] is [Z]; [str] is [list ascii] for document text and
      [string] for names used as dictionary keys;
    - a raised exception is the [Raise] branch of [result]. *)

From stdpp Require Import gmap strings list.
From Stdlib Require Import ZArith Ascii.

(** ** Exceptions and results *)

Inductive exn : Type :=
| KeyError (key : string)
| RecursionError
| ReferenceError.

Inductive result (A : Type) : Type :=
| Ok (a : A)
| Raise (e : exn).
Arguments Ok {A} a.
Arguments Raise {A} e.

(** ** Plugin registries *)

(** The four margin zones a panel can be installed in. *)
Inductive Position : Type := TOP | LEFT | RIGHT | BOTTOM.

Module ModesManager.

(** A mode object: its class (by name), its identity and its enabled flag. *)
Record Mode : Type := {
  mode_class : string;
  mode_ident : nat;
  mode_enabled : bool
}.

(** Modelled from the spec: the [ModesManager] class of
    [pyqode.core.managers], the registry behind [editor.modes]. It keeps the
    installed modes in a dictionary keyed by the mode's class. *)
Definition append (mode : Mode) (modes : gmap string Mode) : gmap string Mode :=
  <[mode_class mode := mode]> modes.

(** Modelled from the spec: [ModesManager.get(klass)], the lookup of an
    installed mode by class; an absent class is a [KeyError]. *)
Definition get (klass : string) (modes : gmap string Mode) : result Mode :=
  match modes !! klass with
  | Some mode => Ok mode
  | None => Raise (KeyError klass)
  end.

(** Modelled from the spec: [ModesManager.remove(klass)], which retrieves
    the mode, uninstalls it and returns it. *)
Definition remove (klass : string) (modes : gmap string Mode)
  : result (Mode * gmap string Mode) :=
  match get klass modes with
  | Ok mode => Ok (mode, delete klass modes)
  | Raise e => Raise e
  end.

(** Modelled from the spec: [ModesManager.clear()], which uninstalls every
    mode. *)
Definition clear (modes : gmap string Mode) : gmap string Mode := ∅.

(** Modelled from the spec: [len(editor.modes)]. *)
Definition len (modes : gmap string Mode) : nat := size modes.

End ModesManager.

Module PanelsManager.

(** A panel object: a mode with a widget, which records the zone it is
    shown in. *)
Record Panel : Type := {
  panel_class : string;
  panel_ident : nat;
  panel_enabled : bool;
  position : Position
}.

Definition with_position (zone : Position) (panel : Panel) : Panel :=
  {| panel_class := panel_class panel;
     panel_ident := panel_ident panel;
     panel_enabled := panel_enabled panel;
     position := zone |}.

(** Modelled from the spec: [PanelsManager.append(panel, position)] of
    [pyqode.core.managers]. Installing a panel assigns it the zone and files
    it under its class. *)
Definition append (panel : Panel) (zone : Position)
    (panels : gmap string Panel) : gmap string Panel :=
  <[panel_class panel := with_position zone panel]> panels.

(** Modelled from the spec: [PanelsManager.get(klass)]. *)
Definition get (klass : string) (panels : gmap string Panel) : result Panel :=
  match panels !! klass with
  | Some panel => Ok panel
  | None => Raise (KeyError klass)
  end.

(** Modelled from the spec: [PanelsManager.remove(klass)]. *)
Definition remove (klass : string) (panels : gmap string Panel)
  : result (Panel * gmap string Panel) :=
  match get klass panels with
  | Ok panel => Ok (panel, delete klass panels)
  | Raise e => Raise e
  end.

(** Modelled from the spec: [PanelsManager.clear()]. *)
Definition clear (panels : gmap string Panel) : gmap string Panel := ∅.

(** Modelled from the spec: [len(editor.panels)]. *)
Definition len (panels : gmap string Panel) : nat := size panels.

End PanelsManager.

(** ** Text and Qt text cursors

    The document text is a list of characters; blocks (lines) are separated
    by a newline character. The editor never wraps lines
    ([setLineWrapMode(NoWrap)] in [CodeEdit.__init__]), so a visual line is a
    block. *)

Definition newline : ascii := "010"%char.
Definition space : ascii := " "%char.

Fixpoint take_while {A : Type} (p : A → bool) (l : list A) : list A :=
  match l with
  | [] => []
  | x :: l' => if p x then x :: take_while p l' else []
  end.

(** Python's [str.isspace] on the code points below 256; it is also what
    [\s] matches and what [str.lstrip()] strips. *)
Definition isspace (c : ascii) : bool :=
  let n := nat_of_ascii c in
  ((9 <=? n) && (n <=? 13) || (28 <=? n) && (n <=? 32)
   || (n =? 133) || (n =? 160))%nat.

Definition not_newline (c : ascii) : bool := negb (Ascii.eqb c newline).

(** [re.match(r"\s*", s).group()] *)
Definition leading_whitespace (s : list ascii) : list ascii :=
  take_while isspace s.

(** [s.startswith(' ')] *)
Definition startswith_space (s : list ascii) : bool :=
  match s with
  | c :: _ => Ascii.eqb c space
  | [] => false
  end.

(** [s.replace(" ", '')] *)
Definition remove_spaces (s : list ascii) : list ascii :=
  filter (λ c, c ≠ space) s.

Inductive MoveMode : Type := MoveAnchor | KeepAnchor.

Inductive MoveOperation : Type :=
| Left | Right | StartOfLine | StartOfBlock | EndOfBlock | WordRight.

Record QTextCursor : Type := {
  anchor : nat;
  position : nat
}.

(** Where Qt puts the start of the next word. Qt's word-boundary rule is
    not part of this repository; the only fact used about it is that
    [WordRight] never moves the cursor backwards. *)
Class WordBoundaries : Type := {
  next_word : list ascii → nat → nat;
  next_word_forward : ∀ text p, (p ≤ next_word text p)%nat
}.

Section text_cursor.
Context `{WordBoundaries}.

(** [QTextCursor.positionInBlock()]: the column of the cursor. *)
Definition positionInBlock (text : list ascii) (tc : QTextCursor) : nat :=
  length (take_while not_newline (rev (take (position tc) text))).

Definition block_start (text : list ascii) (tc : QTextCursor) : nat :=
  (position tc - positionInBlock text tc)%nat.

Definition block_end (text : list ascii) (tc : QTextCursor) : nat :=
  (position tc + length (take_while not_newline (drop (position tc) text)))%nat.

(** The text of the block the cursor is in. *)
Definition block_text (text : list ascii) (tc : QTextCursor) : list ascii :=
  take (block_end text tc - block_start text tc) (drop (block_start text tc) text).

(** The cursor has a selection that a move in [mode] gives up. *)
Definition leaves_selection (mode : MoveMode) (tc : QTextCursor) : bool :=
  match mode with
  | MoveAnchor => negb (position tc =? anchor tc)%nat
  | KeepAnchor => false
  end.

(** The target of one move. A move that is not possible (left of the
    start, right of the end) stays where it is. [Left] and [Right] in
    [MoveAnchor] mode on a cursor with a selection go to the edge of the
    selection on that side, and no further; every other move is decided by
    the position of the cursor alone. *)
Definition move_target (op : MoveOperation) (mode : MoveMode)
    (text : list ascii) (tc : QTextCursor) : nat :=
  match op with
  | Left => if leaves_selection mode tc
            then Nat.min (position tc) (anchor tc)
            else (position tc - 1)%nat
  | Right => if leaves_selection mode tc
             then Nat.max (position tc) (anchor tc)
             else if (position tc <? length text)%nat
                  then (position tc + 1)%nat else position tc
  | StartOfLine | StartOfBlock => block_start text tc
  | EndOfBlock => block_end text tc
  | WordRight => next_word text (position tc)
  end.

Definition move_once (op : MoveOperation) (mode : MoveMode)
    (text : list ascii) (tc : QTextCursor) : QTextCursor :=
  let p := move_target op mode text tc in
  {| anchor := match mode with MoveAnchor => p | KeepAnchor => anchor tc end;
     position := p |}.

(** [QTextCursor.movePosition(op, mode, n)]: Qt performs the operation in
    the loop [for (; n > 0; --n)], so a count that is zero or negative
    performs it zero times; [StartOfLine] is always performed once. *)
Definition movePosition (op : MoveOperation) (mode : MoveMode) (n : Z)
    (text : list ascii) (tc : QTextCursor) : QTextCursor :=
  let n := match op with StartOfLine => 1%Z | _ => n end in
  Nat.iter (Z.to_nat n) (move_once op mode text) tc.

(** [QTextCursor.setPosition(pos)], with the default [MoveAnchor]. *)
Definition setPosition (pos : nat) (tc : QTextCursor) : QTextCursor :=
  {| anchor := pos; position := pos |}.

Definition selectionStart (tc : QTextCursor) : nat :=
  Nat.min (anchor tc) (position tc).

Definition selectionEnd (tc : QTextCursor) : nat :=
  Nat.max (anchor tc) (position tc).

(** [QTextCursor.select(QTextCursor.LineUnderCursor)] *)
Definition select_LineUnderCursor (text : list ascii) (tc : QTextCursor)
  : QTextCursor :=
  {| anchor := block_start text tc; position := block_end text tc |}.

(** [QTextCursor.selectedText()]. Qt writes the block separator inside a
    selection as U+2029; here it is the same newline character as in the
    document, which is also how [insertText] reads it back. *)
Definition selectedText (text : list ascii) (tc : QTextCursor) : list ascii :=
  take (selectionEnd tc - selectionStart tc) (drop (selectionStart tc) text).

(** [QTextCursor.insertText(s)]: replaces the selection by [s] and leaves
    the cursor, without selection, after the inserted text. *)
Definition insertText (s : list ascii) (text : list ascii) (tc : QTextCursor)
  : list ascii * QTextCursor :=
  (take (selectionStart tc) text ++ s ++ drop (selectionEnd tc) text,
   setPosition (selectionStart tc + length s) tc).

End text_cursor.

(** ** The object store

    Editors and text documents are objects with identity: [link] makes two
    editors refer to one document, and [clones] is a list of references to
    other editors. *)

Definition editor_id : Type := nat.
Definition doc_id : Type := nat.
Definition deco_id : Type := nat.

Record QColor : Type := { red : N; green : N; blue : N }.

Record QPoint : Type := { px : Z; py : Z }.

(** The size of a [QFont]: a number of points, or the default size of the
    system. *)
Inductive QFontSize : Type :=
| Points (n : Z)
| DefaultSize.

Record QFont : Type := { family : string; pointSize : QFontSize }.

(** [QtGui.QFont(family, pointSize)]: when [pointSize] is zero or negative,
    Qt gives the font its system-dependent default size. *)
Definition QtGui_QFont (family : string) (pointSize : Z) : QFont :=
  {| family := family;
     pointSize := if decide (0 < pointSize)%Z then Points pointSize
                  else DefaultSize |}.

(** The four colour roles [_reset_stylesheet] writes. *)
Record QPalette : Type := {
  Base : QColor;
  Text : QColor;
  Highlight : QColor;
  HighlightedText : QColor
}.

(** A [QTextDocument]: its text and the [ShowTabsAndSpaces] flag of its
    default text option. *)
Record QTextDocument : Type := {
  toPlainText : list ascii;
  ShowTabsAndSpaces : bool
}.

(** The attributes of the editor's [FileManager] that [link] copies. *)
Record FileManager : Type := {
  _path : string;
  _encoding : string;
  _mimetype : string
}.

Record CodeEdit : Type := {
  clones : list editor_id;
  document : doc_id;
  file : FileManager;
  _use_spaces_instead_of_tabs : bool;
  _tab_length : Z;
  _min_indent_column : Z;
  _save_on_focus_out : bool;
  _show_whitespaces : bool;
  _font_family : string;
  _zoom_level : Z;
  _font_size : Z;
  _background : QColor;
  _foreground : QColor;
  _whitespaces_foreground : QColor;
  _sel_background : QColor;
  _sel_foreground : QColor;
  _word_separators : list string;
  font : QFont;
  palette : QPalette;
  decorations : list deco_id;
  textCursor : QTextCursor
}.

(** [self.<attribute> = value], one function per attribute. *)

Definition with_clones (value : list editor_id) (self : CodeEdit) : CodeEdit :=
  match self with
  | Build_CodeEdit cl doc fm ust tl mic sfo sw ff zl fs bg fg wfg sbg sfg sep
        fnt pal dec tc =>
      Build_CodeEdit value doc fm ust tl mic sfo sw ff zl fs bg fg wfg sbg sfg
        sep fnt pal dec tc
  end.

Definition with_document (value : doc_id) (self : CodeEdit) : CodeEdit :=
  match self with
  | Build_CodeEdit cl doc fm ust tl mic sfo sw ff zl fs bg fg wfg sbg sfg sep
        fnt pal dec tc =>
      Build_CodeEdit cl value fm ust tl mic sfo sw ff zl fs bg fg wfg sbg sfg
        sep fnt pal dec tc
  end.

Definition with_file (value : FileManager) (self : CodeEdit) : CodeEdit :=
  match self with
  | Build_CodeEdit cl doc fm ust tl mic sfo sw ff zl fs bg fg wfg sbg sfg sep
        fnt pal dec tc =>
      Build_CodeEdit cl doc value ust tl mic sfo sw ff zl fs bg fg wfg sbg sfg
        sep fnt pal dec tc
  end.

Definition with_use_spaces_instead_of_tabs (value : bool) (self : CodeEdit) : CodeEdit :=
  match self with
  | Build_CodeEdit cl doc fm ust tl mic sfo sw ff zl fs bg fg wfg sbg sfg sep
        fnt pal dec tc =>
      Build_CodeEdit cl doc fm value tl mic sfo sw ff zl fs bg fg wfg sbg sfg
        sep fnt pal dec tc
  end.

Definition with_tab_length (value : Z) (self : CodeEdit) : CodeEdit :=
  match self with
  | Build_CodeEdit cl doc fm ust tl mic sfo sw ff zl fs bg fg wfg sbg sfg sep
        fnt pal dec tc =>
      Build_CodeEdit cl doc fm ust value mic sfo sw ff zl fs bg fg wfg sbg sfg
        sep fnt pal dec tc
  end.

Definition with_min_indent_column (value : Z) (self : CodeEdit) : CodeEdit :=
  match self with
  | Build_CodeEdit cl doc fm ust tl mic sfo sw ff zl fs bg fg wfg sbg sfg sep
        fnt pal dec tc =>
      Build_CodeEdit cl doc fm ust tl value sfo sw ff zl fs bg fg wfg sbg sfg
        sep fnt pal dec tc
  end.

Definition with_save_on_focus_out (value : bool) (self : CodeEdit) : CodeEdit :=
  match self with
  | Build_CodeEdit cl doc fm ust tl mic sfo sw ff zl fs bg fg wfg sbg sfg sep
        fnt pal dec tc =>
      Build_CodeEdit cl doc fm ust tl mic value sw ff zl fs bg fg wfg sbg sfg
        sep fnt pal dec tc
  end.

Definition with_show_whitespaces (value : bool) (self : CodeEdit) : CodeEdit :=
  match self with
  | Build_CodeEdit cl doc fm ust tl mic sfo sw ff zl fs bg fg wfg sbg sfg sep
        fnt pal dec tc =>
      Build_CodeEdit cl doc fm ust tl mic sfo value ff zl fs bg fg wfg sbg sfg
        sep fnt pal dec tc
  end.

Definition with_font_family (value : string) (self : CodeEdit) : CodeEdit :=
  match self with
  | Build_CodeEdit cl doc fm ust tl mic sfo sw ff zl fs bg fg wfg sbg sfg sep
        fnt pal dec tc =>
      Build_CodeEdit cl doc fm ust tl mic sfo sw value zl fs bg fg wfg sbg sfg
        sep fnt pal dec tc
  end.

Definition with_zoom_level (value : Z) (self : CodeEdit) : CodeEdit :=
  match self with
  | Build_CodeEdit cl doc fm ust tl mic sfo sw ff zl fs bg fg wfg sbg sfg sep
        fnt pal dec tc =>
      Build_CodeEdit cl doc fm ust tl mic sfo sw ff value fs bg fg wfg sbg sfg
        sep fnt pal dec tc
  end.

Definition with_font_size (value : Z) (self : CodeEdit) : CodeEdit :=
  match self with
  | Build_CodeEdit cl doc fm ust tl mic sfo sw ff zl fs bg fg wfg sbg sfg sep
        fnt pal dec tc =>
      Build_CodeEdit cl doc fm ust tl mic sfo sw ff zl value bg fg wfg sbg sfg
        sep fnt pal dec tc
  end.

Definition with_background (value : QColor) (self : CodeEdit) : CodeEdit :=
  match self with
  | Build_CodeEdit cl doc fm ust tl mic sfo sw ff zl fs bg fg wfg sbg sfg sep
        fnt pal dec tc =>
      Build_CodeEdit cl doc fm ust tl mic sfo sw ff zl fs value fg wfg sbg sfg
        sep fnt pal dec tc
  end.

Definition with_foreground (value : QColor) (self : CodeEdit) : CodeEdit :=
  match self with
  | Build_CodeEdit cl doc fm ust tl mic sfo sw ff zl fs bg fg wfg sbg sfg sep
        fnt pal dec tc =>
      Build_CodeEdit cl doc fm ust tl mic sfo sw ff zl fs bg value wfg sbg sfg
        sep fnt pal dec tc
  end.

Definition with_whitespaces_foreground (value : QColor) (self : CodeEdit) : CodeEdit :=
  match self with
  | Build_CodeEdit cl doc fm ust tl mic sfo sw ff zl fs bg fg wfg sbg sfg sep
        fnt pal dec tc =>
      Build_CodeEdit cl doc fm ust tl mic sfo sw ff zl fs bg fg value sbg sfg
        sep fnt pal dec tc
  end.

Definition with_sel_background (value : QColor) (self : CodeEdit) : CodeEdit :=
  match self with
  | Build_CodeEdit cl doc fm ust tl mic sfo sw ff zl fs bg fg wfg sbg sfg sep
        fnt pal dec tc =>
      Build_CodeEdit cl doc fm ust tl mic sfo sw ff zl fs bg fg wfg value sfg
        sep fnt pal dec tc
  end.

Definition with_sel_foreground (value : QColor) (self : CodeEdit) : CodeEdit :=
  match self with
  | Build_CodeEdit cl doc fm ust tl mic sfo sw ff zl fs bg fg wfg sbg sfg sep
        fnt pal dec tc =>
      Build_CodeEdit cl doc fm ust tl mic sfo sw ff zl fs bg fg wfg sbg value
        sep fnt pal dec tc
  end.

Definition with_word_separators (value : list string) (self : CodeEdit) : CodeEdit :=
  match self with
  | Build_CodeEdit cl doc fm ust tl mic sfo sw ff zl fs bg fg wfg sbg sfg sep
        fnt pal dec tc =>
      Build_CodeEdit cl doc fm ust tl mic sfo sw ff zl fs bg fg wfg sbg sfg
        value fnt pal dec tc
  end.

Definition with_font (value : QFont) (self : CodeEdit) : CodeEdit :=
  match self with
  | Build_CodeEdit cl doc fm ust tl mic sfo sw ff zl fs bg fg wfg sbg sfg sep
        fnt pal dec tc =>
      Build_CodeEdit cl doc fm ust tl mic sfo sw ff zl fs bg fg wfg sbg sfg
        sep value pal dec tc
  end.

Definition with_palette (value : QPalette) (self : CodeEdit) : CodeEdit :=
  match self with
  | Build_CodeEdit cl doc fm ust tl mic sfo sw ff zl fs bg fg wfg sbg sfg sep
        fnt pal dec tc =>
      Build_CodeEdit cl doc fm ust tl mic sfo sw ff zl fs bg fg wfg sbg sfg
        sep fnt value dec tc
  end.

Definition with_textCursor (value : QTextCursor) (self : CodeEdit) : CodeEdit :=
  match self with
  | Build_CodeEdit cl doc fm ust tl mic sfo sw ff zl fs bg fg wfg sbg sfg sep
        fnt pal dec tc =>
      Build_CodeEdit cl doc fm ust tl mic sfo sw ff zl fs bg fg wfg sbg sfg
        sep fnt pal dec value
  end.

Definition with_toPlainText (value : list ascii) (doc : QTextDocument)
  : QTextDocument :=
  {| toPlainText := value; ShowTabsAndSpaces := ShowTabsAndSpaces doc |}.

Definition with_ShowTabsAndSpaces (value : bool) (doc : QTextDocument)
  : QTextDocument :=
  {| toPlainText := toPlainText doc; ShowTabsAndSpaces := value |}.

(** The store: the editors, the documents, and the one tooltip Qt shows
    ([QToolTip] is global): its position, its text and the widget it belongs
    to. *)
Record world : Type := {
  editors : gmap editor_id CodeEdit;
  documents : gmap doc_id QTextDocument;
  QToolTip : option (QPoint * list ascii * editor_id)
}.

(** ** A state and exception monad over the store *)

Definition M (A : Type) : Type := world → result (A * world).

Definition ret {A : Type} (a : A) : M A := λ w, Ok (a, w).

Definition bind {A B : Type} (m : M A) (k : A → M B) : M B :=
  λ w, match m w with
       | Ok (a, w') => k a w'
       | Raise e => Raise e
       end.

Definition raise {A : Type} (e : exn) : M A := λ _, Raise e.

Declare Scope M_scope.
Delimit Scope M_scope with M.
Bind Scope M_scope with M.
Notation "x <- m ; k" := (bind m (λ x, k))
  (at level 100, m at next level, right associativity) : M_scope.
Notation "m ;; k" := (bind m (λ _, k))
  (at level 100, right associativity) : M_scope.
Local Open Scope M_scope.

(** [for a in l: body(a)] *)
Fixpoint for_each {A : Type} (l : list A) (body : A → M unit) : M unit :=
  match l with
  | [] => ret tt
  | a :: l' => body a ;; for_each l' body
  end.

(** Dereference an editor. *)
Definition get_editor (self : editor_id) : M CodeEdit :=
  λ w, match editors w !! self with
       | Some ed => Ok (ed, w)
       | None => Raise ReferenceError
       end.

(** Mutate an editor in place. *)
Definition modify_editor (self : editor_id) (f : CodeEdit → CodeEdit) : M unit :=
  λ w, match editors w !! self with
       | Some ed =>
           Ok (tt, {| editors := <[self := f ed]> (editors w);
                      documents := documents w;
                      QToolTip := QToolTip w |})
       | None => Raise ReferenceError
       end.

Definition get_document (doc : doc_id) : M QTextDocument :=
  λ w, match documents w !! doc with
       | Some d => Ok (d, w)
       | None => Raise ReferenceError
       end.

Definition modify_document (doc : doc_id) (f : QTextDocument → QTextDocument)
  : M unit :=
  λ w, match documents w !! doc with
       | Some d =>
           Ok (tt, {| editors := editors w;
                      documents := <[doc := f d]> (documents w);
                      QToolTip := QToolTip w |})
       | None => Raise ReferenceError
       end.

(** [QToolTip.showText(pos, text, widget)] *)
Definition QToolTip_showText (pos : QPoint) (text : list ascii)
    (widget : editor_id) : M unit :=
  λ w, Ok (tt, {| editors := editors w;
                  documents := documents w;
                  QToolTip := Some (pos, text, widget) |}).

(** Read an attribute of an editor: [self.<attribute>]. The property getters
    of [CodeEdit] return the attribute of the same name ([font_name] returns
    [_font_family], [selection_background] returns [_sel_background],
    [selection_foreground] returns [_sel_foreground]). *)
Definition attr {V : Type} (self : editor_id) (attribute : CodeEdit → V) : M V :=
  ed <- get_editor self; ret (attribute ed).

(** [self.document().toPlainText()] *)
Definition plain_text (self : editor_id) : M (list ascii) :=
  ed <- get_editor self;
  d <- get_document (document ed);
  ret (toPlainText d).

(** A text edit made through the widget [self]: the widget changes the
    text of the document it shows. *)
Definition edit_text (self : editor_id) (change : list ascii → list ascii)
  : M unit :=
  ed <- get_editor self;
  modify_document (document ed) (λ d, with_toPlainText (change (toPlainText d)) d).

(** ** [CodeEdit] *)

Section CodeEdit.
Context `{WordBoundaries}.

(** [sys.platform] *)
Variable sys_platform : string.

Definition _DEFAULT_FONT : string :=
  if decide (sys_platform = "darwin") then "Monaco" else "Source Code Pro".

(** [_set_whitespaces_flags(show)]: sets or clears [ShowTabsAndSpaces] in
    the default text option of the editor's document. *)
Definition _set_whitespaces_flags (self : editor_id) (show : bool) : M unit :=
  ed <- get_editor self;
  modify_document (document ed) (with_ShowTabsAndSpaces show).

(** [_reset_stylesheet()]: the widget font becomes
    [QFont(_font_family, _font_size + _zoom_level)] and the four palette
    roles are set from the colour properties. The widget's style sheet
    string, which depends on the application and the platform, and the
    repaint are not part of the model. *)
Definition _reset_stylesheet (self : editor_id) : M unit :=
  modify_editor self (λ ed,
    with_palette
      {| Base := _background ed;
         Text := _foreground ed;
         Highlight := _sel_background ed;
         HighlightedText := _sel_foreground ed |}
      (with_font
         (QtGui_QFont (_font_family ed) (_font_size ed + _zoom_level ed))
         ed)).

(** The property setters that propagate to the clones all have one shape:

    [[
    def prop(self, value):
        value = normalise(value)       # font_name only
        self._prop = value
        refresh()                      # some of them
        for c in self.clones:
            c.prop = value
    ]]

    [c.prop = value] runs the same setter on the clone, so the setter is
    recursive along [clones]; [depth] is the interpreter's recursion
    limit. *)
Section synced_setter.
Context {V : Type}.
Variable normalise : V → V.
Variable assign : V → CodeEdit → CodeEdit.
Variable refresh : editor_id → V → M unit.

Fixpoint synced_setter (depth : nat) (self : editor_id) (value : V)
  : M unit :=
  match depth with
  | O => raise RecursionError
  | S depth' =>
      let value := normalise value in
      modify_editor self (assign value);;
      refresh self value;;
      ed <- get_editor self;
      for_each (clones ed) (λ c, synced_setter depth' c value)
  end.
End synced_setter.

Definition no_refresh {V : Type} (self : editor_id) (value : V) : M unit :=
  ret tt.

Definition set_use_spaces_instead_of_tabs :=
  synced_setter id with_use_spaces_instead_of_tabs no_refresh.

Definition set_tab_length :=
  synced_setter id with_tab_length no_refresh.

Definition set_min_indent_column :=
  synced_setter id with_min_indent_column no_refresh.

Definition set_save_on_focus_out :=
  synced_setter id with_save_on_focus_out no_refresh.

Definition set_show_whitespaces :=
  synced_setter id with_show_whitespaces _set_whitespaces_flags.

(** [font_name] replaces an empty value by [_DEFAULT_FONT]. *)
Definition font_name_or_default (value : string) : string :=
  if decide (value = EmptyString) then _DEFAULT_FONT else value.

Definition set_font_name :=
  synced_setter font_name_or_default with_font_family
    (λ self _, _reset_stylesheet self).

Definition set_font_size :=
  synced_setter id with_font_size (λ self _, _reset_stylesheet self).

Definition set_background :=
  synced_setter id with_background (λ self _, _reset_stylesheet self).

Definition set_foreground :=
  synced_setter id with_foreground (λ self _, _reset_stylesheet self).

Definition set_whitespaces_foreground :=
  synced_setter id with_whitespaces_foreground no_refresh.

Definition set_selection_background :=
  synced_setter id with_sel_background (λ self _, _reset_stylesheet self).

Definition set_selection_foreground :=
  synced_setter id with_sel_foreground no_refresh.

(** [word_separators] writes the attribute of each clone directly
    ([c._word_separators = value]). *)
Definition set_word_separators (self : editor_id) (value : list string)
  : M unit :=
  modify_editor self (with_word_separators value);;
  ed <- get_editor self;
  for_each (clones ed) (λ c, modify_editor c (with_word_separators value)).

(** [zoom_level] has a plain setter: [self._zoom_level = value]. *)
Definition set_zoom_level (self : editor_id) (value : Z) : M unit :=
  modify_editor self (with_zoom_level value).

(** [link(clone)]. The two loops over [zip(self.modes, clone.modes)] and
    [zip(self.panels, clone.panels)] copy the enabled flag and the settings
    from each mode and panel of the original to its counterpart, and
    [clone.file.clone_settings] copies further file-manager settings; they
    act on the plugin and file-manager objects only and are left out. *)
Definition link (depth : nat) (self clone : editor_id) : M unit :=
  path <- attr self (λ ed, _path (file ed));
  modify_editor clone (λ c,
    with_file {| _path := path;
                 _encoding := _encoding (file c);
                 _mimetype := _mimetype (file c) |} c);;
  encoding <- attr self (λ ed, _encoding (file ed));
  modify_editor clone (λ c,
    with_file {| _path := _path (file c);
                 _encoding := encoding;
                 _mimetype := _mimetype (file c) |} c);;
  mimetype <- attr self (λ ed, _mimetype (file ed));
  modify_editor clone (λ c,
    with_file {| _path := _path (file c);
                 _encoding := _encoding (file c);
                 _mimetype := mimetype |} c);;
  doc <- attr self document;
  modify_editor clone (with_document doc);;
  v <- attr self _use_spaces_instead_of_tabs;
  set_use_spaces_instead_of_tabs depth clone v;;
  v <- attr self _tab_length;
  set_tab_length depth clone v;;
  v <- attr self _min_indent_column;
  set_min_indent_column depth clone v;;
  v <- attr self _save_on_focus_out;
  set_save_on_focus_out depth clone v;;
  v <- attr self _show_whitespaces;
  set_show_whitespaces depth clone v;;
  v <- attr self _font_family;
  set_font_name depth clone v;;
  v <- attr self _font_size;
  set_font_size depth clone v;;
  v <- attr self _zoom_level;
  set_zoom_level clone v;;
  v <- attr self _background;
  set_background depth clone v;;
  v <- attr self _foreground;
  set_foreground depth clone v;;
  v <- attr self _whitespaces_foreground;
  set_whitespaces_foreground depth clone v;;
  v <- attr self _sel_background;
  set_selection_background depth clone v;;
  v <- attr self _sel_foreground;
  set_selection_foreground depth clone v;;
  v <- attr self _word_separators;
  set_word_separators clone v.

(** [show_tooltip(pos, tooltip, _sender_deco=None)] *)
Definition show_tooltip (self : editor_id) (pos : QPoint)
    (tooltip : list ascii) (_sender_deco : option deco_id) : M unit :=
  ed <- get_editor self;
  if match _sender_deco with
     | Some deco => bool_decide (deco ∉ decorations ed)
     | None => false
     end
  then ret tt
  else QToolTip_showText pos (take 1024 tooltip) self.

(** [reset_zoom()] *)
Definition reset_zoom (self : editor_id) : M unit :=
  modify_editor self (with_zoom_level 0%Z);;
  _reset_stylesheet self.

(** [zoom_in(increment=1)]. [TextHelper(self).mark_whole_doc_dirty()] asks
    the document layout to repaint and changes nothing in the store. *)
Definition zoom_in (self : editor_id) (increment : Z) : M unit :=
  z <- attr self _zoom_level;
  set_zoom_level self (z + increment)%Z;;
  _reset_stylesheet self.

(** [zoom_out(decrement=1)] *)
Definition zoom_out (self : editor_id) (decrement : Z) : M unit :=
  z <- attr self _zoom_level;
  set_zoom_level self (z - decrement)%Z;;
  font_size <- attr self _font_size;
  zoom_level <- attr self _zoom_level;
  (if decide (font_size + zoom_level ≤ 0)%Z
   then fs <- attr self _font_size; set_zoom_level self (- fs + 1)%Z
   else ret tt);;
  _reset_stylesheet self.

(** Modelled from the spec: [TextHelper(editor).line_indent()] of
    [pyqode.core.api.utils], the indentation width of the line the cursor is
    on, that is the number of whitespace characters the line starts with. *)
Definition line_indent (text : list ascii) (tc : QTextCursor) : nat :=
  length (leading_whitespace (block_text text tc)).

End CodeEdit.

(** ** Key events *)

Record QKeyEvent : Type := {
  key : Z;
  modifiers : Z;
  isAccepted : bool
}.

Definition Key_Return : Z := 0x01000004.
Definition Key_Enter : Z := 0x01000005.
Definition Key_Home : Z := 0x01000010.

(** [event.accept()] *)
Definition accept (event : QKeyEvent) : QKeyEvent :=
  {| key := key event; modifiers := modifiers event; isAccepted := true |}.

Section key_handlers.
Context `{WordBoundaries}.

(** [CodeEdit._do_home_key(event=None, select=False)] *)
Definition _do_home_key (self : editor_id) (event : option QKeyEvent)
    (select : bool) : M (option QKeyEvent) :=
  ed <- get_editor self;
  d <- get_document (document ed);
  let text := toPlainText d in
  let delta := (Z.of_nat (positionInBlock text (textCursor ed))
                - Z.of_nat (line_indent text (textCursor ed)))%Z in
  let cursor := textCursor ed in
  let move := if select then KeepAnchor else MoveAnchor in
  let cursor :=
    if decide (delta ≠ 0%Z)
    then movePosition Left move delta text cursor
    else movePosition StartOfBlock move 1 text cursor in
  modify_editor self (with_textCursor cursor);;
  ret (accept <$> event).

(** When the text of a document changes, Qt moves every cursor on that
    document along: a position before the changed range stays, one inside
    it or at its start goes to the end of the new text, one behind it is
    shifted. [lo] and [hi] delimit the replaced range, [n] is the length
    of the text put in its place. *)
Definition track (lo hi n : nat) (q : nat) : nat :=
  if (q <? lo)%nat then q else (Nat.max q hi - (hi - lo) + n)%nat.

Definition track_cursor (lo hi n : nat) (tc : QTextCursor) : QTextCursor :=
  {| anchor := track lo hi n (anchor tc);
     position := track lo hi n (position tc) |}.

(** [tc.insertText(s)] for a cursor [tc] on the document [doc]: the text of
    the document changes, and so do the cursors of the editors that show
    it. Returns the cursor after the insertion. *)
Definition cursor_insertText (doc : doc_id) (s : list ascii)
    (tc : QTextCursor) : M QTextCursor :=
  d <- get_document doc;
  let '(text', tc') := insertText s (toPlainText d) tc in
  modify_document doc (with_toPlainText text');;
  (λ w, Ok (tc',
            {| editors :=
                 (λ ed, if decide (document ed = doc)
                        then with_textCursor
                               (track_cursor (selectionStart tc)
                                  (selectionEnd tc) (length s)
                                  (textCursor ed)) ed
                        else ed) <$> editors w;
               documents := documents w;
               QToolTip := QToolTip w |})).

(** *** [AutoIndentMode] *)

(** The mode: the editor it is installed on, its [min_indent], and
    whether [_on_key_pressed] is connected to the editor's [key_pressed]
    signal. *)
Record AutoIndentMode : Type := {
  editor : editor_id;
  min_indent : list ascii;
  key_pressed_connected : bool
}.

(** [_get_indent(tc)]: returns the pair (text before the new line, text
    after the new line), and the cursor as the method leaves it. *)
Definition _get_indent (self : AutoIndentMode) (text : list ascii)
    (tc : QTextCursor) : (list ascii * list ascii) * QTextCursor :=
  let pos := position tc in
  let tc := movePosition StartOfLine MoveAnchor 1 text tc in
  let tc := select_LineUnderCursor text tc in
  let s := selectedText text tc in
  let indent := leading_whitespace s in
  let tc := setPosition pos tc in
  let indent :=
    if (length indent <? length (min_indent self))%nat
    then min_indent self else indent in
  (([], indent), tc).

(** [_on_state_changed(state)] connects or disconnects the handler. *)
Definition _on_state_changed (state : bool) (self : AutoIndentMode)
  : AutoIndentMode :=
  {| editor := editor self;
     min_indent := min_indent self;
     key_pressed_connected := state |}.

(** [_on_key_pressed(event)] *)
Definition _on_key_pressed (self : AutoIndentMode) (event : QKeyEvent)
  : M QKeyEvent :=
  if isAccepted event then ret event
  else if decide (key event = Key_Return ∨ key event = Key_Enter) then
    ed <- get_editor (editor self);
    d <- get_document (document ed);
    let tc := textCursor ed in
    let '((pre, post), tc) := _get_indent self (toPlainText d) tc in
    tc <- cursor_insertText (document ed) (pre ++ newline :: post) tc;
    (* eats possible whitespaces *)
    d <- get_document (document ed);
    let tc := movePosition WordRight KeepAnchor 1 (toPlainText d) tc in
    let txt := selectedText (toPlainText d) tc in
    (if startswith_space txt then
       let new_txt := remove_spaces txt in
       if (length new_txt <? length txt)%nat
       then cursor_insertText (document ed) new_txt tc;; ret tt
       else ret tt
     else ret tt);;
    ret (accept event)
  else ret event.

(** The editor's [key_pressed] signal reaches the mode when the handler is
    connected. *)
Definition key_pressed_emit (self : AutoIndentMode) (event : QKeyEvent)
  : M QKeyEvent :=
  if key_pressed_connected self then _on_key_pressed self event
  else ret event.

End key_handlers.

(** ** Creating and splitting editors *)

(** The colours [_init_style] names: [QColor('white')], [QColor('black')]
    and [QColor('light gray')]. *)
Definition white : QColor := {| red := 255; green := 255; blue := 255 |}.
Definition black : QColor := {| red := 0; green := 0; blue := 0 |}.
Definition light_gray : QColor := {| red := 211; green := 211; blue := 211 |}.

(** The word separators [__init__] starts with. *)
Definition default_word_separators : list string :=
  ["~"; "!"; "@"; "#"; "$"; "%"; "^"; "&"; "*"; "("; ")"; "+"; "{"; "}"; "|";
   ":"; String "034"%char EmptyString; "'"; "<"; ">"; "?"; ","; "."; "/"; ";";
   "["; "]"; String "092"%char EmptyString; String "010"%char EmptyString;
   String "009"%char EmptyString; "="; "-"; " "].

Section split.
Context `{WordBoundaries}.

(** [sys.platform], and the two colours [_init_style] reads from the
    palette of the running [QApplication]. *)
Variable sys_platform : string.
Variables app_highlight app_highlightedText : QColor.

(** [CodeEdit.__init__]: a new widget with a new, empty document. The
    attributes get the values of [__init__], [_init_settings] and
    [_init_style]; [_init_style] ends with [self.font_name = ''], which
    selects the default font and resets the style sheet, so the font and the
    palette given here are only those of the moment before. The new file
    manager starts without path, encoding and mime type. *)
Definition CodeEdit_init (depth : nat) : M editor_id :=
  λ w,
    let self := fresh (dom (editors w)) in
    let doc := fresh (dom (documents w)) in
    let ed :=
      {| clones := [];
         document := doc;
         file := {| _path := EmptyString; _encoding := EmptyString;
                    _mimetype := EmptyString |};
         _use_spaces_instead_of_tabs := true;
         _tab_length := 4;
         _min_indent_column := 0;
         _save_on_focus_out := false;
         _show_whitespaces := false;
         _font_family := _DEFAULT_FONT sys_platform;
         _zoom_level := 0;
         _font_size := 10;
         _background := white;
         _foreground := black;
         _whitespaces_foreground := light_gray;
         _sel_background := app_highlight;
         _sel_foreground := app_highlightedText;
         _word_separators := default_word_separators;
         font := {| family := EmptyString; pointSize := DefaultSize |};
         palette := {| Base := white; Text := black;
                       Highlight := app_highlight;
                       HighlightedText := app_highlightedText |};
         decorations := [];
         textCursor := {| anchor := 0; position := 0 |} |} in
    (set_font_name sys_platform depth self EmptyString;; ret self)
      {| editors := <[self := ed]> (editors w);
         documents := <[doc := {| toPlainText := [];
                                  ShowTabsAndSpaces := false |}]> (documents w);
         QToolTip := QToolTip w |}.

(** [clone()]: an instance of the same class, from the default
    constructor. *)
Definition clone (depth : nat) (self : editor_id) : M editor_id :=
  CodeEdit_init depth.

(** [split()]. [TextHelper(self).cursor_position()] and
    [TextHelper(clone).goto_line(l, c)] put the cursor of the clone on the
    line and column of the cursor of the original; both show the same
    document by then, so that is the same position. *)
Definition split (depth : nat) (self : editor_id) : M editor_id :=
  cursor <- attr self textCursor;
  new <- clone depth self;
  link sys_platform depth self new;;
  modify_editor new (with_textCursor (setPosition (position cursor) cursor));;
  modify_editor self (λ ed, with_clones (clones ed ++ [new]) ed);;
  ret new.

End split.

(** ** A word-boundary rule

    An instance of [WordBoundaries] after the rule of Qt's text layout
    ([SkipWords]): from a word separator skip the run of separators,
    otherwise skip the rest of the word; then skip the white space that
    follows. At the end of a block the next word starts with the next
    block. *)

Definition atWordSeparator (c : ascii) : bool :=
  bool_decide
    (c ∈ "092"%char :: "034"%char
         :: String.list_ascii_of_string ".,?!@#$:;-<>[](){}=/+%&^*'`~|").

Definition in_word (c : ascii) : bool :=
  negb (isspace c) && negb (atWordSeparator c).

Definition qt_next_word (text : list ascii) (p : nat) : nat :=
  let rest := take_while not_newline (drop p text) in
  match rest with
  | [] => if (p <? length text)%nat then (p + 1)%nat else p
  | c :: _ =>
      let n := if atWordSeparator c
               then length (take_while atWordSeparator rest)
               else length (take_while in_word rest) in
      (p + n + length (take_while isspace (drop n rest)))%nat
  end.

Lemma qt_next_word_forward (text : list ascii) (p : nat) :
  (p ≤ qt_next_word text p)%nat.
Proof.
  unfold qt_next_word.
  destruct (take_while not_newline (drop p text)); [case_match|]; lia.
Qed.

#[export] Instance qt_words : WordBoundaries :=
  {| next_word := qt_next_word; next_word_forward := qt_next_word_forward |}.

(** ** Predicates on stores and texts *)

(** The clones form a tree (a forest): every editor shows a document of the
    store, every clone is an editor of the store, and [rank] decreases from
    an editor to its clones. *)
Definition clone_tree (rank : editor_id → nat) (w : world) : Prop :=
  ∀ e ed, editors w !! e = Some ed →
    is_Some (documents w !! document ed) ∧
    ∀ c, c ∈ clones ed → is_Some (editors w !! c) ∧ (rank c < rank e)%nat.

(** Two stores with the same editors, clone lists and document references,
    and the same documents allocated. *)
Definition same_shape (w w' : world) : Prop :=
  (∀ e, clones <$> editors w' !! e = clones <$> editors w !! e) ∧
  (∀ e, document <$> editors w' !! e = document <$> editors w !! e) ∧
  (∀ d, is_Some (documents w' !! d) ↔ is_Some (documents w !! d)).

(** The editor [e] of the store [w] has the value [v] for [attribute]. *)
Definition holds {V : Type} (attribute : CodeEdit → V) (v : V) (w : world)
    (e : editor_id) : Prop :=
  attribute <$> editors w !! e = Some v.

(** From [w] to [w'] the shape is kept and every editor either keeps its
    value of [attribute] or has the value [v]. *)
Definition settled {V : Type} (attribute : CodeEdit → V) (v : V)
    (w w' : world) : Prop :=
  same_shape w w' ∧
  ∀ e, attribute <$> editors w' !! e = attribute <$> editors w !! e
       ∨ holds attribute v w' e.

(** What a setter needs from its [refresh] step: it succeeds on a
    well-formed store and keeps the shape and the attribute. *)
Definition refresh_keeps {V : Type} (attribute : CodeEdit → V)
    (refresh : editor_id → V → M unit) : Prop :=
  ∀ rank w self v, clone_tree rank w → is_Some (editors w !! self) →
    ∃ w', refresh self v w = Ok (tt, w') ∧ same_shape w w' ∧
          ∀ e, attribute <$> editors w' !! e = attribute <$> editors w !! e.

(** [clone_tree] as a check on each entry of the store; it can be decided
    by computation. *)
Definition clone_tree_check (rank : editor_id → nat) (w : world) : Prop :=
  map_Forall (λ e ed,
    is_Some (documents w !! document ed) ∧
    Forall (λ c, is_Some (editors w !! c) ∧ (rank c < rank e)%nat) (clones ed))
    (editors w).

(** Running [setter] on the store [w] succeeds and leaves the value [v] of
    [attribute] both in the editor [e] and in its clone [c]. *)
Definition syncs {V : Type} (setter : M unit) (attribute : CodeEdit → V)
    (v : V) (w : world) (e c : editor_id) : Prop :=
  ∃ w', setter w = Ok (tt, w') ∧
        holds attribute v w' e ∧ holds attribute v w' c.

(** [m] succeeds on every well-formed store in which the editors [live]
    exist, and keeps the shape of the store. *)
Definition keeps_shape (rank : editor_id → nat) (live : list editor_id)
    (m : M unit) : Prop :=
  ∀ w, clone_tree rank w → (∀ e, e ∈ live → is_Some (editors w !! e)) →
       ∃ w', m w = Ok (tt, w') ∧ same_shape w w'.

(** The cursor position [p] lies on the line [line] of [text]: the line
    contains no newline, it follows the start of the text or a newline, it is
    followed by the end of the text or a newline, and [p] is a position
    within it (its end included). *)
Definition cursor_in_line (text : list ascii) (p : nat)
    (before line after : list ascii) : Prop :=
  text = before ++ line ++ after ∧
  (newline ∉ line) ∧
  (before = [] ∨ ∃ b, before = b ++ [newline]) ∧
  (after = [] ∨ ∃ a, after = newline :: a) ∧
  (length before ≤ p ≤ length before + length line)%nat.

(** The indentation the specification asks for on a new line below [line]:
    the leading white space of [line], or [min_indent] when that is
    shorter than [min_indent]. *)
Definition expected_indent (min_indent line : list ascii) : list ascii :=
  if (length (leading_whitespace line) <? length min_indent)%nat
  then min_indent
  else leading_whitespace line.

(** The text behind the new indentation once [_on_key_pressed] has eaten
    white space: [WordRight] selects the first [n] characters of [tail],
    and when the selection starts with a space it is replaced by itself
    without its spaces. *)
Definition without_eaten_spaces (n : nat) (tail : list ascii) : list ascii :=
  if startswith_space (take n tail)
  then remove_spaces (take n tail) ++ drop n tail
  else tail.

(** ** Sample objects *)

Definition blue_highlight : QColor := {| red := 48; green := 140; blue := 198 |}.

(** An editor with the attribute values of a new [CodeEdit], showing the
    document [doc] with its cursor at [pos]. *)
Definition new_CodeEdit (doc : doc_id) (pos : nat) : CodeEdit :=
  {| clones := [];
     document := doc;
     file := {| _path := EmptyString; _encoding := "utf-8";
                _mimetype := "text/x-plain" |};
     _use_spaces_instead_of_tabs := true;
     _tab_length := 4;
     _min_indent_column := 0;
     _save_on_focus_out := false;
     _show_whitespaces := false;
     _font_family := "Source Code Pro";
     _zoom_level := 0;
     _font_size := 10;
     _background := white;
     _foreground := black;
     _whitespaces_foreground := light_gray;
     _sel_background := blue_highlight;
     _sel_foreground := white;
     _word_separators := default_word_separators;
     font := {| family := "Source Code Pro"; pointSize := Points 10 |};
     palette := {| Base := white; Text := black;
                   Highlight := blue_highlight; HighlightedText := white |};
     decorations := [];
     textCursor := {| anchor := pos; position := pos |} |}.

Definition new_QTextDocument (text : string) : QTextDocument :=
  {| toPlainText := String.list_ascii_of_string text; ShowTabsAndSpaces := false |}.

(** One editor (0) on one document (0). *)
Definition single_editor (text : string) (pos : nat) : world :=
  {| editors := {[ 0%nat := new_CodeEdit 0 pos ]};
     documents := {[ 0%nat := new_QTextDocument text ]};
     QToolTip := None |}.

(** An original (0) with a split view (1) that has a split view of its own
    (2), and a fresh editor (3) on a document of its own. *)
Definition split_views : world :=
  {| editors :=
       {[ 0%nat := with_clones [1%nat] (new_CodeEdit 0 0);
          1%nat := with_clones [2%nat] (new_CodeEdit 0 0);
          2%nat := new_CodeEdit 0 0;
          3%nat := new_CodeEdit 1 0 ]};
     documents := {[ 0%nat := new_QTextDocument "def f():";
                     1%nat := new_QTextDocument EmptyString ]};
     QToolTip := None |}.

(** The depth of an editor of [split_views] in the tree of clones. *)
Definition split_views_rank (e : editor_id) : nat :=
  match e with
  | 0 => 2
  | 1 => 1
  | _ => 0
  end%nat.

(** A mode and a panel, as the tests install them. *)
Definition CaseConverterMode : ModesManager.Mode :=
  {| ModesManager.mode_class := "CaseConverterMode";
     ModesManager.mode_ident := 1;
     ModesManager.mode_enabled := true |}.

Definition LineNumberPanel : PanelsManager.Panel :=
  {| PanelsManager.panel_class := "LineNumberPanel";
     PanelsManager.panel_ident := 2;
     PanelsManager.panel_enabled := true;
     PanelsManager.position := TOP |}.

Definition MarkerPanel : PanelsManager.Panel :=
  {| PanelsManager.panel_class := "MarkerPanel";
     PanelsManager.panel_ident := 3;
     PanelsManager.panel_enabled := true;
     PanelsManager.position := TOP |}.

(** A tooltip text of 2000 characters. *)
Definition long_tooltip : list ascii := replicate 2000 "a"%char.

(** An enabled [AutoIndentMode] on editor 0, and key presses. *)
Definition auto_indent_mode : AutoIndentMode :=
  _on_state_changed true
    {| editor := 0%nat; min_indent := []; key_pressed_connected := false |}.

Definition return_pressed : QKeyEvent :=
  {| key := Key_Return; modifiers := 0; isAccepted := false |}.

Definition home_pressed : QKeyEvent :=
  {| key := Key_Home; modifiers := 0; isAccepted := false |}.

(** * More of [CodeEdit] *)

(** ** The slots [delete] and [duplicate_line] *)

Module CodeEditSlots.
Section slots.
Context `{WordBoundaries}.

(** [QTextCursor.removeSelectedText()]: without a selection nothing
    happens; otherwise the selected text is removed, as by inserting the
    empty text in its place. *)
Definition cursor_removeSelectedText (doc : doc_id) (tc : QTextCursor)
  : M QTextCursor :=
  if decide (anchor tc = position tc) then ret tc
  else cursor_insertText doc [] tc.

(** [delete()]: [self.textCursor().removeSelectedText()] *)
Definition delete (self : editor_id) : M unit :=
  ed <- get_editor self;
  cursor_removeSelectedText (document ed) (textCursor ed);;
  ret tt.

(** [duplicate_line()]. [beginEditBlock] and [endEditBlock] group the
    change for undo and do not change the text. *)
Definition duplicate_line (self : editor_id) : M unit :=
  ed <- get_editor self;
  d <- get_document (document ed);
  let cursor := textCursor ed in
  let col := positionInBlock (toPlainText d) cursor in
  let cursor := select_LineUnderCursor (toPlainText d) cursor in
  let line := selectedText (toPlainText d) cursor in
  let cursor := movePosition EndOfBlock MoveAnchor 1 (toPlainText d) cursor in
  cursor <- cursor_insertText (document ed) (newline :: line) cursor;
  d <- get_document (document ed);
  let cursor := movePosition StartOfBlock MoveAnchor 1 (toPlainText d) cursor in
  let cursor :=
    movePosition Right MoveAnchor (Z.of_nat col) (toPlainText d) cursor in
  modify_editor self (with_textCursor cursor).

End slots.
End CodeEditSlots.

(** ** Visible blocks *)

(** What [_update_visible_blocks] reads of a [QTextBlock]: its number, the
    height of its bounding rectangle (as the integer the code takes of it)
    and whether it is visible. *)
Record QTextBlock : Type := {
  blockNumber : Z;
  block_height : Z;
  isVisible : bool
}.

(** [_update_visible_blocks()]. [blocks] are the valid blocks from
    [firstVisibleBlock()] on, in the order of [block.next()]; [top] is the
    top of the first one in viewport coordinates and [height] is
    [self.height()]. The result is the new content of [_visible_blocks]:
    tuples (top position, line number, block). *)
Fixpoint _update_visible_blocks (blocks : list QTextBlock) (top height : Z)
  : list (Z * Z * QTextBlock) :=
  match blocks with
  | [] => []
  | block :: rest =>
      let bottom := (top + block_height block)%Z in
      let visible := ((0 <=? top) && (bottom <=? height))%Z in
      if visible then
        (if isVisible block then [(top, blockNumber block, block)] else [])
        ++ _update_visible_blocks rest bottom height
      else []
  end.

(** A block at [top] lies within the widget. *)
Definition fits (height top : Z) (block : QTextBlock) : Prop :=
  (0 ≤ top ∧ top + block_height block ≤ height)%Z.

(** The heights of a list of blocks, added up. *)
Definition total_height (blocks : list QTextBlock) : Z :=
  foldr (λ block sum, (block_height block + sum)%Z) 0%Z blocks.

(** ** The context menu *)

Module ContextMenu.

(** [QAction] and [QMenu] objects, by identity. *)
Definition QAction : Type := nat.
Definition QMenu : Type := nat.

(** The attributes of the editor that hold its context menu, and the
    number of [QAction] objects created so far (the next one gets this
    number). Registering an action with the Qt widget and setting its
    shortcut context change Qt's own records, which are not part of the
    model. *)
Record t : Type := {
  _actions : list QAction;
  _menus : list QMenu;
  created : nat
}.

Inductive error : Type := ValueError | AttributeError.

Inductive outcome (A : Type) : Type :=
| Returns (a : A)
| Raises (e : error).
Arguments Returns {A} a.
Arguments Raises {A} e.

(** [l.index(x)]: the first position of [x], if any. *)
Fixpoint index (x : nat) (l : list nat) : option nat :=
  match l with
  | [] => None
  | y :: l' => if decide (y = x) then Some 0%nat else S <$> index x l'
  end.

(** [l.remove(x)]: [l] without the first occurrence of [x], if any. *)
Fixpoint remove (x : nat) (l : list nat) : option (list nat) :=
  match l with
  | [] => None
  | y :: l' => if decide (y = x) then Some l' else (y ::.) <$> remove x l'
  end.

(** [add_action(action)] *)
Definition add_action (action : QAction) (self : t) : t :=
  {| _actions := _actions self ++ [action];
     _menus := _menus self;
     created := created self |}.

(** [insert_action(action, prev_action)]: [index] raises [ValueError] when
    [prev_action] is not in the list; [l.insert(index, action)] puts the
    action at that position. *)
Definition insert_action (action prev_action : QAction) (self : t)
  : outcome t :=
  match index prev_action (_actions self) with
  | Some i =>
      Returns {| _actions := take i (_actions self) ++ action
                             :: drop i (_actions self);
                 _menus := _menus self;
                 created := created self |}
  | None => Raises ValueError
  end.

(** [actions()] *)
Definition actions (self : t) : list QAction := _actions self.

(** [add_separator()]: creates the separator and returns it. *)
Definition add_separator (self : t) : QAction * t :=
  (created self,
   {| _actions := _actions self ++ [created self];
      _menus := _menus self;
      created := S (created self) |}).

(** [remove_action(action)]. The argument can be [None] (an attribute that
    was never set), which is in no list. *)
Definition remove_action (action : option QAction) (self : t) : outcome t :=
  match action with
  | Some a =>
      match remove a (_actions self) with
      | Some l => Returns {| _actions := l;
                             _menus := _menus self;
                             created := created self |}
      | None => Raises ValueError
      end
  | None => Raises ValueError
  end.

(** [add_menu(menu)] *)
Definition add_menu (menu : QMenu) (self : t) : t :=
  {| _actions := _actions self;
     _menus := _menus self ++ [menu];
     created := created self |}.

(** [remove_menu(menu)] *)
Definition remove_menu (menu : QMenu) (self : t) : outcome t :=
  match remove menu (_menus self) with
  | Some l => Returns {| _actions := _actions self;
                         _menus := l;
                         created := created self |}
  | None => Raises ValueError
  end.

(** The entries of a [QMenu]. *)
Inductive entry : Type :=
| Action (action : QAction)
| Separator
| SubMenu (menu : QMenu).

(** [get_context_menu()] *)
Definition get_context_menu (self : t) : list entry :=
  (Action <$> _actions self) ++ [Separator] ++ (SubMenu <$> _menus self).

(** Every action of the menu is an object that exists. *)
Definition well_formed (self : t) : Prop :=
  ∀ a, a ∈ _actions self → (a < created self)%nat.

End ContextMenu.

(** ** [CaseConverterMode] *)

Module CaseConverter.
Import ContextMenu.

(** The attributes [CaseConverterMode.__init__] sets. *)
Record Mode : Type := {
  _actions_created : bool;
  action_to_lower : option QAction;
  action_to_upper : option QAction;
  separator : option QAction
}.

(** [CaseConverterMode()] *)
Definition init : Mode :=
  {| _actions_created := false;
     action_to_lower := None;
     action_to_upper := None;
     separator := None |}.

(** [_create_actions()]: two new actions for the editor. Their texts,
    shortcuts and connections are attributes of the Qt objects. *)
Definition _create_actions (self : Mode) (editor : t) : Mode * t :=
  ({| _actions_created := true;
      action_to_lower := Some (created editor);
      action_to_upper := Some (S (created editor));
      separator := separator self |},
   {| _actions := _actions editor;
      _menus := _menus editor;
      created := S (S (created editor)) |}).

(** [editor.add_action(action)] for an attribute of the mode; on [None] the
    call [action.setShortcutContext] fails. *)
Definition add_attribute (action : option QAction) (editor : t) : outcome t :=
  match action with
  | Some a => Returns (add_action a editor)
  | None => Raises AttributeError
  end.

(** [on_state_changed(state)] *)
Definition on_state_changed (state : bool) (self : Mode) (editor : t)
  : outcome (Mode * t) :=
  if state then
    let '(self, editor) :=
      if negb (_actions_created self) then _create_actions self editor
      else (self, editor) in
    let '(sep, editor) := add_separator editor in
    let self := {| _actions_created := _actions_created self;
                   action_to_lower := action_to_lower self;
                   action_to_upper := action_to_upper self;
                   separator := Some sep |} in
    match add_attribute (action_to_lower self) editor with
    | Returns editor =>
        match add_attribute (action_to_upper self) editor with
        | Returns editor => Returns (self, editor)
        | Raises e => Raises e
        end
    | Raises e => Raises e
    end
  else
    match remove_action (action_to_lower self) editor with
    | Returns editor =>
        match remove_action (action_to_upper self) editor with
        | Returns editor =>
            match remove_action (separator self) editor with
            | Returns editor => Returns (self, editor)
            | Raises e => Raises e
            end
        | Raises e => Raises e
        end
    | Raises e => Raises e
    end.

(** The mode is disabled and consistent with the editor: its actions, if
    created, exist, are two objects and are not in the menu. *)
Definition disabled_on (self : Mode) (editor : t) : Prop :=
  if _actions_created self then
    ∃ lower upper,
      action_to_lower self = Some lower ∧ action_to_upper self = Some upper ∧
      lower ≠ upper ∧
      (lower < created editor)%nat ∧ (upper < created editor)%nat ∧
      (lower ∉ _actions editor) ∧ (upper ∉ _actions editor)
  else True.

End CaseConverter.

(** ** Observing the editors of a store *)

(** What [obs] sees of each editor is the same in [w'] as in [w]. *)
Definition untouched {T : Type} (obs : CodeEdit → T) (w w' : world) : Prop :=
  ∀ e, obs <$> editors w' !! e = obs <$> editors w !! e.

(** The widget shows its attributes: the font and the palette are those
    [_reset_stylesheet] computes from them. *)
Definition styled (ed : CodeEdit) : Prop :=
  font ed = QtGui_QFont (_font_family ed) (_font_size ed + _zoom_level ed) ∧
  palette ed = {| Base := _background ed;
                  Text := _foreground ed;
                  Highlight := _sel_background ed;
                  HighlightedText := _sel_foreground ed |}.

Definition styled_at (w : world) (e : editor_id) : Prop :=
  ∃ ed, editors w !! e = Some ed ∧ styled ed.

(** From [w] to [w'] the attribute [A] is settled on the value [v], the
    observers that are independent of the change see no difference, and no
    document has another text. *)
Definition evolves {V : Type} (A : CodeEdit → V) (v : V)
    (independent : ∀ T : Type, (CodeEdit → T) → Prop) (w w' : world) : Prop :=
  settled A v w w' ∧
  (∀ (T : Type) (obs : CodeEdit → T), independent T obs → untouched obs w w') ∧
  (∀ d, toPlainText <$> documents w' !! d = toPlainText <$> documents w !! d).

(** Every editor is as it was or shows its attributes. *)
Definition restyles (w w' : world) : Prop :=
  ∀ e, editors w' !! e = editors w !! e ∨ styled_at w' e.

(** Independence of an observer from an assignment, and from the font and
    the palette of the widget. *)
Definition ignores {V T : Type} (assign : V → CodeEdit → CodeEdit)
    (obs : CodeEdit → T) : Prop :=
  ∀ v ed, obs (assign v ed) = obs ed.

Definition ignores_style {T : Type} (obs : CodeEdit → T) : Prop :=
  ∀ fnt pal ed, obs (with_palette pal (with_font fnt ed)) = obs ed.

(** The configuration of [a] is that of [b]: the thirteen properties that
    are kept in step, and the zoom level. *)
Definition same_configuration (a b : CodeEdit) : Prop :=
  _use_spaces_instead_of_tabs a = _use_spaces_instead_of_tabs b ∧
  _tab_length a = _tab_length b ∧
  _min_indent_column a = _min_indent_column b ∧
  _save_on_focus_out a = _save_on_focus_out b ∧
  _show_whitespaces a = _show_whitespaces b ∧
  _font_family a = _font_family b ∧
  _font_size a = _font_size b ∧
  _zoom_level a = _zoom_level b ∧
  _background a = _background b ∧
  _foreground a = _foreground b ∧
  _whitespaces_foreground a = _whitespaces_foreground b ∧
  _sel_background a = _sel_background b ∧
  _sel_foreground a = _sel_foreground b ∧
  _word_separators a = _word_separators b.

(** The setter copies a value into the attribute [A] of an editor of a
    well-formed store: it returns, the attribute holds the normalised value,
    and the store evolves as [evolves] says. *)
Definition copies {V : Type} (setter : editor_id → V → M unit)
    (normalise : V → V) (A : CodeEdit → V)
    (independent : ∀ T : Type, (CodeEdit → T) → Prop)
    (rank : editor_id → nat) (bound : nat) : Prop :=
  ∀ w e ed v,
    clone_tree rank w → editors w !! e = Some ed → (rank e < bound)%nat →
    ∃ w', setter e v w = Ok (tt, w') ∧
          evolves A (normalise v) independent w w' ∧
          holds A (normalise v) w' e.

(** An editor on the text [abcdef] with [bcd] selected. *)
Definition selecting_editor : world :=
  {| editors :=
       {[ 0%nat := with_textCursor {| anchor := 1; position := 4 |}
                     (new_CodeEdit 0 0) ]};
     documents := {[ 0%nat := new_QTextDocument "abcdef" ]};
     QToolTip := None |}.

(** Three blocks of height 10, the second one folded. *)
Definition three_blocks : list QTextBlock :=
  [ {| blockNumber := 0; block_height := 10; isVisible := true |};
    {| blockNumber := 1; block_height := 10; isVisible := false |};
    {| blockNumber := 2; block_height := 10; isVisible := true |} ].

(** A context menu with two actions. *)
Definition two_actions : ContextMenu.t :=
  {| ContextMenu._actions := [0%nat; 1%nat];
     ContextMenu._menus := [];
     ContextMenu.created := 2 |}.

(** ** Key presses *)

Module CodeEditEvents.

Definition Key_Tab : Z := 0x01000001.
Definition Key_Backtab : Z := 0x01000002.
Definition ShiftModifier : Z := 0x02000000.

(** [event.setAccepted(state)] and [event.ignore()] *)
Definition setAccepted (state : bool) (event : QKeyEvent) : QKeyEvent :=
  {| key := key event; modifiers := modifiers event; isAccepted := state |}.

Definition ignore (event : QKeyEvent) : QKeyEvent := setAccepted false event.

Section keyPressEvent.
Context `{WordBoundaries}.

(** The slots connected to the signals [key_pressed], [post_key_pressed],
    [indent_requested] and [unindent_requested] of the editor, and the
    handler of the base class, [QPlainTextEdit.keyPressEvent]. A slot gets
    the event object and can accept or ignore it. *)
Variables key_pressed post_key_pressed : QKeyEvent → M QKeyEvent.
Variables indent_requested unindent_requested : M unit.
Variable QPlainTextEdit_keyPressEvent : QKeyEvent → M QKeyEvent.

(** [indent()] and [un_indent()] *)
Definition indent : M unit := indent_requested.
Definition un_indent : M unit := unindent_requested.

(** [keyPressEvent(event)] *)
Definition keyPressEvent (self : editor_id) (event : QKeyEvent)
  : M QKeyEvent :=
  let initial_state := isAccepted event in
  let event := ignore event in
  event <- key_pressed event;
  let state := isAccepted event in
  event <-
    (if negb (isAccepted event) then
       event <-
         (if decide (key event = Key_Tab) then
            indent;; ret (accept event)
          else if decide (key event = Key_Backtab) then
            un_indent;; ret (accept event)
          else if decide (key event = Key_Home) then
            handled <- _do_home_key self (Some event)
                         (bool_decide
                            (Z.land (modifiers event) ShiftModifier ≠ 0%Z));
            ret (default event handled)
          else ret event);
       if negb (isAccepted event) then
         QPlainTextEdit_keyPressEvent (setAccepted initial_state event)
       else ret event
     else ret event);
  let new_state := isAccepted event in
  event <- post_key_pressed (setAccepted state event);
  ret (setAccepted new_state event).

End keyPressEvent.
End CodeEditEvents.

(** * Properties *)

(** ** The plugin registries *)

Lemma modes_remove_absent (modes : gmap string ModesManager.Mode) (klass : string) :
  modes !! klass = None →
  ModesManager.remove klass modes = Raise (KeyError klass).
Proof.
  intros Habsent. unfold ModesManager.remove, ModesManager.get.
  by rewrite Habsent.
Qed.

Lemma modes_remove_twice (modes modes' : gmap string ModesManager.Mode) klass mode :
  ModesManager.remove klass modes = Ok (mode, modes') →
  ModesManager.remove klass modes' = Raise (KeyError klass).
Proof.
  unfold ModesManager.remove at 1, ModesManager.get.
  destruct (modes !! klass); [|done].
  intros [= _ <-]. apply modes_remove_absent, lookup_delete_eq.
Qed.

Lemma panels_remove_absent (panels : gmap string PanelsManager.Panel) (klass : string) :
  panels !! klass = None →
  PanelsManager.remove klass panels = Raise (KeyError klass).
Proof.
  intros Habsent. unfold PanelsManager.remove, PanelsManager.get.
  by rewrite Habsent.
Qed.

Lemma panels_remove_twice (panels panels' : gmap string PanelsManager.Panel) klass panel :
  PanelsManager.remove klass panels = Ok (panel, panels') →
  PanelsManager.remove klass panels' = Raise (KeyError klass).
Proof.
  unfold PanelsManager.remove at 1, PanelsManager.get.
  destruct (panels !! klass); [|done].
  intros [= _ <-]. apply panels_remove_absent, lookup_delete_eq.
Qed.

(** C1. Removing a mode (a panel) class that is not installed raises
    [KeyError], and so does a second removal of a class right after a
    successful one. *)
Theorem remove_not_installed_raises_KeyError
    (modes : gmap string ModesManager.Mode) (panels : gmap string PanelsManager.Panel) (klass : string) :
  (modes !! klass = None →
   ModesManager.remove klass modes = Raise (KeyError klass)) ∧
  (∀ mode modes',
     ModesManager.remove klass modes = Ok (mode, modes') →
     ModesManager.remove klass modes' = Raise (KeyError klass)) ∧
  (panels !! klass = None →
   PanelsManager.remove klass panels = Raise (KeyError klass)) ∧
  (∀ panel panels',
     PanelsManager.remove klass panels = Ok (panel, panels') →
     PanelsManager.remove klass panels' = Raise (KeyError klass)).
Proof.
  split_and!.
  - apply modes_remove_absent.
  - intros mode modes'. apply modes_remove_twice.
  - apply panels_remove_absent.
  - intros panel panels'. apply panels_remove_twice.
Qed.

Lemma remove_not_installed_raises_KeyError_witness :
  ModesManager.remove "CaseConverterMode" ∅
    = Raise (KeyError "CaseConverterMode") ∧
  ModesManager.remove "CaseConverterMode" (delete "CaseConverterMode"
      (ModesManager.append CaseConverterMode ∅))
    = Raise (KeyError "CaseConverterMode") ∧
  PanelsManager.remove "CaseConverterMode"
      (PanelsManager.append LineNumberPanel LEFT ∅)
    = Raise (KeyError "CaseConverterMode") ∧
  PanelsManager.remove "LineNumberPanel" (delete "LineNumberPanel"
      (PanelsManager.append LineNumberPanel LEFT ∅))
    = Raise (KeyError "LineNumberPanel").
Proof.
  split_and!.
  - apply (remove_not_installed_raises_KeyError ∅ ∅ "CaseConverterMode").
    reflexivity.
  - apply (remove_not_installed_raises_KeyError
             (ModesManager.append CaseConverterMode ∅) ∅ "CaseConverterMode")
      with (mode := CaseConverterMode).
    reflexivity.
  - apply (remove_not_installed_raises_KeyError ∅
             (PanelsManager.append LineNumberPanel LEFT ∅) "CaseConverterMode").
    reflexivity.
  - apply (remove_not_installed_raises_KeyError ∅
             (PanelsManager.append LineNumberPanel LEFT ∅) "LineNumberPanel")
      with (panel := PanelsManager.with_position LEFT LineNumberPanel).
    reflexivity.
Defined.

(** C5. From an empty registry, [append(m)] makes [get(type(m))] return [m]
    itself and the length 1; [remove(type(m))] then returns [m] and leaves the
    registry empty; [clear()] leaves a registry of modes or panels of
    length 0. *)
Theorem registry_install_retrieve_remove (mode : ModesManager.Mode) :
  let modes := ModesManager.append mode ∅ in
  ModesManager.get (ModesManager.mode_class mode) modes = Ok mode ∧
  ModesManager.len modes = 1%nat ∧
  ModesManager.remove (ModesManager.mode_class mode) modes = Ok (mode, ∅) ∧
  ModesManager.len (∅ : gmap string ModesManager.Mode) = 0%nat ∧
  (∀ installed : gmap string ModesManager.Mode,
     ModesManager.len (ModesManager.clear installed) = 0%nat) ∧
  (∀ installed : gmap string PanelsManager.Panel,
     PanelsManager.len (PanelsManager.clear installed) = 0%nat).
Proof.
  cbv zeta.
  unfold ModesManager.remove, ModesManager.get, ModesManager.append,
    ModesManager.len, PanelsManager.len, ModesManager.clear,
    PanelsManager.clear.
  rewrite lookup_insert_eq, delete_insert_eq, delete_empty, insert_empty,
    map_size_singleton.
  by rewrite !map_size_empty.
Qed.

(** C7. A panel installed with [append(panel, position)] is retrieved by
    [get] as that panel with its [position] attribute equal to the zone
    given at installation. *)
Theorem installed_panel_keeps_its_zone
    (panels : gmap string PanelsManager.Panel) (panel : PanelsManager.Panel)
    (zone : Position) :
  ∃ retrieved,
    PanelsManager.get (PanelsManager.panel_class panel)
      (PanelsManager.append panel zone panels) = Ok retrieved ∧
    PanelsManager.position retrieved = zone ∧
    PanelsManager.panel_ident retrieved = PanelsManager.panel_ident panel ∧
    PanelsManager.panel_class retrieved = PanelsManager.panel_class panel ∧
    ∀ other zone',
      PanelsManager.panel_class other ≠ PanelsManager.panel_class panel →
      PanelsManager.get (PanelsManager.panel_class panel)
        (PanelsManager.append other zone'
           (PanelsManager.append panel zone panels)) = Ok retrieved.
Proof.
  exists (PanelsManager.with_position zone panel).
  unfold PanelsManager.get, PanelsManager.append.
  rewrite lookup_insert_eq. split_and!; [done..|].
  intros other zone' Hother.
  by rewrite lookup_insert_ne, lookup_insert_eq.
Qed.

Lemma installed_panel_keeps_its_zone_witness :
  ∃ retrieved,
    PanelsManager.get "LineNumberPanel"
      (PanelsManager.append MarkerPanel RIGHT
         (PanelsManager.append LineNumberPanel LEFT ∅)) = Ok retrieved ∧
    PanelsManager.position retrieved = LEFT.
Proof.
  destruct (installed_panel_keeps_its_zone ∅ LineNumberPanel LEFT)
    as (retrieved & _ & Hzone & _ & _ & Hlater).
  exists retrieved. split; [|exact Hzone].
  apply (Hlater MarkerPanel RIGHT). discriminate.
Defined.

(** ** Running the store monad *)

Lemma bind_Ok {A B : Type} (m : M A) (k : A → M B) w a w' :
  m w = Ok (a, w') → bind m k w = k a w'.
Proof. unfold bind. by intros ->. Qed.

Lemma bind_bind {A B C : Type} (m : M A) (f : A → M B) (g : B → M C) w :
  bind (bind m f) g w = bind m (λ a, bind (f a) g) w.
Proof. unfold bind. by destruct (m w) as [[a w']|]. Qed.

Lemma ret_bind {A B : Type} (a : A) (k : A → M B) w :
  bind (ret a) k w = k a w.
Proof. reflexivity. Qed.

Lemma get_editor_Ok w self ed :
  editors w !! self = Some ed → get_editor self w = Ok (ed, w).
Proof. unfold get_editor. by intros ->. Qed.

Lemma attr_Ok {V : Type} w self ed (attribute : CodeEdit → V) :
  editors w !! self = Some ed → attr self attribute w = Ok (attribute ed, w).
Proof. intros Hed. unfold attr. by rewrite (bind_Ok _ _ _ _ _ (get_editor_Ok _ _ _ Hed)). Qed.

Lemma get_document_Ok w doc d :
  documents w !! doc = Some d → get_document doc w = Ok (d, w).
Proof. unfold get_document. by intros ->. Qed.

Lemma modify_editor_Ok w self ed f :
  editors w !! self = Some ed →
  modify_editor self f w
  = Ok (tt, {| editors := <[self := f ed]> (editors w);
               documents := documents w;
               QToolTip := QToolTip w |}).
Proof. unfold modify_editor. by intros ->. Qed.

Lemma modify_document_Ok w doc d f :
  documents w !! doc = Some d →
  modify_document doc f w
  = Ok (tt, {| editors := editors w;
               documents := <[doc := f d]> (documents w);
               QToolTip := QToolTip w |}).
Proof. unfold modify_document. by intros ->. Qed.

(** One step of execution: the head of a [bind] chain is a primitive whose
    outcome is known from the hypotheses. *)
Ltac step :=
  first
    [ rewrite bind_bind
    | rewrite ret_bind
    | erewrite bind_Ok; [|first
        [ apply attr_Ok; simpl; first [eassumption | apply lookup_insert_eq]
        | apply get_editor_Ok; simpl; first [eassumption | apply lookup_insert_eq]
        | apply modify_editor_Ok; simpl; first [eassumption | apply lookup_insert_eq]
        | apply get_document_Ok; simpl; first [eassumption | apply lookup_insert_eq]
        | apply modify_document_Ok; simpl; first [eassumption | apply lookup_insert_eq]
        | reflexivity ]]
    | erewrite modify_editor_Ok; [|simpl; first [eassumption | apply lookup_insert_eq]]
    | erewrite modify_document_Ok; [|simpl; first [eassumption | apply lookup_insert_eq]] ].

(** ** Tooltips *)

(** C10. [show_tooltip] shows the first 1024 characters of the text at most,
    and shows nothing when it is given a sender decoration that is not among
    the editor's decorations. *)
Theorem show_tooltip_truncates_and_checks_sender
    (w : world) (self : editor_id) (ed : CodeEdit) (pos : QPoint)
    (tooltip : list ascii) (_sender_deco : option deco_id) :
  editors w !! self = Some ed →
  ∃ w', show_tooltip self pos tooltip _sender_deco w = Ok (tt, w') ∧
    (∀ deco, _sender_deco = Some deco → deco ∉ decorations ed → w' = w) ∧
    (_sender_deco = None ∨ (∃ deco, _sender_deco = Some deco ∧
                                    deco ∈ decorations ed) →
     QToolTip w' = Some (pos, take 1024 tooltip, self)) ∧
    (w' = w ∨
     ∃ shown, QToolTip w' = Some (pos, shown, self) ∧
       shown = take 1024 tooltip ∧
       (length shown ≤ 1024)%nat ∧
       shown `prefix_of` tooltip).
Proof.
  intros Hed. unfold show_tooltip. step.
  assert (Hlen : (length (take 1024 tooltip) ≤ 1024)%nat)
    by (rewrite length_take; lia).
  assert (Hpre : take 1024 tooltip `prefix_of` tooltip) by apply prefix_take.
  destruct _sender_deco as [deco|]; [case_bool_decide as Hin|].
  - exists w. split_and!; [done|done| |by left].
    intros [Hnone|(deco' & Hsome & Hin')]; [done|]. by injection Hsome as <-.
  - eexists. split; [reflexivity|]. split_and!; [|done|].
    { intros deco' Hsome Hnotin. by injection Hsome as <-. }
    right. exists (take 1024 tooltip). by split_and!.
  - eexists. split; [reflexivity|]. split_and!; [done|done|].
    right. exists (take 1024 tooltip). by split_and!.
Qed.

Lemma show_tooltip_truncates_and_checks_sender_witness :
  ∃ w',
    show_tooltip 0%nat {| px := 3; py := 4 |} long_tooltip (Some 7%nat)
      (single_editor "text" 0) = Ok (tt, w') ∧
    w' = single_editor "text" 0.
Proof.
  destruct (show_tooltip_truncates_and_checks_sender
              (single_editor "text" 0) 0%nat (new_CodeEdit 0 0)
              {| px := 3; py := 4 |} long_tooltip (Some 7%nat))
    as (w' & Hrun & Hhidden & _).
  - reflexivity.
  - exists w'. split; [exact Hrun|].
    apply (Hhidden 7%nat); [reflexivity|]. simpl. apply not_elem_of_nil.
Defined.

(** ** Zoom *)

(** C8. After [zoom_out(decrement)] the font size in effect,
    [font_size + zoom_level], is at least 1: the zoom level is set to
    [-font_size + 1] when the subtraction would leave a sum that is not
    positive, and the font of the widget has that many points.
    [zoom_in(increment)] adds the increment whatever the sum becomes; when
    the sum is not positive, the font of the widget has the default size of
    the system. *)
Theorem zoom_out_keeps_font_size_positive
    (w : world) (self : editor_id) (ed : CodeEdit) (decrement : Z) :
  editors w !! self = Some ed →
  (∃ w' ed',
     zoom_out self decrement w = Ok (tt, w') ∧
     editors w' !! self = Some ed' ∧
     (1 ≤ _font_size ed' + _zoom_level ed')%Z ∧
     _font_size ed' = _font_size ed ∧
     _zoom_level ed' =
       (if decide (_font_size ed + (_zoom_level ed - decrement) ≤ 0)%Z
        then - _font_size ed + 1
        else _zoom_level ed - decrement)%Z ∧
     pointSize (font ed') = Points (_font_size ed' + _zoom_level ed')) ∧
  (∀ increment, ∃ w' ed',
     zoom_in self increment w = Ok (tt, w') ∧
     editors w' !! self = Some ed' ∧
     _font_size ed' = _font_size ed ∧
     _zoom_level ed' = (_zoom_level ed + increment)%Z ∧
     pointSize (font ed')
     = if decide (0 < _font_size ed + _zoom_level ed + increment)%Z
       then Points (_font_size ed + _zoom_level ed + increment)
       else DefaultSize).
Proof.
  intros Hed. split.
  - unfold zoom_out, set_zoom_level, _reset_stylesheet.
    do 4 step. destruct ed; simpl.
    case_decide.
    + do 4 step. eexists _, _.
      split; [reflexivity|]. simpl. rewrite lookup_insert_eq.
      split; [reflexivity|]. simpl. split_and!; try done; try lia.
      rewrite decide_True by lia. f_equal.
    + do 2 step. eexists _, _.
      split; [reflexivity|]. simpl. rewrite lookup_insert_eq.
      split; [reflexivity|]. simpl. split_and!; try done; try lia.
      rewrite decide_True by lia. f_equal.
  - intros increment. unfold zoom_in, set_zoom_level, _reset_stylesheet.
    do 3 step. eexists _, _.
    split; [reflexivity|]. simpl. rewrite lookup_insert_eq.
    split; [reflexivity|]. destruct ed; simpl. split_and!; try done.
    repeat case_decide; try lia; f_equal; lia.
Qed.

Lemma zoom_out_keeps_font_size_positive_witness :
  ∃ w' ed',
    zoom_out 0%nat 25 (single_editor "text" 0) = Ok (tt, w') ∧
    editors w' !! 0%nat = Some ed' ∧
    (1 ≤ _font_size ed' + _zoom_level ed')%Z.
Proof.
  destruct (zoom_out_keeps_font_size_positive
              (single_editor "text" 0) 0%nat (new_CodeEdit 0 0) 25)
    as [(w' & ed' & Hrun & Hed' & Hsize & _) _].
  - reflexivity.
  - exists w', ed'. by split_and!.
Defined.

(** [zoom_in] with a negative increment can leave a font size that is not
    positive; the widget then has a font of the default size. *)
Example zoom_in_is_not_clamped :
  ∃ w' ed',
    zoom_in 0%nat (-20) (single_editor "text" 0) = Ok (tt, w') ∧
    editors w' !! 0%nat = Some ed' ∧
    (_font_size ed' + _zoom_level ed')%Z = (-10)%Z ∧
    pointSize (font ed') = DefaultSize.
Proof. eexists _, _. split_and!; reflexivity. Qed.

(** ** The shape of the store *)

Lemma same_shape_refl w : same_shape w w.
Proof. by split_and!. Qed.

Lemma same_shape_trans w1 w2 w3 :
  same_shape w1 w2 → same_shape w2 w3 → same_shape w1 w3.
Proof.
  intros (Hc1 & Hd1 & Hs1) (Hc2 & Hd2 & Hs2). split_and!; intros i.
  - by rewrite Hc2.
  - by rewrite Hd2.
  - by rewrite Hs2.
Qed.

Lemma same_shape_is_Some w w' e :
  same_shape w w' → is_Some (editors w !! e) → is_Some (editors w' !! e).
Proof.
  intros (Hc & _ & _) [ed Hed]. specialize (Hc e). rewrite Hed in Hc.
  destruct (editors w' !! e); [by eexists|done].
Qed.

Lemma same_shape_lookup w w' e ed :
  same_shape w w' → editors w !! e = Some ed →
  ∃ ed', editors w' !! e = Some ed' ∧ clones ed' = clones ed
         ∧ document ed' = document ed.
Proof.
  intros (Hc & Hd & _) Hed. specialize (Hc e). specialize (Hd e).
  rewrite Hed in Hc, Hd. destruct (editors w' !! e) as [ed'|]; [|done].
  exists ed'. simpl in *. split_and!; congruence.
Qed.

Lemma same_shape_lookup_inv w w' e ed' :
  same_shape w w' → editors w' !! e = Some ed' →
  ∃ ed, editors w !! e = Some ed ∧ clones ed' = clones ed
        ∧ document ed' = document ed.
Proof.
  intros (Hc & Hd & _) Hed. specialize (Hc e). specialize (Hd e).
  rewrite Hed in Hc, Hd. destruct (editors w !! e) as [ed|]; [|done].
  exists ed. simpl in *. split_and!; congruence.
Qed.

Lemma clone_tree_same_shape rank w w' :
  same_shape w w' → clone_tree rank w → clone_tree rank w'.
Proof.
  intros Hshape Htree e ed' Hed'.
  destruct (same_shape_lookup_inv _ _ _ _ Hshape Hed') as (ed & Hed & Hcl & Hdoc).
  destruct (Htree e ed Hed) as [Hdocs Hclones].
  rewrite Hcl, Hdoc. split.
  - by apply Hshape.
  - intros c Hc. destruct (Hclones c Hc) as [Hsome Hrank].
    split; [by eapply same_shape_is_Some|done].
Qed.

(** Changing an editor without touching its clones or its document keeps
    the shape. *)
Lemma modify_editor_shape w self ed f :
  editors w !! self = Some ed →
  clones (f ed) = clones ed → document (f ed) = document ed →
  same_shape w {| editors := <[self := f ed]> (editors w);
                  documents := documents w;
                  QToolTip := QToolTip w |}.
Proof.
  intros Hed Hcl Hdoc. split_and!; simpl; [| |done].
  - intros e. destruct (decide (self = e)) as [<-|].
    + by rewrite lookup_insert_eq, Hed; simpl; rewrite Hcl.
    + by rewrite lookup_insert_ne.
  - intros e. destruct (decide (self = e)) as [<-|].
    + by rewrite lookup_insert_eq, Hed; simpl; rewrite Hdoc.
    + by rewrite lookup_insert_ne.
Qed.

Lemma modify_document_shape w doc d f :
  documents w !! doc = Some d →
  same_shape w {| editors := editors w;
                  documents := <[doc := f d]> (documents w);
                  QToolTip := QToolTip w |}.
Proof.
  intros Hd. split_and!; simpl; [done|done|].
  intros d'. destruct (decide (doc = d')) as [<-|].
  - rewrite lookup_insert_eq, Hd. by split; eexists.
  - by rewrite lookup_insert_ne.
Qed.

(** ** Setters that propagate to the clones *)

Section synced_setter_correct.
Context {V : Type}.
Variable normalise : V → V.
Variable assign : V → CodeEdit → CodeEdit.
Variable refresh : editor_id → V → M unit.
Variable attribute : CodeEdit → V.

Hypothesis normalise_idem : ∀ v, normalise (normalise v) = normalise v.
Hypothesis attribute_assign : ∀ v ed, attribute (assign v ed) = v.
Hypothesis clones_assign : ∀ v ed, clones (assign v ed) = clones ed.
Hypothesis document_assign : ∀ v ed, document (assign v ed) = document ed.
Hypothesis refresh_ok : refresh_keeps attribute refresh.

Lemma settled_refl v w : settled attribute v w w.
Proof. split; [apply same_shape_refl|by left]. Qed.

Lemma settled_trans v w1 w2 w3 :
  settled attribute v w1 w2 → settled attribute v w2 w3 →
  settled attribute v w1 w3.
Proof.
  intros [Hs1 Hv1] [Hs2 Hv2]. split; [by eapply same_shape_trans|].
  intros e. destruct (Hv2 e) as [Heq|Hv]; [|by right].
  destruct (Hv1 e) as [Heq'|Hv]; [left; congruence|right].
  unfold holds in *. congruence.
Qed.

Lemma settled_holds v w w' e :
  settled attribute v w w' → holds attribute v w e → holds attribute v w' e.
Proof.
  intros [_ Hv] Hholds. destruct (Hv e) as [Heq|]; [|done].
  unfold holds. by rewrite Heq.
Qed.

Lemma assign_settled v w self ed :
  editors w !! self = Some ed →
  let w' := {| editors := <[self := assign v ed]> (editors w);
               documents := documents w;
               QToolTip := QToolTip w |} in
  settled attribute v w w' ∧ holds attribute v w' self.
Proof.
  intros Hed w'. split; [split|].
  - by apply modify_editor_shape.
  - intros e. subst w'; unfold holds; simpl.
    destruct (decide (self = e)) as [<-|].
    + right. by rewrite lookup_insert_eq; simpl; rewrite attribute_assign.
    + left. by rewrite lookup_insert_ne.
  - subst w'; unfold holds; simpl.
    by rewrite lookup_insert_eq; simpl; rewrite attribute_assign.
Qed.

(** The loop [for c in clones: c.prop = value], given that the setter is
    correct at the depth of the calls. *)
Lemma for_each_clone_correct (setter : editor_id → V → M unit) rank bound v :
  (∀ w c, clone_tree rank w → is_Some (editors w !! c) →
          (rank c < bound)%nat →
          ∃ w', setter c v w = Ok (tt, w') ∧ settled attribute v w w'
                ∧ holds attribute v w' c) →
  ∀ (l : list editor_id) w,
    clone_tree rank w →
    (∀ c, c ∈ l → is_Some (editors w !! c) ∧ (rank c < bound)%nat) →
    ∃ w', for_each l (λ c, setter c v) w = Ok (tt, w') ∧
          settled attribute v w w' ∧
          ∀ c, c ∈ l → holds attribute v w' c.
Proof.
  intros Hsetter l. induction l as [|c l IH]; intros w Htree Hl.
  - exists w. split_and!; [done|apply settled_refl|].
    intros c Hc. by apply elem_of_nil in Hc.
  - destruct (Hl c) as [Hc Hrank]; [by left|].
    destruct (Hsetter w c Htree Hc Hrank) as (w1 & Hrun1 & Hset1 & Hc1).
    destruct (IH w1) as (w2 & Hrun2 & Hset2 & Hl2).
    { eapply clone_tree_same_shape; [apply Hset1|done]. }
    { intros c' Hc'. destruct (Hl c') as [Hsome Hlt]; [by right|].
      split; [|done]. eapply same_shape_is_Some; [apply Hset1|done]. }
    exists w2. split_and!.
    + simpl. by rewrite (bind_Ok _ _ _ _ _ Hrun1).
    + by eapply settled_trans.
    + intros c' [->|Hc']%elem_of_cons; [|by apply Hl2].
      by eapply settled_holds.
Qed.

(** On a tree of clones, with a recursion limit above the rank of the
    editor, the setter returns; the editor and each of its clones then have
    the (normalised) value, and no other attribute value was introduced. *)
Lemma synced_setter_correct rank depth :
  ∀ w self value,
    clone_tree rank w → is_Some (editors w !! self) →
    (rank self < depth)%nat →
    ∃ w', synced_setter normalise assign refresh depth self value w
            = Ok (tt, w') ∧
          settled attribute (normalise value) w w' ∧
          holds attribute (normalise value) w' self ∧
          ∀ ed c, editors w !! self = Some ed → c ∈ clones ed →
                  holds attribute (normalise value) w' c.
Proof.
  induction depth as [|depth IH]; intros w self value Htree [ed Hed] Hrank;
    [lia|].
  set (v := normalise value).
  destruct (assign_settled v w self ed Hed) as [Hset1 Hself1].
  set (w1 := {| editors := <[self := assign v ed]> (editors w);
                documents := documents w;
                QToolTip := QToolTip w |}) in *.
  assert (Htree1 : clone_tree rank w1)
    by (eapply clone_tree_same_shape; [apply Hset1|done]).
  destruct (refresh_ok rank w1 self v Htree1) as (w2 & Hrun2 & Hshape2 & Hattr2).
  { subst w1; simpl. rewrite lookup_insert_eq. by eexists. }
  assert (Hset2 : settled attribute v w1 w2) by (split; [done|by left]).
  assert (Htree2 : clone_tree rank w2)
    by (eapply clone_tree_same_shape; [apply Hshape2|done]).
  destruct (same_shape_lookup w w2 self ed) as (ed2 & Hed2 & Hcl2 & _);
    [eapply same_shape_trans; [apply Hset1|apply Hshape2]|done|].
  destruct (for_each_clone_correct
              (synced_setter normalise assign refresh depth)
              rank depth v) with (l := clones ed2) (w := w2)
    as (w3 & Hrun3 & Hset3 & Hclones3).
  { intros w' c Htree' Hc Hlt.
    destruct (IH w' c v Htree' Hc Hlt) as (w'' & Hrun & Hset & Hc' & _).
    subst v. rewrite normalise_idem in Hset, Hc'. eauto. }
  { done. }
  { intros c Hc. destruct (Htree2 self ed2 Hed2) as [_ Hcl].
    destruct (Hcl c Hc). split; [done|lia]. }
  exists w3. split_and!.
  - simpl. fold v.
    rewrite (bind_Ok _ _ _ _ _ (modify_editor_Ok _ _ _ _ Hed)). fold w1.
    rewrite (bind_Ok _ _ _ _ _ Hrun2).
    by rewrite (bind_Ok _ _ _ _ _ (get_editor_Ok _ _ _ Hed2)).
  - eapply settled_trans; [|apply Hset3].
    eapply settled_trans; [apply Hset1|apply Hset2].
  - eapply settled_holds; [apply Hset3|].
    eapply settled_holds; [apply Hset2|done].
  - intros ed' c Hed' Hc. apply Hclones3. rewrite Hcl2.
    by replace ed with ed' by congruence.
Qed.

End synced_setter_correct.

Lemma clone_tree_check_correct rank w :
  clone_tree_check rank w → clone_tree rank w.
Proof.
  intros Hcheck e ed Hed. destruct (Hcheck e ed Hed) as [Hdoc Hclones].
  split; [done|]. by apply Forall_forall.
Qed.

Lemma no_refresh_keeps {V : Type} (attribute : CodeEdit → V) :
  refresh_keeps attribute no_refresh.
Proof. intros rank w self v _ _. exists w. by split_and!; [|apply same_shape_refl|]. Qed.

Lemma reset_stylesheet_keeps {V : Type} (attribute : CodeEdit → V) :
  (∀ fnt pal ed, attribute (with_palette pal (with_font fnt ed)) = attribute ed) →
  refresh_keeps attribute (λ self _, _reset_stylesheet self).
Proof.
  intros Hattr rank w self v _ [ed Hed]. unfold _reset_stylesheet.
  match goal with |- context [modify_editor self ?f] => set (restyle := f) end.
  eexists. split; [by apply modify_editor_Ok|]. split.
  - apply (modify_editor_shape w self ed restyle); [done|by destruct ed..].
  - intros e. simpl. destruct (decide (self = e)) as [<-|].
    + by rewrite lookup_insert_eq, Hed; simpl; unfold restyle; rewrite Hattr.
    + by rewrite lookup_insert_ne.
Qed.

Lemma set_whitespaces_flags_keeps (attribute : CodeEdit → bool) :
  refresh_keeps attribute _set_whitespaces_flags.
Proof.
  intros rank w self v Htree [ed Hed]. unfold _set_whitespaces_flags.
  destruct (Htree self ed Hed) as [[d Hd] _].
  eexists. split; [|split].
  - rewrite (bind_Ok _ _ _ _ _ (get_editor_Ok _ _ _ Hed)).
    by apply modify_document_Ok.
  - by apply modify_document_shape.
  - done.
Qed.

Lemma synced_setter_syncs {V : Type} (normalise : V → V) assign refresh
    (attribute : CodeEdit → V) rank w e ed c depth v :
  (∀ v, normalise (normalise v) = normalise v) →
  (∀ v ed, attribute (assign v ed) = v) →
  (∀ v ed, clones (assign v ed) = clones ed) →
  (∀ v ed, document (assign v ed) = document ed) →
  refresh_keeps attribute refresh →
  clone_tree rank w → editors w !! e = Some ed → c ∈ clones ed →
  (rank e < depth)%nat →
  syncs (synced_setter normalise assign refresh depth e v) attribute
    (normalise v) w e c.
Proof.
  intros Hidem Hattr Hcl Hdoc Hrefresh Htree Hed Hc Hdepth.
  destruct (synced_setter_correct normalise assign refresh attribute
              Hidem Hattr Hcl Hdoc Hrefresh rank depth w e v)
    as (w' & Hrun & _ & He & Hclones); [done|by eexists|done|].
  exists w'. split_and!; [done|done|by eapply Hclones].
Qed.

Lemma set_word_separators_syncs rank w e ed c v :
  clone_tree rank w → editors w !! e = Some ed → c ∈ clones ed →
  syncs (set_word_separators e v) _word_separators v w e c.
Proof.
  intros Htree Hed Hc.
  assert (Hattr : ∀ v ed, _word_separators (with_word_separators v ed) = v)
    by (by intros ? []).
  assert (Hcl : ∀ v ed, clones (with_word_separators v ed) = clones ed)
    by (by intros ? []).
  assert (Hdoc : ∀ v ed, document (with_word_separators v ed) = document ed)
    by (by intros ? []).
  destruct (assign_settled with_word_separators _word_separators
              Hattr Hcl Hdoc v w e ed Hed) as [Hset1 He1].
  set (w1 := {| editors := <[e := with_word_separators v ed]> (editors w);
                documents := documents w;
                QToolTip := QToolTip w |}) in *.
  assert (Htree1 : clone_tree rank w1)
    by (eapply clone_tree_same_shape; [apply Hset1|done]).
  assert (Hed1 : editors w1 !! e = Some (with_word_separators v ed))
    by (subst w1; simpl; apply lookup_insert_eq).
  destruct (for_each_clone_correct _word_separators
              (λ c v, modify_editor c (with_word_separators v))
              rank (rank e) v) with (l := clones ed) (w := w1)
    as (w2 & Hrun2 & Hset2 & Hclones2).
  - intros w' c' _ [ed' Hed'] _.
    destruct (assign_settled with_word_separators _word_separators
                Hattr Hcl Hdoc v w' c' ed' Hed') as [Hset He].
    eexists. split; [by apply modify_editor_Ok|]. by split.
  - done.
  - intros c' Hc'. destruct (Htree1 e _ Hed1) as [_ Hclones].
    apply Hclones. by rewrite Hcl.
  - exists w2. unfold set_word_separators. split_and!.
    + rewrite (bind_Ok _ _ _ _ _ (modify_editor_Ok _ _ _ _ Hed)). fold w1.
      rewrite (bind_Ok _ _ _ _ _ (get_editor_Ok _ _ _ Hed1)).
      by rewrite Hcl.
    + by eapply (settled_holds _word_separators).
    + by apply Hclones2.
Qed.

(** C3. On a tree of clones, assigning a configuration property of an
    editor [e] returns and leaves each clone [c] of [e.clones] with the
    value [e] has for that property. *)
Theorem clones_hold_assigned_configuration
    (sys_platform : string) (rank : editor_id → nat) (depth : nat)
    (w : world) (e c : editor_id) (ed : CodeEdit) :
  clone_tree rank w →
  editors w !! e = Some ed →
  c ∈ clones ed →
  (rank e < depth)%nat →
  (∀ v, syncs (set_use_spaces_instead_of_tabs depth e v)
          _use_spaces_instead_of_tabs v w e c) ∧
  (∀ v, syncs (set_tab_length depth e v) _tab_length v w e c) ∧
  (∀ v, syncs (set_min_indent_column depth e v) _min_indent_column v w e c) ∧
  (∀ v, syncs (set_save_on_focus_out depth e v) _save_on_focus_out v w e c) ∧
  (∀ v, syncs (set_show_whitespaces depth e v) _show_whitespaces v w e c) ∧
  (∀ v, syncs (set_font_name sys_platform depth e v) _font_family
          (font_name_or_default sys_platform v) w e c) ∧
  (∀ v, syncs (set_font_size depth e v) _font_size v w e c) ∧
  (∀ v, syncs (set_background depth e v) _background v w e c) ∧
  (∀ v, syncs (set_foreground depth e v) _foreground v w e c) ∧
  (∀ v, syncs (set_whitespaces_foreground depth e v)
          _whitespaces_foreground v w e c) ∧
  (∀ v, syncs (set_selection_background depth e v) _sel_background v w e c) ∧
  (∀ v, syncs (set_selection_foreground depth e v) _sel_foreground v w e c) ∧
  (∀ v, syncs (set_word_separators e v) _word_separators v w e c).
Proof.
  intros Htree Hed Hc Hdepth.
  split_and!; intros v;
    try (by eapply set_word_separators_syncs);
    try (eapply (synced_setter_syncs id) with (ed := ed) (rank := rank);
         try done;
         first [ by intros ? []
               | apply no_refresh_keeps
               | apply set_whitespaces_flags_keeps
               | apply reset_stylesheet_keeps; by intros ? ? [] ]).
  eapply (synced_setter_syncs (font_name_or_default sys_platform))
    with (ed := ed) (rank := rank); try done; try (by intros ? []).
  - intros v'. unfold font_name_or_default, _DEFAULT_FONT.
    repeat case_decide; congruence.
  - apply reset_stylesheet_keeps. by intros ? ? [].
Qed.

Lemma clones_hold_assigned_configuration_witness :
  syncs (set_tab_length 3 0%nat 8) _tab_length 8%Z split_views 0%nat 1%nat ∧
  syncs (set_font_name "linux" 3 0%nat EmptyString) _font_family
    "Source Code Pro" split_views 0%nat 1%nat ∧
  syncs (set_word_separators 0%nat [" "]) _word_separators [" "]
    split_views 0%nat 1%nat.
Proof.
  destruct (clones_hold_assigned_configuration "linux" split_views_rank 3
              split_views 0%nat 1%nat (with_clones [1%nat] (new_CodeEdit 0 0)))
    as (_ & Htab & _ & _ & _ & Hfont & _ & _ & _ & _ & _ & _ & Hsep).
  - apply clone_tree_check_correct. unfold clone_tree_check.
    apply (bool_decide_unpack _). vm_compute. exact I.
  - reflexivity.
  - simpl. left.
  - simpl. lia.
  - split_and!; [apply Htab|apply (Hfont EmptyString)|apply Hsep].
Defined.

(** ** Linking a clone *)

Lemma keeps_shape_bind rank live (m k : M unit) :
  keeps_shape rank live m → keeps_shape rank live k →
  keeps_shape rank live (m ;; k).
Proof.
  intros Hm Hk w Htree Hlive.
  destruct (Hm w Htree Hlive) as (w1 & Hrun1 & Hshape1).
  destruct (Hk w1) as (w2 & Hrun2 & Hshape2).
  - by eapply clone_tree_same_shape.
  - intros e He. eapply same_shape_is_Some; [done|by apply Hlive].
  - exists w2. split; [|by eapply same_shape_trans].
    by rewrite (bind_Ok _ _ _ _ _ Hrun1).
Qed.

Lemma keeps_shape_attr {V : Type} rank live self (attribute : CodeEdit → V)
    (k : V → M unit) :
  self ∈ live → (∀ v, keeps_shape rank live (k v)) →
  keeps_shape rank live (v <- attr self attribute; k v).
Proof.
  intros Hself Hk w Htree Hlive.
  destruct (Hlive self Hself) as [ed Hed].
  destruct (Hk (attribute ed) w Htree Hlive) as (w' & Hrun & Hshape).
  exists w'. split; [|done].
  by rewrite (bind_Ok _ _ _ _ _ (attr_Ok _ _ _ _ Hed)).
Qed.

Lemma synced_setter_keeps_shape {V : Type} (normalise : V → V) assign refresh
    (attribute : CodeEdit → V) rank live depth c v :
  (∀ v, normalise (normalise v) = normalise v) →
  (∀ v ed, attribute (assign v ed) = v) →
  (∀ v ed, clones (assign v ed) = clones ed) →
  (∀ v ed, document (assign v ed) = document ed) →
  refresh_keeps attribute refresh →
  c ∈ live → (rank c < depth)%nat →
  keeps_shape rank live (synced_setter normalise assign refresh depth c v).
Proof.
  intros Hidem Hattr Hcl Hdoc Hrefresh Hc Hdepth w Htree Hlive.
  destruct (synced_setter_correct normalise assign refresh attribute
              Hidem Hattr Hcl Hdoc Hrefresh rank depth w c v)
    as (w' & Hrun & [Hshape _] & _); [done|by apply Hlive|done|].
  by exists w'.
Qed.

Lemma set_zoom_level_keeps_shape rank live c v :
  c ∈ live → keeps_shape rank live (set_zoom_level c v).
Proof.
  intros Hc w Htree Hlive. destruct (Hlive c Hc) as [ed Hed].
  eexists. split; [by apply modify_editor_Ok|].
  apply (modify_editor_shape w c ed (with_zoom_level v)); [done|by destruct ed..].
Qed.

Lemma set_word_separators_keeps_shape rank live c v :
  c ∈ live → keeps_shape rank live (set_word_separators c v).
Proof.
  intros Hc w Htree Hlive. destruct (Hlive c Hc) as [ed Hed].
  assert (Hattr : ∀ v ed, _word_separators (with_word_separators v ed) = v)
    by (by intros ? []).
  assert (Hcl : ∀ v ed, clones (with_word_separators v ed) = clones ed)
    by (by intros ? []).
  assert (Hdoc : ∀ v ed, document (with_word_separators v ed) = document ed)
    by (by intros ? []).
  destruct (assign_settled with_word_separators _word_separators
              Hattr Hcl Hdoc v w c ed Hed) as [Hset1 _].
  set (w1 := {| editors := <[c := with_word_separators v ed]> (editors w);
                documents := documents w;
                QToolTip := QToolTip w |}) in *.
  assert (Htree1 : clone_tree rank w1)
    by (eapply clone_tree_same_shape; [apply Hset1|done]).
  assert (Hed1 : editors w1 !! c = Some (with_word_separators v ed))
    by (subst w1; simpl; apply lookup_insert_eq).
  destruct (for_each_clone_correct _word_separators
              (λ c v, modify_editor c (with_word_separators v))
              rank (rank c) v) with (l := clones ed) (w := w1)
    as (w2 & Hrun2 & Hset2 & _).
  - intros w' c' _ [ed' Hed'] _.
    destruct (assign_settled with_word_separators _word_separators
                Hattr Hcl Hdoc v w' c' ed' Hed') as [Hset He].
    eexists. split; [by apply modify_editor_Ok|]. by split.
  - done.
  - intros c' Hc'. destruct (Htree1 c _ Hed1) as [_ Hclones].
    apply Hclones. by rewrite Hcl.
  - exists w2. unfold set_word_separators. split.
    + rewrite (bind_Ok _ _ _ _ _ (modify_editor_Ok _ _ _ _ Hed)). fold w1.
      rewrite (bind_Ok _ _ _ _ _ (get_editor_Ok _ _ _ Hed1)).
      by rewrite Hcl.
    + eapply same_shape_trans; [apply Hset1|apply Hset2].
Qed.

(** A propagating setter of [CodeEdit] keeps the shape of the store; the
    attribute it assigns is found by trying each one. *)
Ltac setter_keeps_shape_by attribute :=
  eapply (synced_setter_keeps_shape _ _ _ attribute);
  [ first [ done
          | intros ?; unfold font_name_or_default, _DEFAULT_FONT;
            repeat case_decide; congruence ]
  | by intros ? [] | by intros ? [] | by intros ? []
  | first [ apply no_refresh_keeps
          | apply set_whitespaces_flags_keeps
          | apply reset_stylesheet_keeps; by intros ? ? [] ]
  | set_solver
  | done ].

Ltac setter_keeps_shape :=
  first
    [ apply set_zoom_level_keeps_shape; set_solver
    | apply set_word_separators_keeps_shape; set_solver
    | setter_keeps_shape_by _use_spaces_instead_of_tabs
    | setter_keeps_shape_by _save_on_focus_out
    | setter_keeps_shape_by _show_whitespaces
    | setter_keeps_shape_by _tab_length
    | setter_keeps_shape_by _min_indent_column
    | setter_keeps_shape_by _font_size
    | setter_keeps_shape_by _font_family
    | setter_keeps_shape_by _background
    | setter_keeps_shape_by _foreground
    | setter_keeps_shape_by _whitespaces_foreground
    | setter_keeps_shape_by _sel_background
    | setter_keeps_shape_by _sel_foreground ].

(** [link] returns on a tree of clones; afterwards the clone refers to the
    document of the original, and nothing else of the shape of the store has
    changed. *)
Lemma link_correct sys_platform rank depth w self clone s c :
  clone_tree rank w → self ≠ clone →
  editors w !! self = Some s → editors w !! clone = Some c →
  (rank clone < depth)%nat →
  ∃ w', link sys_platform depth self clone w = Ok (tt, w') ∧
    clone_tree rank w' ∧
    (∀ e, clones <$> editors w' !! e = clones <$> editors w !! e) ∧
    (∀ e, e ≠ clone →
          document <$> editors w' !! e = document <$> editors w !! e) ∧
    document <$> editors w' !! clone = Some (document s) ∧
    (∀ d, is_Some (documents w' !! d) ↔ is_Some (documents w !! d)).
Proof.
  intros Htree Hne Hs Hc Hdepth. unfold link.
  assert (Hs' : ∀ c', <[clone := c']> (editors w) !! self = Some s)
    by (intros c'; by rewrite lookup_insert_ne).
  rewrite (bind_Ok _ _ _ _ _ (attr_Ok _ _ _ _ Hs)).
  rewrite (bind_Ok _ _ _ _ _ (modify_editor_Ok _ _ _ _ Hc)).
  erewrite bind_Ok; [|apply attr_Ok; simpl; apply Hs'].
  erewrite bind_Ok; [|apply modify_editor_Ok; simpl; apply lookup_insert_eq].
  simpl. rewrite insert_insert_eq.
  erewrite bind_Ok; [|apply attr_Ok; simpl; apply Hs'].
  erewrite bind_Ok; [|apply modify_editor_Ok; simpl; apply lookup_insert_eq].
  simpl. rewrite insert_insert_eq.
  erewrite bind_Ok; [|apply attr_Ok; simpl; apply Hs'].
  erewrite bind_Ok; [|apply modify_editor_Ok; simpl; apply lookup_insert_eq].
  simpl. rewrite insert_insert_eq.
  match goal with
  | |- context [<[clone := ?linked]> (editors w)] => set (c0 := linked)
  end.
  set (w0 := {| editors := <[clone := c0]> (editors w);
                documents := documents w;
                QToolTip := QToolTip w |}).
  assert (Hcl0 : clones c0 = clones c) by (subst c0; by destruct c).
  assert (Hdoc0 : document c0 = document s) by (subst c0; by destruct c).
  assert (Htree0 : clone_tree rank w0).
  { intros e ed Hed. subst w0; simpl in *.
    assert (Hsome : ∀ i, is_Some (editors w !! i) →
                         is_Some (<[clone := c0]> (editors w) !! i)).
    { intros i Hi. destruct (decide (clone = i)) as [<-|].
      - rewrite lookup_insert_eq. by eexists.
      - by rewrite lookup_insert_ne. }
    destruct (decide (clone = e)) as [<-|].
    - rewrite lookup_insert_eq in Hed. injection Hed as <-.
      rewrite Hdoc0, Hcl0. split; [by apply (Htree self s)|].
      intros c' Hc'. destruct (Htree clone c Hc) as [_ Hclones].
      destruct (Hclones c' Hc'). split; [by apply Hsome|done].
    - rewrite lookup_insert_ne in Hed by done.
      destruct (Htree e ed Hed) as [Hdocs Hclones]. split; [done|].
      intros c' Hc'. destruct (Hclones c' Hc'). split; [by apply Hsome|done]. }
  lazymatch goal with
  | |- ∃ w', ?tail w0 = _ ∧ _ =>
      assert (Htail : keeps_shape rank [self; clone] tail)
  end.
  { repeat (apply keeps_shape_attr; [set_solver|intros ?];
            first [ apply keeps_shape_bind; [setter_keeps_shape|]
                  | setter_keeps_shape ]). }
  destruct (Htail w0 Htree0) as (w' & Hrun & Hshape).
  { intros e [->|[->|[]%elem_of_nil]%elem_of_cons]%elem_of_cons;
      subst w0; simpl.
    - rewrite Hs'. by eexists.
    - rewrite lookup_insert_eq. by eexists. }
  exists w'. split; [done|]. split; [by eapply clone_tree_same_shape|].
  destruct Hshape as (Hclones & Hdocs & Hsome). split_and!.
  - intros e. rewrite Hclones. subst w0; simpl.
    destruct (decide (clone = e)) as [<-|].
    + by rewrite lookup_insert_eq, Hc; simpl; rewrite Hcl0.
    + by rewrite lookup_insert_ne.
  - intros e He. rewrite Hdocs. subst w0; simpl. by rewrite lookup_insert_ne.
  - rewrite Hdocs. subst w0; simpl. by rewrite lookup_insert_eq; simpl; rewrite Hdoc0.
  - intros d. by rewrite Hsome.
Qed.

(** C2. After [link(clone)] the clone shows the very document of the
    original, so a text edit made through either widget is read back
    through both. *)
Theorem link_shares_document
    (sys_platform : string) (rank : editor_id → nat) (depth : nat)
    (w : world) (self clone : editor_id) (s c : CodeEdit) :
  clone_tree rank w →
  self ≠ clone →
  editors w !! self = Some s →
  editors w !! clone = Some c →
  (rank clone < depth)%nat →
  ∃ w1,
    link sys_platform depth self clone w = Ok (tt, w1) ∧
    (∃ s1 c1, editors w1 !! self = Some s1 ∧ editors w1 !! clone = Some c1 ∧
              document s1 = document s ∧ document c1 = document s1) ∧
    ∀ widget change, widget = self ∨ widget = clone →
      ∃ text w2,
        plain_text self w1 = Ok (text, w1) ∧
        plain_text clone w1 = Ok (text, w1) ∧
        edit_text widget change w1 = Ok (tt, w2) ∧
        plain_text self w2 = Ok (change text, w2) ∧
        plain_text clone w2 = Ok (change text, w2).
Proof.
  intros Htree Hne Hs Hc Hdepth.
  destruct (link_correct sys_platform rank depth w self clone s c)
    as (w1 & Hrun & Htree1 & _ & Hdocs & Hdoc & _); [done..|].
  exists w1. split; [done|].
  specialize (Hdocs self Hne). rewrite Hs in Hdocs. simpl in Hdocs.
  destruct (editors w1 !! self) as [s1|] eqn:Hs1; [|done].
  destruct (editors w1 !! clone) as [c1|] eqn:Hc1; [|done].
  injection Hdocs as Hdocs. injection Hdoc as Hdoc.
  split; [exists s1, c1; split_and!; congruence|].
  destruct (Htree1 self s1 Hs1) as [[d Hd] _].
  assert (Hd' : documents w1 !! document c1 = Some d) by congruence.
  intros widget change Hwidget. exists (toPlainText d).
  exists {| editors := editors w1;
            documents := <[document s1 :=
                             with_toPlainText (change (toPlainText d)) d]>
                           (documents w1);
            QToolTip := QToolTip w1 |}.
  unfold plain_text, edit_text. split_and!.
  - by do 2 step.
  - by do 2 step.
  - destruct Hwidget as [->| ->]; step.
    + by rewrite (modify_document_Ok _ _ _ _ Hd).
    + replace (document c1) with (document s1) by congruence.
      by rewrite (modify_document_Ok _ _ _ _ Hd).
  - by do 2 step.
  - step. replace (document c1) with (document s1) by congruence. by step.
Qed.

Lemma split_views_clone_tree : clone_tree split_views_rank split_views.
Proof.
  apply clone_tree_check_correct. unfold clone_tree_check.
  apply (bool_decide_unpack _). vm_compute. exact I.
Qed.

Lemma link_shares_document_witness :
  ∃ w1 text w2,
    link "linux" 3 0%nat 3%nat split_views = Ok (tt, w1) ∧
    plain_text 0%nat w1 = Ok (text, w1) ∧
    edit_text 3%nat (λ t, t ++ [newline]) w1 = Ok (tt, w2) ∧
    plain_text 0%nat w2 = Ok (text ++ [newline], w2) ∧
    plain_text 3%nat w2 = Ok (text ++ [newline], w2).
Proof.
  destruct (link_shares_document "linux" split_views_rank 3 split_views
              0%nat 3%nat (with_clones [1%nat] (new_CodeEdit 0 0))
              (new_CodeEdit 1 0))
    as (w1 & Hlink & _ & Hedit).
  - exact split_views_clone_tree.
  - discriminate.
  - reflexivity.
  - reflexivity.
  - simpl. lia.
  - destruct (Hedit 3%nat (λ t, t ++ [newline]))
      as (text & w2 & Hread & _ & Hrun & Hself & Hclone); [by right|].
    exists w1, text, w2. by split_and!.
Defined.

(** ** Zoom is not shared *)

(** C4. After linking a clone [c] to an editor [e], assigning [e.zoom_level]
    sets the zoom level of [e] and leaves every other editor, [c] among
    them, as it was; likewise for an assignment to [c.zoom_level]. *)
Theorem zoom_level_is_per_view
    (sys_platform : string) (rank : editor_id → nat) (depth : nat)
    (w : world) (e c : editor_id) (ed cd : CodeEdit) (value : Z) :
  clone_tree rank w →
  e ≠ c →
  editors w !! e = Some ed →
  editors w !! c = Some cd →
  (rank c < depth)%nat →
  ∃ w1 e1 c1,
    link sys_platform depth e c w = Ok (tt, w1) ∧
    editors w1 !! e = Some e1 ∧ editors w1 !! c = Some c1 ∧
    (∃ w2,
       set_zoom_level e value w1 = Ok (tt, w2) ∧
       holds _zoom_level value w2 e ∧
       editors w2 !! c = Some c1 ∧
       (∀ other, other ≠ e → editors w2 !! other = editors w1 !! other) ∧
       documents w2 = documents w1) ∧
    (∃ w2,
       set_zoom_level c value w1 = Ok (tt, w2) ∧
       holds _zoom_level value w2 c ∧
       editors w2 !! e = Some e1 ∧
       (∀ other, other ≠ c → editors w2 !! other = editors w1 !! other) ∧
       documents w2 = documents w1).
Proof.
  intros Htree Hne He Hc Hdepth.
  destruct (link_correct sys_platform rank depth w e c ed cd)
    as (w1 & Hrun & _ & Hclones & _); [done..|].
  assert (Hlive : ∀ i x, editors w !! i = Some x → is_Some (editors w1 !! i)).
  { intros i x Hi. specialize (Hclones i). rewrite Hi in Hclones.
    destruct (editors w1 !! i); [by eexists|done]. }
  destruct (Hlive e ed He) as [e1 He1]. destruct (Hlive c cd Hc) as [c1 Hc1].
  exists w1, e1, c1. split_and!; [done..| |]; unfold set_zoom_level, holds.
  - eexists. split; [by apply modify_editor_Ok|]. simpl. split_and!.
    + rewrite lookup_insert_eq. by destruct e1.
    + by rewrite lookup_insert_ne.
    + intros other Hother. by rewrite lookup_insert_ne.
    + done.
  - eexists. split; [by apply modify_editor_Ok|]. simpl. split_and!.
    + rewrite lookup_insert_eq. by destruct c1.
    + by rewrite lookup_insert_ne.
    + intros other Hother. by rewrite lookup_insert_ne.
    + done.
Qed.

Lemma zoom_level_is_per_view_witness :
  ∃ w1 c1 w2,
    link "linux" 3 0%nat 3%nat split_views = Ok (tt, w1) ∧
    editors w1 !! 3%nat = Some c1 ∧
    set_zoom_level 0%nat 5 w1 = Ok (tt, w2) ∧
    holds _zoom_level 5%Z w2 0%nat ∧
    editors w2 !! 3%nat = Some c1.
Proof.
  destruct (zoom_level_is_per_view "linux" split_views_rank 3 split_views
              0%nat 3%nat (with_clones [1%nat] (new_CodeEdit 0 0))
              (new_CodeEdit 1 0) 5)
    as (w1 & e1 & c1 & Hlink & _ & Hc1 & (w2 & Hrun & He & Hc & _) & _).
  - exact split_views_clone_tree.
  - discriminate.
  - reflexivity.
  - reflexivity.
  - simpl. lia.
  - exists w1, c1, w2. by split_and!.
Defined.

(** ** Lines and cursors *)

Lemma take_while_all {A : Type} (p : A → bool) (l rest : list A) :
  Forall (λ a, p a = true) l →
  (rest = [] ∨ ∃ a r, rest = a :: r ∧ p a = false) →
  take_while p (l ++ rest) = l.
Proof.
  intros Hl Hrest. induction Hl as [|a l Ha Hl IH]; simpl.
  - destruct Hrest as [->|(a & r & -> & Ha)]; [done|]. simpl. by rewrite Ha.
  - by rewrite Ha, IH.
Qed.

Lemma not_newline_true (c : ascii) : c ≠ newline → not_newline c = true.
Proof.
  intros Hc. unfold not_newline. destruct (Ascii.eqb_spec c newline); done.
Qed.

Lemma not_newline_Forall (l : list ascii) :
  newline ∉ l → Forall (λ c, not_newline c = true) l.
Proof.
  intros Hl. apply Forall_forall. intros c Hc. apply not_newline_true.
  by intros ->.
Qed.

Lemma take_while_split {A : Type} (p : A → bool) (l : list A) :
  ∃ rest, l = take_while p l ++ rest ∧
          Forall (λ a, p a = true) (take_while p l) ∧
          (rest = [] ∨ ∃ a r, rest = a :: r ∧ p a = false).
Proof.
  induction l as [|a l (rest & Hl & Hall & Hrest)]; simpl.
  - exists []. by split_and!; [|constructor|left].
  - destruct (p a) eqn:Ha.
    + exists rest. split_and!; [simpl; by f_equal|by constructor|done].
    + exists (a :: l). split_and!; [done|constructor|right; by eexists _, _].
Qed.

Lemma not_newline_false (c : ascii) : not_newline c = false → c = newline.
Proof.
  unfold not_newline. by destruct (Ascii.eqb_spec c newline).
Qed.

(** Every cursor position of a text lies on a line of it. *)
Lemma cursor_in_line_exists (text : list ascii) (p : nat) :
  (p ≤ length text)%nat →
  ∃ before line after, cursor_in_line text p before line after.
Proof.
  intros Hp.
  destruct (take_while_split not_newline (rev (take p text)))
    as (r & Hpre & Hpre_all & Hr).
  destruct (take_while_split not_newline (drop p text))
    as (r' & Hpost & Hpost_all & Hr').
  set (a := take_while not_newline (rev (take p text))) in *.
  set (b := take_while not_newline (drop p text)) in *.
  assert (Htake : take p text = rev r ++ rev a).
  { rewrite <- rev_app_distr, <- Hpre. by rewrite rev_involutive. }
  exists (rev r), (rev a ++ b), r'. split_and!.
  - rewrite <- (take_drop p text) at 1. rewrite Htake, Hpost.
    by rewrite <- !app_assoc.
  - intros [Hin|Hin]%elem_of_app.
    + rewrite list_elem_of_In, <- in_rev, <- list_elem_of_In in Hin.
      by apply (proj1 (Forall_forall _ _) Hpre_all) in Hin.
    + by apply (proj1 (Forall_forall _ _) Hpost_all) in Hin.
  - destruct Hr as [->|(c & r0 & -> & Hc)]; [by left|right].
    apply not_newline_false in Hc as ->. exists (rev r0). by simpl.
  - destruct Hr' as [->|(c & r0 & -> & Hc)]; [by left|right].
    apply not_newline_false in Hc as ->. by exists r0.
  - assert (length (take p text) = p) by (apply length_take_le; lia).
    rewrite Htake, length_app in *. lia.
  - assert (length (take p text) = p) by (apply length_take_le; lia).
    rewrite Htake in *. rewrite !length_app in *. lia.
Qed.

Section lines.
Context `{WordBoundaries}.
Variables (text before line after : list ascii) (tc : QTextCursor).
Hypothesis in_line : cursor_in_line text (position tc) before line after.

Lemma positionInBlock_in_line :
  positionInBlock text tc = (position tc - length before)%nat.
Proof.
  destruct in_line as (-> & Hline & Hbefore & _ & Hp).
  unfold positionInBlock.
  rewrite take_app_ge by lia. rewrite take_app_le by lia.
  rewrite rev_app_distr. rewrite take_while_all.
  - rewrite length_rev, length_take. lia.
  - apply not_newline_Forall.
    rewrite list_elem_of_In, <- in_rev, <- list_elem_of_In.
    intros Hin. apply Hline.
    by eapply subseteq_take.
  - destruct Hbefore as [->|[b ->]]; [by left|right].
    rewrite rev_app_distr. simpl. by eexists _, _.
Qed.

Lemma block_start_in_line : block_start text tc = length before.
Proof.
  unfold block_start. rewrite positionInBlock_in_line.
  destruct in_line as (_ & _ & _ & _ & Hp). lia.
Qed.

Lemma block_end_in_line :
  block_end text tc = (length before + length line)%nat.
Proof.
  destruct in_line as (-> & Hline & _ & Hafter & Hp).
  unfold block_end.
  rewrite drop_app_ge by lia. rewrite drop_app_le by lia.
  rewrite take_while_all.
  - rewrite length_drop. lia.
  - apply not_newline_Forall. intros Hin. apply Hline.
    by eapply subseteq_drop.
  - destruct Hafter as [->|[a ->]]; [by left|right]. by eexists _, _.
Qed.

Lemma block_text_in_line : block_text text tc = line.
Proof.
  unfold block_text. rewrite block_start_in_line, block_end_in_line.
  destruct in_line as (-> & _).
  rewrite drop_app_length.
  replace (length before + length line - length before)%nat
    with (length line) by lia.
  by rewrite take_app_length.
Qed.

Lemma position_in_text : (position tc ≤ length text)%nat.
Proof.
  destruct in_line as (-> & _ & _ & _ & Hp). rewrite !length_app. lia.
Qed.

End lines.

(** ** Automatic indentation *)

Section auto_indent.
Context `{WordBoundaries}.

Lemma cursor_in_line_start text p before line after :
  cursor_in_line text p before line after →
  cursor_in_line text (length before) before line after.
Proof. intros (? & ? & ? & ? & ?). split_and!; [done..|lia|lia]. Qed.

Lemma get_indent_in_line (mode : AutoIndentMode) text tc before line after :
  cursor_in_line text (position tc) before line after →
  _get_indent mode text tc
  = (([], expected_indent (min_indent mode) line),
     setPosition (position tc) tc).
Proof.
  intros Hline. unfold _get_indent, movePosition. simpl.
  unfold move_once at 1 2. simpl.
  rewrite (block_start_in_line text before line after tc Hline).
  set (tc1 := {| anchor := length before; position := length before |}).
  assert (Hline1 : cursor_in_line text (position tc1) before line after)
    by (by eapply cursor_in_line_start).
  unfold select_LineUnderCursor, selectedText, selectionStart, selectionEnd.
  rewrite (block_start_in_line text before line after tc1 Hline1).
  rewrite (block_end_in_line text before line after tc1 Hline1). simpl.
  rewrite Nat.min_l, Nat.max_r by lia.
  destruct Hline as (-> & _).
  rewrite drop_app_length.
  replace (length before + length line - length before)%nat
    with (length line) by lia.
  by rewrite take_app_length.
Qed.

Lemma remove_spaces_idemp (s : list ascii) :
  remove_spaces (remove_spaces s) = remove_spaces s.
Proof.
  unfold remove_spaces. induction s as [|a s IH]; [done|].
  rewrite filter_cons. case_decide; [|done].
  rewrite filter_cons. case_decide; [|done]. by rewrite IH.
Qed.

Lemma remove_spaces_take_drop (s : list ascii) (n : nat) :
  remove_spaces (remove_spaces (take n s) ++ drop n s) = remove_spaces s.
Proof.
  unfold remove_spaces at 1. rewrite filter_app. fold (remove_spaces (drop n s)).
  fold (remove_spaces (remove_spaces (take n s))).
  rewrite remove_spaces_idemp. unfold remove_spaces. rewrite <- filter_app.
  by rewrite take_drop.
Qed.

(** [tc.insertText(s)] through the store. *)
Lemma cursor_insertText_Ok w doc d s tc :
  documents w !! doc = Some d →
  ∃ w',
    cursor_insertText doc s tc w
    = Ok (setPosition (selectionStart tc + length s) tc, w') ∧
    documents w'
    = <[doc := with_toPlainText
                 (take (selectionStart tc) (toPlainText d) ++ s
                  ++ drop (selectionEnd tc) (toPlainText d)) d]> (documents w) ∧
    (∀ e, document <$> editors w' !! e = document <$> editors w !! e).
Proof.
  intros Hd. unfold cursor_insertText, insertText.
  rewrite (bind_Ok _ _ _ _ _ (get_document_Ok _ _ _ Hd)).
  rewrite (bind_Ok _ _ _ _ _ (modify_document_Ok _ _ _ _ Hd)).
  eexists. split; [reflexivity|]. simpl. split; [done|].
  intros e. rewrite lookup_fmap. destruct (editors w !! e) as [ed|]; [|done].
  simpl. case_decide; [|done]. by destruct ed.
Qed.

(** The same, with what becomes of the cursors of the editors. *)
Lemma cursor_insertText_editors w doc d s tc :
  documents w !! doc = Some d →
  ∃ w',
    cursor_insertText doc s tc w
    = Ok (setPosition (selectionStart tc + length s) tc, w') ∧
    documents w'
    = <[doc := with_toPlainText
                 (take (selectionStart tc) (toPlainText d) ++ s
                  ++ drop (selectionEnd tc) (toPlainText d)) d]> (documents w) ∧
    ∀ e, editors w' !! e
         = (λ ed, if decide (document ed = doc)
                  then with_textCursor
                         (track_cursor (selectionStart tc) (selectionEnd tc)
                            (length s) (textCursor ed)) ed
                  else ed) <$> editors w !! e.
Proof.
  intros Hd. unfold cursor_insertText, insertText.
  rewrite (bind_Ok _ _ _ _ _ (get_document_Ok _ _ _ Hd)).
  rewrite (bind_Ok _ _ _ _ _ (modify_document_Ok _ _ _ _ Hd)).
  eexists. split; [reflexivity|]. simpl. split; [done|].
  intros e. by rewrite lookup_fmap.
Qed.

(** A selection that starts with a space gets shorter without its
    spaces. *)
Lemma remove_spaces_shorter (s : list ascii) :
  startswith_space s = true →
  (length (remove_spaces s) < length s)%nat.
Proof.
  destruct s as [|c s]; [done|]. simpl. intros Hc.
  apply Ascii.eqb_eq in Hc as ->. unfold remove_spaces.
  rewrite filter_cons_False by (intros Hne; by apply Hne).
  pose proof (length_filter (λ c : ascii, c ≠ space) s). simpl. lia.
Qed.

Lemma startswith_space_take (n : nat) (s : list ascii) :
  startswith_space s = false → startswith_space (take n s) = false.
Proof. by destruct n, s. Qed.

Lemma without_eaten_spaces_none (n : nat) (tail : list ascii) :
  startswith_space tail = false → without_eaten_spaces n tail = tail.
Proof.
  intros Hnone. unfold without_eaten_spaces.
  by rewrite startswith_space_take.
Qed.

Lemma remove_spaces_without_eaten (n : nat) (tail : list ascii) :
  remove_spaces (without_eaten_spaces n tail) = remove_spaces tail.
Proof.
  unfold without_eaten_spaces. case_match; [|done].
  apply remove_spaces_take_drop.
Qed.

End auto_indent.

Section auto_indent_on_enter.
Context `{WordBoundaries}.

(** What the handler of an enabled [AutoIndentMode] does with a Return or
    Enter key press that is not accepted: the text it leaves, and the
    cursor of the editor when no white space is eaten. *)
Lemma on_key_pressed_indents
    (mode : AutoIndentMode) (event : QKeyEvent) (w : world)
    (ed : CodeEdit) (d : QTextDocument) (before line after : list ascii) :
  key_pressed_connected mode = true →
  isAccepted event = false →
  key event = Key_Return ∨ key event = Key_Enter →
  editors w !! editor mode = Some ed →
  documents w !! document ed = Some d →
  cursor_in_line (toPlainText d) (position (textCursor ed)) before line after →
  let p := position (textCursor ed) in
  let indent := expected_indent (min_indent mode) line in
  let tail := drop p (toPlainText d) in
  let behind := (p + S (length indent))%nat in
  let n := (next_word (take p (toPlainText d) ++ newline :: indent ++ tail)
              behind - behind)%nat in
  ∃ w' d',
    key_pressed_emit mode event w = Ok (accept event, w') ∧
    documents w' !! document ed = Some d' ∧
    toPlainText d'
    = take p (toPlainText d) ++ newline :: indent
      ++ without_eaten_spaces n tail ∧
    (startswith_space tail = false →
     textCursor <$> editors w' !! editor mode
     = Some (track_cursor p p (S (length indent)) (textCursor ed))).
Proof.
  intros Hconn Hacc Hkey Hed Hd Hline p indent tail behind n.
  unfold key_pressed_emit. rewrite Hconn. unfold _on_key_pressed.
  rewrite Hacc. rewrite decide_True by done.
  rewrite (bind_Ok _ _ _ _ _ (get_editor_Ok _ _ _ Hed)).
  rewrite (bind_Ok _ _ _ _ _ (get_document_Ok _ _ _ Hd)).
  rewrite (get_indent_in_line mode _ _ before line after Hline).
  fold p indent. cbv beta iota. rewrite app_nil_l.
  set (text := toPlainText d) in *.
  assert (Hp : (p ≤ length text)%nat) by (by eapply position_in_text).
  destruct (cursor_insertText_editors w (document ed) d (newline :: indent)
              (setPosition p (textCursor ed)) Hd)
    as (w1 & Hrun1 & Hdocs1 & Heds1).
  rewrite (bind_Ok _ _ _ _ _ Hrun1).
  unfold selectionStart, selectionEnd in Hdocs1. simpl in Hdocs1.
  rewrite Nat.min_id, Nat.max_id in Hdocs1. fold text tail in Hdocs1.
  assert (Hcursor1 : textCursor <$> editors w1 !! editor mode
                     = Some (track_cursor p p (S (length indent))
                               (textCursor ed))).
  { rewrite Heds1, Hed. simpl. rewrite decide_True by done.
    unfold selectionStart, selectionEnd. simpl.
    rewrite Nat.min_id, Nat.max_id. by destruct ed. }
  clear Heds1.
  set (text1 := take p text ++ (newline :: indent) ++ tail) in *.
  set (d1 := with_toPlainText text1 d) in *.
  repeat match goal with
         | |- context [setPosition ?a ?b] =>
             change (setPosition a b) with {| anchor := a; position := a |}
         end.
  change (selectionStart {| anchor := p; position := p |}) with (Nat.min p p).
  rewrite Nat.min_id. change (length (newline :: indent)) with (S (length indent)).
  fold behind.
  assert (Hd1 : documents w1 !! document ed = Some d1)
    by (rewrite Hdocs1; apply lookup_insert_eq).
  rewrite (bind_Ok _ _ _ _ _ (get_document_Ok _ _ _ Hd1)).
  change (toPlainText d1) with text1.
  set (tc2 := movePosition WordRight KeepAnchor 1 text1
                {| anchor := behind; position := behind |}).
  set (q := next_word text1 behind).
  assert (Hn : n = (q - behind)%nat) by reflexivity.
  assert (Hq : (behind ≤ q)%nat) by apply next_word_forward.
  assert (Hstart : selectionStart tc2 = behind)
    by (unfold selectionStart; simpl; fold q; lia).
  assert (Hend : selectionEnd tc2 = q)
    by (unfold selectionEnd; simpl; fold q; lia).
  assert (Hbehind : behind = length (take p text ++ newline :: indent)).
  { rewrite length_app, length_take. simpl. lia. }
  assert (Hdrop1 : drop behind text1 = tail).
  { subst text1. rewrite (app_assoc _ _ tail), Hbehind.
    apply drop_app_length. }
  assert (Htxt : selectedText text1 tc2 = take n tail).
  { unfold selectedText. by rewrite Hstart, Hend, Hdrop1, Hn. }
  rewrite Htxt. unfold without_eaten_spaces.
  destruct (startswith_space (take n tail)) eqn:Hspace.
  - rewrite (proj2 (Nat.ltb_lt _ _) (remove_spaces_shorter _ Hspace)).
    destruct (cursor_insertText_Ok w1 (document ed) d1
                (remove_spaces (take n tail)) tc2 Hd1)
      as (w2 & Hrun2 & Hdocs2 & _).
    rewrite bind_bind. rewrite (bind_Ok _ _ _ _ _ Hrun2).
    eexists w2, _. split_and!; [done| | |].
    + rewrite Hdocs2. apply lookup_insert_eq.
    + simpl. change (toPlainText d1) with text1. rewrite Hstart, Hend.
      replace (drop q text1) with (drop n tail).
      2:{ rewrite <- Hdrop1, drop_drop. f_equal. lia. }
      replace (take behind text1) with (take p text ++ newline :: indent).
      2:{ subst text1. rewrite (app_assoc _ _ tail), Hbehind.
          by rewrite take_app_length. }
      rewrite <- app_assoc. simpl. reflexivity.
    + intros Hnone. by rewrite startswith_space_take in Hspace.
  - eexists w1, d1. by split_and!.
Qed.

(** C6. An enabled [AutoIndentMode] that receives a Return or Enter key
    press which is not yet accepted inserts, at the cursor, a newline
    followed by the leading white space of the line under the cursor, or by
    [min_indent] when that white space is shorter, and accepts the event.
    Nothing else is inserted: the text behind the new indentation is the
    text that was behind the cursor, from which the step that eats white
    space has taken the spaces of what [WordRight] selects there, when that
    selection starts with a space. *)
Theorem auto_indent_on_enter
    (mode : AutoIndentMode) (event : QKeyEvent) (w : world)
    (ed : CodeEdit) (d : QTextDocument) (before line after : list ascii) :
  key_pressed_connected mode = true →
  isAccepted event = false →
  key event = Key_Return ∨ key event = Key_Enter →
  editors w !! editor mode = Some ed →
  documents w !! document ed = Some d →
  cursor_in_line (toPlainText d) (position (textCursor ed)) before line after →
  let p := position (textCursor ed) in
  let indent := expected_indent (min_indent mode) line in
  let tail := drop p (toPlainText d) in
  let behind := (p + S (length indent))%nat in
  let n := (next_word (take p (toPlainText d) ++ newline :: indent ++ tail)
              behind - behind)%nat in
  ∃ w' event' d',
    key_pressed_emit mode event w = Ok (event', w') ∧
    isAccepted event' = true ∧
    key event' = key event ∧
    documents w' !! document ed = Some d' ∧
    toPlainText d'
    = take p (toPlainText d) ++ newline :: indent
      ++ without_eaten_spaces n tail ∧
    remove_spaces (without_eaten_spaces n tail) = remove_spaces tail ∧
    (startswith_space tail = false → without_eaten_spaces n tail = tail).
Proof.
  intros Hconn Hacc Hkey Hed Hd Hline p indent tail behind n.
  destruct (on_key_pressed_indents mode event w ed d before line after
              Hconn Hacc Hkey Hed Hd Hline)
    as (w' & d' & Hrun & Hd' & Htext & _).
  exists w', (accept event), d'. split_and!; [done..| |].
  - apply remove_spaces_without_eaten.
  - apply without_eaten_spaces_none.
Qed.

End auto_indent_on_enter.

Lemma auto_indent_on_enter_witness :
  ∃ w' event' d',
    key_pressed_emit auto_indent_mode return_pressed
      (single_editor "    x =    1" 7) = Ok (event', w') ∧
    isAccepted event' = true ∧
    documents w' !! 0%nat = Some d' ∧
    toPlainText d'
    = String.list_ascii_of_string "    x ="
      ++ newline :: String.list_ascii_of_string "    1".
Proof.
  destruct (auto_indent_on_enter auto_indent_mode return_pressed
              (single_editor "    x =    1" 7) (new_CodeEdit 0 7)
              (new_QTextDocument "    x =    1")
              [] (String.list_ascii_of_string "    x =    1") [])
    as (w' & event' & d' & Hrun & Hacc & _ & Hd' & Htext & _).
  - reflexivity.
  - reflexivity.
  - left. reflexivity.
  - reflexivity.
  - reflexivity.
  - split_and!.
    + reflexivity.
    + apply (bool_decide_unpack _). vm_compute. exact I.
    + left. reflexivity.
    + left. reflexivity.
    + simpl. lia.
    + simpl. lia.
  - exists w', event', d'. split_and!; [done..|]. exact Htext.
Defined.

(** ** The home key *)

Section home_key.
Context `{WordBoundaries}.

(** [Left], one or more times, from a cursor whose selection, if it has
    one, is kept. *)
Lemma move_left_iter mode text (n : nat) tc :
  leaves_selection mode tc = false →
  Nat.iter (S n) (move_once Left mode text) tc
  = {| anchor := match mode with
                 | MoveAnchor => (position tc - S n)%nat
                 | KeepAnchor => anchor tc
                 end;
       position := (position tc - S n)%nat |}.
Proof.
  intros Hkept. induction n as [|n IH].
  - simpl. unfold move_once, move_target. rewrite Hkept.
    by destruct mode.
  - change (Nat.iter (S (S n)) (move_once Left mode text) tc)
      with (move_once Left mode text
              (Nat.iter (S n) (move_once Left mode text) tc)).
    rewrite IH. unfold move_once, move_target, leaves_selection.
    destruct mode; simpl; [rewrite Nat.eqb_refl; simpl|]; f_equal; lia.
Qed.

Lemma leaves_selection_select (shift : bool) tc :
  shift = true ∨ anchor tc = position tc →
  leaves_selection (if shift then KeepAnchor else MoveAnchor) tc = false.
Proof.
  intros [->| Hnone]; [done|]. destruct shift; [done|]. simpl.
  by rewrite Hnone, Nat.eqb_refl.
Qed.

(** What [_do_home_key] does to the cursor, as a function of the column and
    of the indentation width of the line; the documents are never
    modified. Behind the indentation the cursor lands on its end when
    [select] is set or there is no selection; a selection that is given up
    takes the first step to its edge. *)
Lemma do_home_key_in_line w self ed d before line after event select :
  editors w !! self = Some ed →
  documents w !! document ed = Some d →
  cursor_in_line (toPlainText d) (position (textCursor ed)) before line after →
  let column := (position (textCursor ed) - length before)%nat in
  let indent := length (leading_whitespace line) in
  ∃ w' ed',
    _do_home_key self event select w = Ok (accept <$> event, w') ∧
    editors w' !! self = Some ed' ∧
    documents w' = documents w ∧
    ((indent < column)%nat →
     select = true ∨ anchor (textCursor ed) = position (textCursor ed) →
     position (textCursor ed') = (length before + indent)%nat) ∧
    (column = indent → position (textCursor ed') = length before) ∧
    ((column < indent)%nat → textCursor ed' = textCursor ed).
Proof.
  intros Hed Hd Hline column indent. unfold _do_home_key.
  rewrite (bind_Ok _ _ _ _ _ (get_editor_Ok _ _ _ Hed)).
  rewrite (bind_Ok _ _ _ _ _ (get_document_Ok _ _ _ Hd)).
  rewrite (bind_Ok _ _ _ _ _ (modify_editor_Ok _ _ _ _ Hed)).
  unfold line_indent.
  rewrite (positionInBlock_in_line _ _ _ _ _ Hline).
  rewrite (block_text_in_line _ _ _ _ _ Hline).
  fold column indent.
  eexists _, _. split; [reflexivity|]. simpl. rewrite lookup_insert_eq.
  split; [reflexivity|]. split; [done|].
  assert (Hcolumn : (length before + column)%nat = position (textCursor ed)).
  { destruct Hline as (_ & _ & _ & _ & Hp). subst column. lia. }
  case_decide as Hdelta; split_and!; intros Hcase; try lia.
  - intros Hkept. apply leaves_selection_select in Hkept.
    destruct ed; simpl in *. unfold movePosition.
    replace (Z.to_nat (Z.of_nat column - Z.of_nat indent))
      with (S (column - indent - 1)) by lia.
    rewrite move_left_iter by done. simpl. lia.
  - destruct ed as [? ? ? ? ? ? ? ? ? ? ? ? ? ? ? ? ? ? ? ? [a p]]; simpl in *.
    unfold movePosition.
    replace (Z.to_nat (Z.of_nat column - Z.of_nat indent)) with 0%nat by lia.
    reflexivity.
  - destruct ed; simpl in *. unfold movePosition. simpl.
    by rewrite (block_start_in_line _ _ _ _ _ Hline).
Qed.

End home_key.

(** C9, where the code departs from it. With the cursor inside the
    indentation (column 2 of a line indented by 4), [_do_home_key] asks Qt
    to move left by a negative count, which moves nothing: the cursor stays
    at column 2 instead of landing on the first character that is not white
    space, at column 4. *)
Example do_home_key_inside_indentation :
  let w := single_editor "    x = 1" 2 in
  let text := String.list_ascii_of_string "    x = 1" in
  let cursor := {| anchor := 2; position := 2 |} in
  textCursor <$> editors w !! 0%nat = Some cursor ∧
  positionInBlock text cursor = 2%nat ∧
  line_indent text cursor = 4%nat ∧
  _do_home_key 0%nat (Some home_pressed) false w
  = Ok (Some (accept home_pressed), w).
Proof. cbv zeta. split_and!; vm_compute; reflexivity. Qed.

(** ** Splitting keeps the clones a tree *)

Lemma clone_tree_add_clone rank w self ed c :
  clone_tree rank w →
  editors w !! self = Some ed →
  is_Some (editors w !! c) → (rank c < rank self)%nat →
  clone_tree rank
    {| editors := <[self := with_clones (clones ed ++ [c]) ed]> (editors w);
       documents := documents w;
       QToolTip := QToolTip w |}.
Proof.
  intros Htree Hed Hc Hrank e ed' Hed'. simpl in *.
  assert (Hsome : ∀ i, is_Some (editors w !! i) →
            is_Some (<[self := with_clones (clones ed ++ [c]) ed]>
                       (editors w) !! i)).
  { intros i Hi. destruct (decide (self = i)) as [<-|].
    - rewrite lookup_insert_eq. by eexists.
    - by rewrite lookup_insert_ne. }
  destruct (decide (self = e)) as [<-|].
  - rewrite lookup_insert_eq in Hed'. injection Hed' as <-.
    destruct (Htree self ed Hed) as [Hdoc Hclones].
    split; [by destruct ed|].
    replace (clones (with_clones (clones ed ++ [c]) ed))
      with (clones ed ++ [c]) by (by destruct ed).
    intros c' [Hc'|Hc']%elem_of_app.
    + destruct (Hclones c' Hc'). split; [by apply Hsome|done].
    + apply list_elem_of_singleton in Hc' as ->. split; [by apply Hsome|done].
  - rewrite lookup_insert_ne in Hed' by done.
    destruct (Htree e ed' Hed') as [Hdoc Hclones]. split; [done|].
    intros c' Hc'. destruct (Hclones c' Hc'). split; [by apply Hsome|done].
Qed.

(** The constructor returns a new editor without clones, leaves the other
    editors their clones and documents, and keeps the clones a tree, for a
    rank that puts the new editor at the bottom. *)
Lemma CodeEdit_init_correct sys_platform app_highlight app_highlightedText
    rank depth w :
  clone_tree rank w →
  (0 < depth)%nat →
  ∃ wb new,
    CodeEdit_init sys_platform app_highlight app_highlightedText depth w
    = Ok (new, wb) ∧
    editors w !! new = None ∧
    clone_tree (λ i, if decide (i = new) then 0%nat else S (rank i)) wb ∧
    (∀ e ed, editors w !! e = Some ed →
       ∃ ed', editors wb !! e = Some ed' ∧ clones ed' = clones ed
              ∧ document ed' = document ed) ∧
    (∃ cb, editors wb !! new = Some cb ∧ clones cb = []).
Proof.
  intros Htree Hdepth. unfold CodeEdit_init.
  set (new := fresh (dom (editors w))).
  set (doc := fresh (dom (documents w))).
  assert (Hnew : editors w !! new = None)
    by (apply not_elem_of_dom, is_fresh).
  set (rank' := λ i, if decide (i = new) then 0%nat else S (rank i)).
  match goal with
  | |- context [bind (set_font_name _ _ _ _) _ ?store] => set (wa := store)
  end.
  match goal with
  | wa := {| editors := <[new := ?e]> _ |} |- _ => set (ed0 := e) in *
  end.
  assert (Htree_a : clone_tree rank' wa).
  { intros e ed' Hed'. subst wa; simpl in *.
    destruct (decide (new = e)) as [<-|].
    - rewrite lookup_insert_eq in Hed'. injection Hed' as <-. simpl.
      split; [rewrite lookup_insert_eq; by eexists|].
      intros c Hc. by apply elem_of_nil in Hc.
    - rewrite lookup_insert_ne in Hed' by done.
      destruct (Htree e ed' Hed') as [[d Hd] Hclones]. split.
      + destruct (decide (doc = document ed')) as [<-|].
        * rewrite lookup_insert_eq. by eexists.
        * rewrite lookup_insert_ne by done. by eexists.
      + intros c Hc. destruct (Hclones c Hc) as [[cd Hcd] Hlt].
        assert (c ≠ new) by (intros ->; congruence).
        split; [rewrite lookup_insert_ne by done; by eexists|].
        subst rank'. simpl. rewrite !decide_False by done. lia. }
  destruct (synced_setter_correct (font_name_or_default sys_platform)
              with_font_family (λ self _, _reset_stylesheet self) _font_family)
    with (rank := rank') (depth := depth) (w := wa) (self := new)
         (value := EmptyString)
    as (wb & Hrun_b & [Hshape_b _] & _).
  { intros v. unfold font_name_or_default, _DEFAULT_FONT.
    repeat case_decide; congruence. }
  { by intros ? []. } { by intros ? []. } { by intros ? []. }
  { apply reset_stylesheet_keeps. by intros ? ? []. }
  { done. }
  { subst wa; simpl. rewrite lookup_insert_eq. by eexists. }
  { subst rank'. simpl. by rewrite decide_True. }
  fold (set_font_name sys_platform) in Hrun_b.
  exists wb, new. split_and!.
  - by rewrite (bind_Ok _ _ _ _ _ Hrun_b).
  - done.
  - by eapply clone_tree_same_shape.
  - intros e ed Hed. apply (same_shape_lookup wa wb); [done|].
    subst wa; simpl. rewrite lookup_insert_ne; [done|]. intros <-. congruence.
  - destruct (same_shape_lookup wa wb new ed0 Hshape_b) as (cb & Hcb & Hcl & _).
    + subst wa; simpl. by rewrite lookup_insert_eq.
    + by exists cb.
Qed.

(** [split] returns a new editor that shows the document of the original
    and is its last clone; the clones are a tree again, for a rank that
    puts the new editor at the bottom. *)
Lemma split_keeps_clone_tree sys_platform app_highlight app_highlightedText
    rank depth w self ed :
  clone_tree rank w →
  editors w !! self = Some ed →
  (0 < depth)%nat →
  ∃ w' new rank',
    split sys_platform app_highlight app_highlightedText depth self w
    = Ok (new, w') ∧
    clone_tree rank' w' ∧
    editors w !! new = None ∧
    clones <$> editors w' !! self = Some (clones ed ++ [new]) ∧
    clones <$> editors w' !! new = Some [] ∧
    document <$> editors w' !! new = Some (document ed).
Proof.
  intros Htree Hed Hdepth. unfold split, clone.
  rewrite (bind_Ok _ _ _ _ _ (attr_Ok _ _ _ _ Hed)).
  destruct (CodeEdit_init_correct sys_platform app_highlight
              app_highlightedText rank depth w Htree Hdepth)
    as (wb & new & Hrun_b & Hnew & Htree_b & Hold & cb & Hcb & Hcb_clones).
  rewrite (bind_Ok _ _ _ _ _ Hrun_b).
  set (rank' := λ i, if decide (i = new) then 0%nat else S (rank i)) in *.
  assert (Hne : self ≠ new) by (intros ->; congruence).
  destruct (Hold self ed Hed) as (sb & Hsb & Hsb_clones & Hsb_doc).
  destruct (link_correct sys_platform rank' depth wb self new sb cb)
    as (wc & Hrun_c & Htree_c & Hclones_c & _ & Hdoc_c & _); [done..| |].
  { subst rank'. simpl. by rewrite decide_True. }
  rewrite (bind_Ok _ _ _ _ _ Hrun_c).
  pose proof (Hclones_c self) as Hself_c. rewrite Hsb in Hself_c.
  pose proof (Hclones_c new) as Hnew_c. rewrite Hcb in Hnew_c.
  destruct (editors wc !! self) as [sc|] eqn:Hsc; [|done].
  destruct (editors wc !! new) as [cc|] eqn:Hcc; [|done].
  simpl in Hself_c, Hnew_c, Hdoc_c.
  injection Hself_c as Hself_c. injection Hnew_c as Hnew_c.
  injection Hdoc_c as Hdoc_c.
  rewrite (bind_Ok _ _ _ _ _ (modify_editor_Ok _ _ _ _ Hcc)).
  match goal with
  | |- context [<[new := ?e]> (editors wc)] => set (cd := e)
  end.
  set (wd := {| editors := <[new := cd]> (editors wc);
                documents := documents wc;
                QToolTip := QToolTip wc |}).
  assert (Hshape_d : same_shape wc wd)
    by (apply (modify_editor_shape wc new cc); [done|by destruct cc..]).
  assert (Htree_d : clone_tree rank' wd)
    by (by eapply clone_tree_same_shape).
  assert (Hsd : editors wd !! self = Some sc)
    by (subst wd; simpl; by rewrite lookup_insert_ne).
  rewrite (bind_Ok _ _ _ _ _ (modify_editor_Ok _ _ _ _ Hsd)).
  eexists _, new, rank'. split; [reflexivity|]. split_and!.
  - apply clone_tree_add_clone; [done|done| |].
    + subst wd; simpl. rewrite lookup_insert_eq. by eexists.
    + subst rank'. simpl. rewrite decide_True by done.
      rewrite decide_False by done. lia.
  - done.
  - simpl. rewrite lookup_insert_eq. simpl.
    replace (clones (with_clones (clones sc ++ [new]) sc))
      with (clones sc ++ [new]) by (by destruct sc).
    do 2 f_equal. congruence.
  - simpl. rewrite lookup_insert_ne by done. subst wd; simpl.
    rewrite lookup_insert_eq. simpl. subst cd.
    replace (clones (with_textCursor _ cc)) with (clones cc) by (by destruct cc).
    f_equal. congruence.
  - simpl. rewrite lookup_insert_ne by done. subst wd; simpl.
    rewrite lookup_insert_eq. simpl. subst cd.
    replace (document (with_textCursor _ cc)) with (document cc)
      by (by destruct cc).
    f_equal. congruence.
Qed.

(** * Further properties *)

(** ** Deleting the selection and duplicating a line *)

Section slots_correct.
Context `{WordBoundaries}.

Lemma track_selection_start lo hi q :
  (lo ≤ hi)%nat → q = lo ∨ q = hi → track lo hi 0 q = lo.
Proof.
  intros Hle Hq. unfold track.
  destruct (Nat.ltb_spec q lo); destruct Hq; subst; lia.
Qed.

(** X1. [delete()] removes exactly the selected text of the editor's document,
    leaves the cursor of the editor at the start of the former selection
    without a selection, and a second [delete()] changes nothing. *)
Theorem delete_removes_the_selection
    (w : world) (self : editor_id) (ed : CodeEdit) (d : QTextDocument) :
  editors w !! self = Some ed →
  documents w !! document ed = Some d →
  let lo := selectionStart (textCursor ed) in
  let hi := selectionEnd (textCursor ed) in
  ∃ w' ed' d',
    CodeEditSlots.delete self w = Ok (tt, w') ∧
    editors w' !! self = Some ed' ∧
    documents w' !! document ed = Some d' ∧
    document ed' = document ed ∧
    toPlainText d' = take lo (toPlainText d) ++ drop hi (toPlainText d) ∧
    textCursor ed' = {| anchor := lo; position := lo |} ∧
    (∀ other, other ≠ document ed →
              documents w' !! other = documents w !! other) ∧
    CodeEditSlots.delete self w' = Ok (tt, w').
Proof.
  intros Hed Hd lo hi.
  unfold CodeEditSlots.delete, CodeEditSlots.cursor_removeSelectedText.
  rewrite (bind_Ok _ _ _ _ _ (get_editor_Ok _ _ _ Hed)).
  destruct (decide (anchor (textCursor ed) = position (textCursor ed)))
    as [Hnone|Hsel].
  - assert (Hlo : lo = position (textCursor ed))
      by (subst lo; unfold selectionStart; lia).
    assert (Hhi : hi = position (textCursor ed))
      by (subst hi; unfold selectionEnd; lia).
    exists w, ed, d. split_and!; try done.
    + by rewrite Hlo, Hhi, take_drop.
    + rewrite Hlo. clear Hlo Hhi. subst lo hi.
      destruct (textCursor ed) as [a p]; simpl in *. by f_equal.
    + rewrite (bind_Ok _ _ _ _ _ (get_editor_Ok _ _ _ Hed)).
      by rewrite decide_True.
  - destruct (cursor_insertText_editors w (document ed) d [] (textCursor ed) Hd)
      as (w' & Hrun & Hdocs & Heds).
    rewrite (bind_Ok _ _ _ _ _ Hrun).
    assert (Hed' : editors w' !! self
                   = Some (with_textCursor {| anchor := lo; position := lo |} ed)).
    { rewrite Heds, Hed. simpl. rewrite decide_True by done.
      unfold track_cursor. fold lo hi. do 3 f_equal.
      - apply track_selection_start;
          [subst lo hi; unfold selectionStart, selectionEnd; lia|].
        subst lo hi; unfold selectionStart, selectionEnd; lia.
      - apply track_selection_start;
          [subst lo hi; unfold selectionStart, selectionEnd; lia|].
        subst lo hi; unfold selectionStart, selectionEnd; lia. }
    eexists w', _, _. split_and!; [done|exact Hed'| | | | | |].
    + rewrite Hdocs. apply lookup_insert_eq.
    + by destruct ed.
    + done.
    + by destruct ed.
    + intros other Hother. rewrite Hdocs. by rewrite lookup_insert_ne.
    + rewrite (bind_Ok _ _ _ _ _ (get_editor_Ok _ _ _ Hed')).
      rewrite decide_True; [done|]. by destruct ed.
Qed.

End slots_correct.

Section duplicate_line_correct.
Context `{WordBoundaries}.

Lemma move_right_iter mode text (n q : nat) :
  (q + n ≤ length text)%nat →
  Nat.iter n (move_once Right mode text) {| anchor := q; position := q |}
  = {| anchor := match mode with
                 | MoveAnchor => (q + n)%nat
                 | KeepAnchor => q
                 end;
       position := (q + n)%nat |}.
Proof.
  induction n as [|n IH]; intros Hn; simpl.
  - rewrite Nat.add_0_r. by destruct mode.
  - rewrite IH by lia. unfold move_once, move_target, leaves_selection.
    replace (q + S n)%nat with (q + n + 1)%nat by lia.
    destruct mode; simpl; [rewrite Nat.eqb_refl; simpl|];
      (destruct (Nat.ltb_spec (q + n) (length text)); [done|lia]).
Qed.

(** The cursor at the end of a line is on that line. *)
Lemma cursor_in_line_end text p before line after :
  cursor_in_line text p before line after →
  cursor_in_line text (length before + length line) before line after.
Proof. intros (? & ? & ? & ? & ?). split_and!; [done..|lia|lia]. Qed.

(** X2. [duplicate_line()] inserts a copy of the line under the cursor below
    it and puts the cursor, without selection, on the copy at the column it
    had. *)
Theorem duplicate_line_copies_the_line
    (w : world) (self : editor_id) (ed : CodeEdit) (d : QTextDocument)
    (before line after : list ascii) :
  editors w !! self = Some ed →
  documents w !! document ed = Some d →
  cursor_in_line (toPlainText d) (position (textCursor ed)) before line after →
  let p := position (textCursor ed) in
  ∃ w' ed' d',
    CodeEditSlots.duplicate_line self w = Ok (tt, w') ∧
    editors w' !! self = Some ed' ∧
    documents w' !! document ed = Some d' ∧
    toPlainText d' = before ++ line ++ newline :: line ++ after ∧
    textCursor ed' = {| anchor := (p + S (length line))%nat;
                        position := (p + S (length line))%nat |} ∧
    cursor_in_line (toPlainText d') (position (textCursor ed'))
      (before ++ line ++ [newline]) line after ∧
    positionInBlock (toPlainText d') (textCursor ed')
    = positionInBlock (toPlainText d) (textCursor ed).
Proof.
  intros Hed Hd Hline p. unfold CodeEditSlots.duplicate_line.
  rewrite (bind_Ok _ _ _ _ _ (get_editor_Ok _ _ _ Hed)).
  rewrite (bind_Ok _ _ _ _ _ (get_document_Ok _ _ _ Hd)).
  set (text := toPlainText d) in *.
  set (P := (length before + length line)%nat).
  assert (Hbounds : (length before ≤ p ≤ P)%nat)
    by (destruct Hline as (_ & _ & _ & _ & ?); subst P; lia).
  assert (Htext : text = before ++ line ++ after) by apply Hline.
  rewrite (positionInBlock_in_line _ _ _ _ _ Hline). fold p.
  unfold select_LineUnderCursor.
  rewrite (block_start_in_line _ _ _ _ _ Hline).
  rewrite (block_end_in_line _ _ _ _ _ Hline). fold P.
  set (cursor1 := {| anchor := length before; position := P |}).
  assert (Hline1 : cursor_in_line text (position cursor1) before line after)
    by (by eapply cursor_in_line_end).
  assert (Hselected : selectedText text cursor1 = line).
  { unfold selectedText, selectionStart, selectionEnd. simpl.
    rewrite Nat.min_l, Nat.max_r by lia. rewrite Htext.
    rewrite drop_app_length. subst P.
    replace (length before + length line - length before)%nat
      with (length line) by lia.
    by rewrite take_app_length. }
  rewrite Hselected.
  assert (Hcursor2 : movePosition EndOfBlock MoveAnchor 1 text cursor1
                     = {| anchor := P; position := P |}).
  { change (movePosition EndOfBlock MoveAnchor 1 text cursor1)
      with {| anchor := block_end text cursor1;
              position := block_end text cursor1 |}.
    by rewrite (block_end_in_line _ _ _ _ _ Hline1). }
  rewrite Hcursor2.
  destruct (cursor_insertText_editors w (document ed) d (newline :: line)
              {| anchor := P; position := P |} Hd)
    as (w1 & Hrun1 & Hdocs1 & Heds1).
  rewrite (bind_Ok _ _ _ _ _ Hrun1).
  unfold selectionStart, selectionEnd in Hdocs1. simpl in Hdocs1.
  rewrite Nat.min_id, Nat.max_id in Hdocs1. fold text in Hdocs1.
  assert (Htake : take P text = before ++ line).
  { rewrite Htext, app_assoc. apply take_app_length'. by rewrite length_app. }
  assert (Hdrop : drop P text = after).
  { rewrite Htext, app_assoc. apply drop_app_length'. by rewrite length_app. }
  rewrite Htake, Hdrop in Hdocs1.
  set (text1 := (before ++ line) ++ (newline :: line) ++ after) in *.
  set (d1 := with_toPlainText text1 d) in *.
  assert (Hd1 : documents w1 !! document ed = Some d1)
    by (rewrite Hdocs1; apply lookup_insert_eq).
  rewrite (bind_Ok _ _ _ _ _ (get_document_Ok _ _ _ Hd1)).
  change (toPlainText d1) with text1.
  change (selectionStart {| anchor := P; position := P |}) with (Nat.min P P).
  rewrite Nat.min_id. change (length (newline :: line)) with (S (length line)).
  change (setPosition (P + S (length line)) {| anchor := P; position := P |})
    with {| anchor := (P + S (length line))%nat;
            position := (P + S (length line))%nat |}.
  set (cursor3 := {| anchor := (P + S (length line))%nat;
                     position := (P + S (length line))%nat |}).
  assert (Htext1 : text1 = (before ++ line ++ [newline]) ++ line ++ after).
  { subst text1. by rewrite <- !app_assoc. }
  assert (Hlen : length (before ++ line ++ [newline]) = S P).
  { rewrite !length_app. simpl. subst P. lia. }
  assert (Hcopy : ∀ q, (S P ≤ q ≤ S P + length line)%nat →
            cursor_in_line text1 q (before ++ line ++ [newline]) line after).
  { intros q Hq. destruct Hline as (_ & Hnl & _ & Hafter & _).
    split_and!; [done|done| |done|lia|lia].
    right. exists (before ++ line). by rewrite <- app_assoc. }
  assert (Hcursor4 : movePosition StartOfBlock MoveAnchor 1 text1 cursor3
                     = {| anchor := S P; position := S P |}).
  { change (movePosition StartOfBlock MoveAnchor 1 text1 cursor3)
      with {| anchor := block_start text1 cursor3;
              position := block_start text1 cursor3 |}.
    rewrite (block_start_in_line text1 (before ++ line ++ [newline]) line
               after cursor3); [by rewrite Hlen|].
    apply Hcopy. simpl. lia. }
  rewrite Hcursor4.
  assert (Hcursor5 :
            movePosition Right MoveAnchor (Z.of_nat (p - length before)) text1
              {| anchor := S P; position := S P |}
            = {| anchor := (p + S (length line))%nat;
                 position := (p + S (length line))%nat |}).
  { unfold movePosition. rewrite Nat2Z.id, move_right_iter.
    - f_equal; subst P; lia.
    - rewrite Htext1, (length_app (before ++ line ++ [newline])), Hlen,
        length_app. lia. }
  rewrite Hcursor5.
  assert (Hsome : is_Some (editors w1 !! self))
    by (rewrite Heds1, Hed; by eexists).
  destruct Hsome as [ed1 Hed1].
  rewrite (modify_editor_Ok _ _ _ _ Hed1).
  eexists _, _, d1. split; [reflexivity|]. simpl. rewrite lookup_insert_eq.
  split; [reflexivity|]. split; [done|].
  assert (Hfinal : cursor_in_line text1 (p + S (length line))
                     (before ++ line ++ [newline]) line after)
    by (apply Hcopy; subst P; lia).
  split_and!.
  - by rewrite Htext1, <- !app_assoc.
  - by destruct ed1.
  - replace (textCursor (with_textCursor _ ed1))
      with {| anchor := (p + S (length line))%nat;
              position := (p + S (length line))%nat |} by (by destruct ed1).
    exact Hfinal.
  - replace (textCursor (with_textCursor _ ed1))
      with {| anchor := (p + S (length line))%nat;
              position := (p + S (length line))%nat |} by (by destruct ed1).
    rewrite (positionInBlock_in_line text1 (before ++ line ++ [newline])
               line after
               {| anchor := (p + S (length line))%nat;
                  position := (p + S (length line))%nat |} Hfinal).
    simpl. rewrite Hlen. subst P. lia.
Qed.

End duplicate_line_correct.

(** ** Visible blocks *)

(** X3. Each entry of [_visible_blocks] is a visible block that lies within the
    widget, recorded with its own number, and its top is the top of the first
    block plus the heights of the blocks before it. *)
Theorem visible_blocks_lie_within_the_widget
    (blocks : list QTextBlock) (top height : Z) :
  ∀ t n block, (t, n, block) ∈ _update_visible_blocks blocks top height →
    n = blockNumber block ∧
    isVisible block = true ∧
    fits height t block ∧
    ∃ above below,
      blocks = above ++ block :: below ∧
      t = (top + total_height above)%Z.
Proof.
  revert top. induction blocks as [|b blocks IH]; intros top t n block Hin.
  - by apply elem_of_nil in Hin.
  - simpl in Hin.
    destruct ((0 <=? top)%Z && (top + block_height b <=? height)%Z) eqn:Hfits;
      [|by apply elem_of_nil in Hin].
    apply andb_true_iff in Hfits as [Htop Hbottom].
    apply Z.leb_le in Htop, Hbottom.
    apply elem_of_app in Hin as [Hin|Hin].
    + destruct (isVisible b) eqn:Hvis; [|by apply elem_of_nil in Hin].
      apply list_elem_of_singleton in Hin. injection Hin as -> -> ->.
      split_and!; [done|done|done|]. exists [], blocks. simpl.
      split; [done|lia].
    + destruct (IH _ _ _ _ Hin) as (Hn & Hvis & Hfit & above & below & -> & ->).
      split_and!; [done..|]. exists (b :: above), below. simpl.
      split; [done|lia].
Qed.

(** X4. The loop stops at the first block that does not lie within the widget:
    the entries are the visible blocks among those before it, in order, and
    no block after it is recorded. *)
Theorem visible_blocks_stop_at_the_first_misfit
    (blocks : list QTextBlock) (top height : Z) :
  ∃ shown rest,
    blocks = shown ++ rest ∧
    (_update_visible_blocks blocks top height).*2 = filter (λ b, isVisible b = true) shown ∧
    (∀ above block below, shown = above ++ block :: below →
       fits height (top + total_height above) block) ∧
    match rest with
    | [] => True
    | block :: _ => ¬ fits height (top + total_height shown) block
    end.
Proof.
  revert top. induction blocks as [|b blocks IH]; intros top.
  - exists [], []. split_and!; [done|done| |done].
    intros above block below Habs. by destruct above.
  - simpl.
    destruct ((0 <=? top)%Z && (top + block_height b <=? height)%Z) eqn:Hfits.
    + apply andb_true_iff in Hfits as [Htop Hbottom].
      apply Z.leb_le in Htop, Hbottom.
      destruct (IH (top + block_height b)%Z)
        as (shown & rest & -> & Hentries & Hshown & Hrest).
      exists (b :: shown), rest. split_and!.
      * done.
      * rewrite fmap_app, Hentries, filter_cons.
        destruct (isVisible b); by case_decide.
      * intros above block below Heq. destruct above as [|a above].
        -- simpl in *. injection Heq as <- _. unfold fits.
           rewrite Z.add_0_r. lia.
        -- simpl in Heq. injection Heq as <- ->. simpl.
           rewrite Z.add_assoc. by eapply Hshown.
      * destruct rest; [done|]. simpl. by rewrite Z.add_assoc.
    + exists [], (b :: blocks). split_and!; [done|done| |].
      * intros above block below Habs. by destruct above.
      * simpl. unfold fits. rewrite Z.add_0_r.
        apply andb_false_iff in Hfits as [Hf|Hf]; apply Z.leb_gt in Hf; lia.
Qed.

(** ** The context menu *)

Lemma index_first (x : nat) (l1 l2 : list nat) :
  x ∉ l1 → ContextMenu.index x (l1 ++ x :: l2) = Some (length l1).
Proof.
  induction l1 as [|y l1 IH]; intros Hnotin; simpl.
  - by rewrite decide_True.
  - apply not_elem_of_cons in Hnotin as [Hne Hnotin].
    rewrite decide_False by done. by rewrite IH.
Qed.

Lemma index_absent (x : nat) (l : list nat) :
  x ∉ l → ContextMenu.index x l = None.
Proof.
  induction l as [|y l IH]; intros Hnotin; simpl; [done|].
  apply not_elem_of_cons in Hnotin as [Hne Hnotin].
  rewrite decide_False by done. by rewrite IH.
Qed.

Lemma remove_first (x : nat) (l1 l2 : list nat) :
  x ∉ l1 → ContextMenu.remove x (l1 ++ x :: l2) = Some (l1 ++ l2).
Proof.
  induction l1 as [|y l1 IH]; intros Hnotin; simpl.
  - by rewrite decide_True.
  - apply not_elem_of_cons in Hnotin as [Hne Hnotin].
    rewrite decide_False by done. by rewrite IH.
Qed.

Lemma remove_absent (x : nat) (l : list nat) :
  x ∉ l → ContextMenu.remove x l = None.
Proof.
  induction l as [|y l IH]; intros Hnotin; simpl; [done|].
  apply not_elem_of_cons in Hnotin as [Hne Hnotin].
  rewrite decide_False by done. by rewrite IH.
Qed.

(** The first occurrence of an element of a list. *)
Lemma first_occurrence (x : nat) (l : list nat) :
  x ∈ l → ∃ l1 l2, l = l1 ++ x :: l2 ∧ x ∉ l1.
Proof.
  induction l as [|y l IH]; intros Hin; [by apply elem_of_nil in Hin|].
  destruct (decide (y = x)) as [->|Hne].
  - exists [], l. split; [done|apply not_elem_of_nil].
  - apply elem_of_cons in Hin as [->|Hin]; [done|].
    destruct (IH Hin) as (l1 & l2 & -> & Hnotin).
    exists (y :: l1), l2. split; [done|].
    apply not_elem_of_cons. by split.
Qed.

(** X5. [insert_action(action, prev_action)] puts the action directly before
    the first occurrence of [prev_action] and changes nothing else; when
    [prev_action] is not in the menu it raises [ValueError]. *)
Theorem insert_action_goes_before_prev_action
    (action prev_action : ContextMenu.QAction) (self : ContextMenu.t) :
  (prev_action ∈ ContextMenu._actions self →
   ∃ l1 l2,
     ContextMenu._actions self = l1 ++ prev_action :: l2 ∧
     (prev_action ∉ l1) ∧
     ContextMenu.insert_action action prev_action self
     = ContextMenu.Returns
         {| ContextMenu._actions := l1 ++ action :: prev_action :: l2;
            ContextMenu._menus := ContextMenu._menus self;
            ContextMenu.created := ContextMenu.created self |}) ∧
  (prev_action ∉ ContextMenu._actions self →
   ContextMenu.insert_action action prev_action self
   = ContextMenu.Raises ContextMenu.ValueError).
Proof.
  unfold ContextMenu.insert_action. split.
  - intros Hin. destruct (first_occurrence _ _ Hin) as (l1 & l2 & Hl & Hnotin).
    exists l1, l2. split_and!; [done..|].
    rewrite Hl, index_first by done.
    by rewrite take_app_length, drop_app_length.
  - intros Hnotin. by rewrite index_absent.
Qed.

(** X6. [remove_action(action)] takes the first occurrence of the action out of
    the menu and raises [ValueError] when there is none; it undoes an
    [add_action] of an action that was not in the menu. *)
Theorem remove_action_undoes_add_action
    (action : ContextMenu.QAction) (self : ContextMenu.t) :
  (action ∉ ContextMenu._actions self →
   ContextMenu.remove_action (Some action) self
   = ContextMenu.Raises ContextMenu.ValueError ∧
   ContextMenu.remove_action (Some action)
     (ContextMenu.add_action action self) = ContextMenu.Returns self) ∧
  (∀ l1 l2,
     ContextMenu._actions self = l1 ++ action :: l2 → action ∉ l1 →
     ContextMenu.remove_action (Some action) self
     = ContextMenu.Returns
         {| ContextMenu._actions := l1 ++ l2;
            ContextMenu._menus := ContextMenu._menus self;
            ContextMenu.created := ContextMenu.created self |}).
Proof.
  unfold ContextMenu.remove_action, ContextMenu.add_action. split.
  - intros Hnotin. split; [by rewrite remove_absent|]. simpl.
    rewrite remove_first, app_nil_r by done. by destruct self.
  - intros l1 l2 Hl Hnotin. by rewrite Hl, remove_first.
Qed.

(** ** [CaseConverterMode] *)

Lemma case_converter_disable_after_enable
    (flag : bool) (acts : list nat) (menus : list nat) (m sep lower upper : nat) :
  lower ∉ acts → upper ∉ acts → sep ∉ acts →
  lower ≠ sep → upper ≠ sep →
  CaseConverter.on_state_changed false
    {| CaseConverter._actions_created := flag;
       CaseConverter.action_to_lower := Some lower;
       CaseConverter.action_to_upper := Some upper;
       CaseConverter.separator := Some sep |}
    {| ContextMenu._actions := ((acts ++ [sep]) ++ [lower]) ++ [upper];
       ContextMenu._menus := menus;
       ContextMenu.created := m |}
  = ContextMenu.Returns
      ({| CaseConverter._actions_created := flag;
          CaseConverter.action_to_lower := Some lower;
          CaseConverter.action_to_upper := Some upper;
          CaseConverter.separator := Some sep |},
       {| ContextMenu._actions := acts;
          ContextMenu._menus := menus;
          ContextMenu.created := m |}).
Proof.
  intros Hlower Hupper Hsep Hls Hus.
  assert (Hnotin : ∀ x, x ∉ acts → x ≠ sep → x ∉ acts ++ [sep]).
  { intros x Hx Hne [Hin|Hin%list_elem_of_singleton]%elem_of_app; done. }
  unfold CaseConverter.on_state_changed, ContextMenu.remove_action. simpl.
  replace (((acts ++ [sep]) ++ [lower]) ++ [upper])
    with ((acts ++ [sep]) ++ lower :: [upper]) by (by rewrite <- !app_assoc).
  rewrite remove_first by auto. simpl.
  rewrite (remove_first upper (acts ++ [sep]) []) by auto. simpl.
  rewrite app_nil_r.
  rewrite (remove_first sep acts []) by auto. simpl.
  by rewrite app_nil_r.
Qed.

(** X7. Enabling a [CaseConverterMode] appends a new separator and the two
    actions of the mode to the menu of the editor; disabling it afterwards
    leaves the menu as it was before. The two actions are created on the
    first enabling only. *)
Theorem case_converter_enable_then_disable
    (mode : CaseConverter.Mode) (editor : ContextMenu.t) :
  ContextMenu.well_formed editor →
  CaseConverter.disabled_on mode editor →
  ∃ mode1 editor1 editor2 sep lower upper,
    CaseConverter.on_state_changed true mode editor
    = ContextMenu.Returns (mode1, editor1) ∧
    CaseConverter.separator mode1 = Some sep ∧
    CaseConverter.action_to_lower mode1 = Some lower ∧
    CaseConverter.action_to_upper mode1 = Some upper ∧
    ContextMenu._actions editor1
    = ContextMenu._actions editor ++ [sep; lower; upper] ∧
    (CaseConverter._actions_created mode = true →
     CaseConverter.action_to_lower mode = Some lower ∧
     CaseConverter.action_to_upper mode = Some upper) ∧
    CaseConverter.on_state_changed false mode1 editor1
    = ContextMenu.Returns (mode1, editor2) ∧
    ContextMenu._actions editor2 = ContextMenu._actions editor ∧
    ContextMenu._menus editor2 = ContextMenu._menus editor ∧
    ContextMenu.well_formed editor2 ∧
    CaseConverter.disabled_on mode1 editor2.
Proof.
  intros Hwf Hdisabled.
  destruct mode as [created_flag lower0 upper0 sep0].
  destruct editor as [acts menus n].
  unfold CaseConverter.disabled_on, ContextMenu.well_formed in *. simpl in *.
  assert (Hfresh : ∀ a, (n ≤ a)%nat → a ∉ acts).
  { intros a Ha Hin. apply Hwf in Hin. lia. }
  destruct created_flag; simpl.
  - destruct Hdisabled as (lower & upper & -> & -> & Hne & Hl & Hu & Hln & Hun).
    simpl.
    exists {| CaseConverter._actions_created := true;
              CaseConverter.action_to_lower := Some lower;
              CaseConverter.action_to_upper := Some upper;
              CaseConverter.separator := Some n |},
           {| ContextMenu._actions := ((acts ++ [n]) ++ [lower]) ++ [upper];
              ContextMenu._menus := menus;
              ContextMenu.created := S n |},
           {| ContextMenu._actions := acts;
              ContextMenu._menus := menus;
              ContextMenu.created := S n |},
           n, lower, upper.
    split_and!; try done.
    + simpl. by rewrite <- !app_assoc.
    + apply case_converter_disable_after_enable;
        [done|done|apply Hfresh; lia|lia|lia].
    + simpl. intros a Ha. apply Hwf in Ha. lia.
    + simpl. exists lower, upper. split_and!; [done..|lia|lia|done|done].
  - exists {| CaseConverter._actions_created := true;
              CaseConverter.action_to_lower := Some n;
              CaseConverter.action_to_upper := Some (S n);
              CaseConverter.separator := Some (S (S n)) |},
           {| ContextMenu._actions := ((acts ++ [S (S n)]) ++ [n]) ++ [S n];
              ContextMenu._menus := menus;
              ContextMenu.created := S (S (S n)) |},
           {| ContextMenu._actions := acts;
              ContextMenu._menus := menus;
              ContextMenu.created := S (S (S n)) |},
           (S (S n)), n, (S n).
    split_and!; try done.
    + simpl. by rewrite <- !app_assoc.
    + apply case_converter_disable_after_enable;
        [apply Hfresh; lia|apply Hfresh; lia|apply Hfresh; lia|lia|lia].
    + simpl. intros a Ha. apply Hwf in Ha. lia.
    + simpl. exists n, (S n).
      split_and!; [done|done|lia|lia|lia|apply Hfresh; lia|apply Hfresh; lia].
Qed.

(** Disabling a [CaseConverterMode] that was never enabled raises
    [ValueError]: its actions are still [None], which the menu does not
    contain. *)
Theorem case_converter_disable_first_raises (editor : ContextMenu.t) :
  CaseConverter.on_state_changed false CaseConverter.init editor
  = ContextMenu.Raises ContextMenu.ValueError.
Proof. reflexivity. Qed.

(** ** Zooming in and out again *)

Lemma with_zoom_level_twice z z' ed :
  with_zoom_level z (with_zoom_level z' ed) = with_zoom_level z ed.
Proof. by destruct ed. Qed.

Lemma with_zoom_level_same ed : with_zoom_level (_zoom_level ed) ed = ed.
Proof. by destruct ed. Qed.

(** X8. [zoom_in(n)] followed by [zoom_out(n)] gives back the zoom level, so that
    the two calls together amount to one [_reset_stylesheet()], provided
    the font size in effect was at least 1 to begin with. [zoom_out(n)]
    followed by [zoom_in(n)] never leaves a smaller zoom level than before,
    and a larger one exactly when [zoom_out] had to hold the font size
    at 1; the font of the widget then has the points of font size plus
    zoom level when that sum is positive, and the default size of the
    system otherwise. *)
Theorem zoom_round_trips
    (w : world) (self : editor_id) (ed : CodeEdit) (n : Z) :
  editors w !! self = Some ed →
  ((1 ≤ _font_size ed + _zoom_level ed)%Z →
   (zoom_in self n;; zoom_out self n) w = _reset_stylesheet self w) ∧
  ∃ w' ed',
    (zoom_out self n;; zoom_in self n) w = Ok (tt, w') ∧
    editors w' !! self = Some ed' ∧
    _zoom_level ed'
    = Z.max (_zoom_level ed) (1 - _font_size ed + n) ∧
    _font_size ed' = _font_size ed ∧
    pointSize (font ed')
    = if decide (0 < _font_size ed' + _zoom_level ed')%Z
      then Points (_font_size ed' + _zoom_level ed')
      else DefaultSize.
Proof.
  intros Hed. split.
  - intros Hsize.
    unfold zoom_in, zoom_out, set_zoom_level, _reset_stylesheet.
    rewrite (modify_editor_Ok _ _ _ _ Hed).
    repeat step. destruct ed; simpl in *.
    rewrite decide_False by lia. repeat step. simpl.
    rewrite !insert_insert_eq.
    by replace (_zoom_level0 + n - n)%Z with _zoom_level0 by lia.
  - unfold zoom_in, zoom_out, set_zoom_level, _reset_stylesheet.
    repeat step. destruct ed; simpl. case_decide.
    + repeat step. eexists _, _. split; [reflexivity|]. simpl.
      rewrite lookup_insert_eq. split; [reflexivity|]. simpl.
      split_and!; [lia|done|done].
    + repeat step. eexists _, _. split; [reflexivity|]. simpl.
      rewrite lookup_insert_eq. split; [reflexivity|]. simpl.
      split_and!; [lia|done|done].
Qed.

(** ** What a propagating setter changes and what it leaves *)

Section synced_setter_invariant.
Context {V : Type}.
Variable normalise : V → V.
Variable assign : V → CodeEdit → CodeEdit.
Variable refresh : editor_id → V → M unit.

(** [related v w w'] relates the store before and after each part of a run of
    the setter with the value [v]; [visited v w e] is what the setter
    establishes for each editor [e] it assigns to. *)
Variable related : V → world → world → Prop.
Variable visited : V → world → editor_id → Prop.

Hypothesis normalise_idem : ∀ v, normalise (normalise v) = normalise v.
Hypothesis related_refl : ∀ v w, related v w w.
Hypothesis related_trans :
  ∀ v w1 w2 w3, related v w1 w2 → related v w2 w3 → related v w1 w3.
Hypothesis related_shape : ∀ v w w', related v w w' → same_shape w w'.
Hypothesis visited_stable :
  ∀ v w w' e, related v w w' → visited v w e → visited v w' e.
Hypothesis local_step :
  ∀ rank w self v, clone_tree rank w → is_Some (editors w !! self) →
    ∃ w', (modify_editor self (assign v);; refresh self v) w = Ok (tt, w') ∧
          related v w w' ∧ visited v w' self.

Lemma for_each_clone_invariant (setter : editor_id → V → M unit) rank bound v :
  (∀ w c, clone_tree rank w → is_Some (editors w !! c) →
          (rank c < bound)%nat →
          ∃ w', setter c v w = Ok (tt, w') ∧ related v w w' ∧ visited v w' c) →
  ∀ (l : list editor_id) w,
    clone_tree rank w →
    (∀ c, c ∈ l → is_Some (editors w !! c) ∧ (rank c < bound)%nat) →
    ∃ w', for_each l (λ c, setter c v) w = Ok (tt, w') ∧
          related v w w' ∧
          ∀ c, c ∈ l → visited v w' c.
Proof.
  intros Hsetter l. induction l as [|c l IH]; intros w Htree Hl.
  - exists w. split_and!; [done|apply related_refl|].
    intros c Hc. by apply elem_of_nil in Hc.
  - destruct (Hl c) as [Hc Hrank]; [by left|].
    destruct (Hsetter w c Htree Hc Hrank) as (w1 & Hrun1 & Hrel1 & Hc1).
    destruct (IH w1) as (w2 & Hrun2 & Hrel2 & Hl2).
    { eapply clone_tree_same_shape; [by eapply related_shape|done]. }
    { intros c' Hc'. destruct (Hl c') as [Hsome Hlt]; [by right|].
      split; [|done].
      eapply same_shape_is_Some; [by eapply related_shape|done]. }
    exists w2. split_and!.
    + simpl. by rewrite (bind_Ok _ _ _ _ _ Hrun1).
    + by eapply related_trans.
    + intros c' [->|Hc']%elem_of_cons; [|by apply Hl2].
      by eapply visited_stable.
Qed.

Lemma synced_setter_invariant rank depth :
  ∀ w self value,
    clone_tree rank w → is_Some (editors w !! self) →
    (rank self < depth)%nat →
    ∃ w', synced_setter normalise assign refresh depth self value w
            = Ok (tt, w') ∧
          related (normalise value) w w' ∧
          visited (normalise value) w' self ∧
          ∀ ed c, editors w !! self = Some ed → c ∈ clones ed →
                  visited (normalise value) w' c.
Proof.
  induction depth as [|depth IH]; intros w self value Htree [ed Hed] Hrank;
    [lia|].
  set (v := normalise value).
  destruct (local_step rank w self v Htree) as (w2 & Hrun2 & Hrel2 & Hself2);
    [by eexists|].
  assert (Hshape2 : same_shape w w2) by (by eapply related_shape).
  assert (Htree2 : clone_tree rank w2) by (by eapply clone_tree_same_shape).
  destruct (same_shape_lookup w w2 self ed Hshape2 Hed)
    as (ed2 & Hed2 & Hcl2 & _).
  destruct (for_each_clone_invariant
              (synced_setter normalise assign refresh depth) rank depth v)
    with (l := clones ed2) (w := w2) as (w3 & Hrun3 & Hrel3 & Hclones3).
  { intros w' c Htree' Hc Hlt.
    destruct (IH w' c v Htree' Hc Hlt) as (w'' & Hrun & Hrel & Hc' & _).
    subst v. rewrite normalise_idem in Hrel, Hc'. eauto. }
  { done. }
  { intros c Hc. destruct (Htree2 self ed2 Hed2) as [_ Hcl].
    destruct (Hcl c Hc). split; [done|lia]. }
  exists w3. split_and!.
  - simpl. fold v. rewrite <- bind_bind.
    rewrite (bind_Ok _ _ _ _ _ Hrun2).
    by rewrite (bind_Ok _ _ _ _ _ (get_editor_Ok _ _ _ Hed2)).
  - by eapply related_trans.
  - by eapply visited_stable.
  - intros ed' c Hed' Hc. apply Hclones3. rewrite Hcl2.
    by replace ed with ed' by congruence.
Qed.

End synced_setter_invariant.

Lemma untouched_refl {T : Type} (obs : CodeEdit → T) w : untouched obs w w.
Proof. by intros e. Qed.

Lemma untouched_trans {T : Type} (obs : CodeEdit → T) w1 w2 w3 :
  untouched obs w1 w2 → untouched obs w2 w3 → untouched obs w1 w3.
Proof. intros H1 H2 e. by rewrite H2. Qed.

Section evolves.
Context {V : Type}.
Variable A : CodeEdit → V.
Variable independent : ∀ T : Type, (CodeEdit → T) → Prop.

Lemma evolves_refl v w : evolves A v independent w w.
Proof. split_and!; [apply settled_refl|intros; apply untouched_refl|done]. Qed.

Lemma evolves_trans v w1 w2 w3 :
  evolves A v independent w1 w2 → evolves A v independent w2 w3 →
  evolves A v independent w1 w3.
Proof.
  intros (Hs1 & Hu1 & Hd1) (Hs2 & Hu2 & Hd2). split_and!.
  - by eapply settled_trans.
  - intros T obs Hobs. eapply untouched_trans; eauto.
  - intros d. by rewrite Hd2.
Qed.

Lemma evolves_shape v w w' : evolves A v independent w w' → same_shape w w'.
Proof. by intros ([? _] & _). Qed.

Lemma evolves_holds v w w' e :
  evolves A v independent w w' → holds A v w e → holds A v w' e.
Proof. intros (Hs & _). by apply settled_holds. Qed.

(** One editor is replaced by [g] of it. *)
Lemma editor_update_evolves v w self ed (g : CodeEdit → CodeEdit) :
  editors w !! self = Some ed →
  clones (g ed) = clones ed → document (g ed) = document ed →
  A (g ed) = v →
  (∀ (T : Type) (obs : CodeEdit → T), independent T obs → obs (g ed) = obs ed) →
  let w' := {| editors := <[self := g ed]> (editors w);
               documents := documents w;
               QToolTip := QToolTip w |} in
  evolves A v independent w w' ∧ holds A v w' self.
Proof.
  intros Hed Hcl Hdoc HA Hobs w'. split; [split_and!|].
  - split; [by apply modify_editor_shape|].
    intros e. subst w'; unfold holds; simpl.
    destruct (decide (self = e)) as [<-|].
    + right. by rewrite lookup_insert_eq; simpl; rewrite HA.
    + left. by rewrite lookup_insert_ne.
  - intros T obs Hind e. subst w'; simpl.
    destruct (decide (self = e)) as [<-|].
    + by rewrite lookup_insert_eq, Hed; simpl; rewrite Hobs.
    + by rewrite lookup_insert_ne.
  - done.
  - subst w'; unfold holds; simpl.
    by rewrite lookup_insert_eq; simpl; rewrite HA.
Qed.

(** The flags of one document change. *)
Lemma document_flags_evolves v w doc d flag :
  documents w !! doc = Some d →
  evolves A v independent w
    {| editors := editors w;
       documents := <[doc := with_ShowTabsAndSpaces flag d]> (documents w);
       QToolTip := QToolTip w |}.
Proof.
  intros Hd. split_and!.
  - split; [by apply modify_document_shape|by left].
  - by intros T obs _ e.
  - intros d'. simpl. destruct (decide (doc = d')) as [<-|].
    + by rewrite lookup_insert_eq, Hd.
    + by rewrite lookup_insert_ne.
Qed.

End evolves.

Lemma restyles_refl w : restyles w w.
Proof. by left. Qed.

Lemma restyles_trans w1 w2 w3 : restyles w1 w2 → restyles w2 w3 → restyles w1 w3.
Proof.
  intros H1 H2 e. destruct (H2 e) as [Heq|Hstyled]; [|by right].
  destruct (H1 e) as [Heq'|(ed & Hed & Hstyled)]; [left; congruence|right].
  exists ed. split; [congruence|done].
Qed.

Lemma restyles_styled_at w w' e : restyles w w' → styled_at w e → styled_at w' e.
Proof.
  intros Hre (ed & Hed & Hstyled). destruct (Hre e) as [Heq|]; [|done].
  exists ed. split; [congruence|done].
Qed.

Lemma reset_stylesheet_styled ed :
  styled
    (with_palette
       {| Base := _background ed;
          Text := _foreground ed;
          Highlight := _sel_background ed;
          HighlightedText := _sel_foreground ed |}
       (with_font
          (QtGui_QFont (_font_family ed) (_font_size ed + _zoom_level ed))
          ed)).
Proof. by destruct ed. Qed.

(** The setters without a refresh step. *)
Lemma plain_setter_evolves {V : Type} (normalise : V → V) assign
    (A : CodeEdit → V) rank depth w self ed value :
  (∀ v, normalise (normalise v) = normalise v) →
  (∀ v ed, A (assign v ed) = v) →
  ignores assign clones → ignores assign document →
  clone_tree rank w → editors w !! self = Some ed → (rank self < depth)%nat →
  ∃ w', synced_setter normalise assign no_refresh depth self value w
          = Ok (tt, w') ∧
        evolves A (normalise value) (λ T obs, ignores assign obs) w w' ∧
        holds A (normalise value) w' self ∧
        ∀ c, c ∈ clones ed → holds A (normalise value) w' c.
Proof.
  intros Hidem HA Hcl Hdoc Htree Hed Hdepth.
  set (related := λ v, evolves A v (λ T obs, ignores assign obs)).
  set (visited := λ v w e, holds A v w e).
  assert (Hrefl : ∀ v w, related v w w) by (intros; apply evolves_refl).
  assert (Htrans : ∀ v w1 w2 w3,
             related v w1 w2 → related v w2 w3 → related v w1 w3)
    by (intros v w1 w2 w3; apply evolves_trans).
  assert (Hshape : ∀ v w w', related v w w' → same_shape w w')
    by (intros v w1 w2; apply evolves_shape).
  assert (Hstable : ∀ v w w' e,
             related v w w' → visited v w e → visited v w' e)
    by (intros v w1 w2 e; apply evolves_holds).
  assert (Hlocal : ∀ (rank : editor_id → nat) w self v,
             clone_tree rank w → is_Some (editors w !! self) →
             ∃ w', (modify_editor self (assign v);; no_refresh self v) w
                     = Ok (tt, w') ∧
                   related v w w' ∧ visited v w' self).
  { intros rank' w0 e v _ [ed0 Hed0].
    destruct (editor_update_evolves A (λ T obs, ignores assign obs) v w0 e ed0
                (assign v)) as [Hev Hholds]; try done.
    eexists. split; [|by split].
    by rewrite (bind_Ok _ _ _ _ _ (modify_editor_Ok _ _ _ _ Hed0)). }
  destruct (synced_setter_invariant normalise assign no_refresh related
              visited Hidem Hrefl Htrans Hshape Hstable Hlocal rank depth w
              self value Htree (ex_intro _ ed Hed) Hdepth)
    as (w' & Hrun & Hev & Hself & Hclones).
  exists w'. split_and!; [done..|]. intros c Hc. by eapply Hclones.
Qed.

(** The setters that end with [_reset_stylesheet()]. *)
Lemma restyling_setter_evolves {V : Type} (normalise : V → V) assign
    (A : CodeEdit → V) rank depth w self ed value :
  (∀ v, normalise (normalise v) = normalise v) →
  (∀ v ed, A (assign v ed) = v) →
  ignores assign clones → ignores assign document →
  ignores_style A →
  clone_tree rank w → editors w !! self = Some ed → (rank self < depth)%nat →
  ∃ w', synced_setter normalise assign (λ self _, _reset_stylesheet self)
          depth self value w = Ok (tt, w') ∧
        evolves A (normalise value)
          (λ T obs, ignores assign obs ∧ ignores_style obs) w w' ∧
        restyles w w' ∧
        (holds A (normalise value) w' self ∧ styled_at w' self) ∧
        ∀ c, c ∈ clones ed →
             holds A (normalise value) w' c ∧ styled_at w' c.
Proof.
  intros Hidem HA Hcl Hdoc Hstyle Htree Hed Hdepth.
  set (independent := λ (T : Type) (obs : CodeEdit → T),
                        ignores assign obs ∧ ignores_style obs).
  set (related := λ v w w', evolves A v independent w w' ∧ restyles w w').
  set (visited := λ v w e, holds A v w e ∧ styled_at w e).
  assert (Hrefl : ∀ v w, related v w w)
    by (intros; split; [apply evolves_refl|apply restyles_refl]).
  assert (Htrans : ∀ v w1 w2 w3,
             related v w1 w2 → related v w2 w3 → related v w1 w3).
  { intros v w1 w2 w3 [? ?] [? ?].
    split; [by eapply evolves_trans|by eapply restyles_trans]. }
  assert (Hshape : ∀ v w w', related v w w' → same_shape w w')
    by (intros v w1 w2 [? _]; by eapply evolves_shape).
  assert (Hstable : ∀ v w w' e,
             related v w w' → visited v w e → visited v w' e).
  { intros v w1 w2 e [? ?] [? ?].
    split; [by eapply evolves_holds|by eapply restyles_styled_at]. }
  assert (Hlocal : ∀ (rank : editor_id → nat) w self v,
             clone_tree rank w → is_Some (editors w !! self) →
             ∃ w', (modify_editor self (assign v);; _reset_stylesheet self) w
                     = Ok (tt, w') ∧
                   related v w w' ∧ visited v w' self).
  { intros rank' w0 e v _ [ed0 Hed0]. unfold _reset_stylesheet.
    rewrite (bind_Ok _ _ _ _ _ (modify_editor_Ok _ _ _ _ Hed0)).
    erewrite modify_editor_Ok; [|simpl; apply lookup_insert_eq].
    simpl. rewrite insert_insert_eq.
    match goal with
    | |- context [<[e := ?restyled]> (editors w0)] => set (ed1 := restyled)
    end.
    assert (Hstyled : styled ed1) by apply reset_stylesheet_styled.
    destruct (editor_update_evolves A independent v w0 e ed0 (λ _, ed1) Hed0)
      as [Hev Hholds].
    { subst ed1. rewrite <- (Hcl v ed0). by destruct (assign v ed0). }
    { subst ed1. rewrite <- (Hdoc v ed0). by destruct (assign v ed0). }
    { subst ed1. by rewrite Hstyle. }
    { intros T obs [Hobs Hobs']. subst ed1. rewrite Hobs'. apply Hobs. }
    eexists. split; [reflexivity|].
    split; [split; [exact Hev|]|split; [exact Hholds|]].
    + intros e'. simpl. destruct (decide (e = e')) as [<-|].
      * right. exists ed1. simpl. by rewrite lookup_insert_eq.
      * left. simpl. by rewrite lookup_insert_ne.
    + exists ed1. simpl. by rewrite lookup_insert_eq. }
  destruct (synced_setter_invariant normalise assign
              (λ self _, _reset_stylesheet self) related visited Hidem Hrefl
              Htrans Hshape Hstable Hlocal rank depth w self value Htree
              (ex_intro _ ed Hed) Hdepth)
    as (w' & Hrun & [Hev Hre] & Hself & Hclones).
  exists w'. split; [exact Hrun|]. split; [exact Hev|]. split; [exact Hre|].
  split; [exact Hself|]. intros c Hc. by eapply Hclones.
Qed.

(** ** What a restyling setter shows, and what a plain one does not *)

(** X9. [editor.font_size = size] on an editor of a well-formed store
    returns; the editor and each of its clones then has the font size
    [size], and the font of its widget is [QFont(family, size + zoom)] for
    the zoom level of that view, which the assignment has not changed: it
    has [size + zoom] points when that sum is positive and the default size
    of the system otherwise. *)
Theorem font_size_reaches_every_view rank depth w self ed size :
  clone_tree rank w → editors w !! self = Some ed → (rank self < depth)%nat →
  ∃ w', set_font_size depth self size w = Ok (tt, w') ∧
        ∀ e, e = self ∨ e ∈ clones ed →
             ∃ ed', editors w' !! e = Some ed' ∧
                    _font_size ed' = size ∧
                    pointSize (font ed')
                    = (if decide (0 < size + _zoom_level ed')%Z
                       then Points (size + _zoom_level ed')
                       else DefaultSize) ∧
                    _zoom_level <$> editors w !! e = Some (_zoom_level ed').
Proof.
  intros Htree Hed Hdepth.
  destruct (restyling_setter_evolves id with_font_size _font_size rank depth
              w self ed size)
    as (w' & Hrun & (_ & Hkept & _) & _ & Hself & Hclones); try done.
  { by intros v []. }
  { by intros v []. }
  { by intros v []. }
  { by intros fnt pal []. }
  exists w'. split; [exact Hrun|]. intros e He.
  assert (Hvisited : holds _font_size size w' e ∧ styled_at w' e)
    by (destruct He as [->|He]; [exact Hself|by apply Hclones]).
  destruct Hvisited as [Hholds (ed' & Hed' & Hfont & _)].
  exists ed'. unfold holds in Hholds. rewrite Hed' in Hholds.
  injection Hholds as Hsize. split_and!; [done|done|by rewrite Hfont, Hsize|].
  rewrite <- (Hkept Z _zoom_level), Hed'; [done|].
  split; [by intros v []|by intros fnt pal []].
Qed.

Lemma font_size_reaches_every_view_witness :
  ∃ w', set_font_size 3 0%nat 12 split_views = Ok (tt, w') ∧
        ∀ e, e = 0%nat ∨ e ∈ [1%nat] →
             ∃ ed', editors w' !! e = Some ed' ∧
                    _font_size ed' = 12%Z ∧
                    pointSize (font ed')
                    = (if decide (0 < 12 + _zoom_level ed')%Z
                       then Points (12 + _zoom_level ed')
                       else DefaultSize) ∧
                    _zoom_level <$> editors split_views !! e
                    = Some (_zoom_level ed').
Proof.
  apply (font_size_reaches_every_view split_views_rank 3 split_views 0%nat
           (with_clones [1%nat] (new_CodeEdit 0 0)) 12%Z).
  - apply clone_tree_check_correct. unfold clone_tree_check.
    apply (bool_decide_unpack _). vm_compute. exact I.
  - reflexivity.
  - simpl. lia.
Defined.

(** X10. [editor.background = colour] on an editor of a well-formed store
    returns; the palette of the editor and of each of its clones then has
    the base colour [colour], no document has another text and every editor
    has the font size, the zoom level and the clones it had. *)
Theorem background_reaches_every_palette rank depth w self ed colour :
  clone_tree rank w → editors w !! self = Some ed → (rank self < depth)%nat →
  ∃ w', set_background depth self colour w = Ok (tt, w') ∧
        (∀ e, e = self ∨ e ∈ clones ed →
              ∃ ed', editors w' !! e = Some ed' ∧
                     _background ed' = colour ∧
                     Base (palette ed') = colour) ∧
        untouched _font_size w w' ∧ untouched _zoom_level w w' ∧
        untouched clones w w' ∧
        ∀ d, toPlainText <$> documents w' !! d
             = toPlainText <$> documents w !! d.
Proof.
  intros Htree Hed Hdepth.
  destruct (restyling_setter_evolves id with_background _background rank
              depth w self ed colour)
    as (w' & Hrun & (_ & Hkept & Htext) & _ & Hself & Hclones); try done.
  { by intros v []. }
  { by intros v []. }
  { by intros v []. }
  { by intros fnt pal []. }
  exists w'. split; [exact Hrun|]. split_and!; [|..|exact Htext].
  - intros e He.
    assert (Hvisited : holds _background colour w' e ∧ styled_at w' e)
      by (destruct He as [->|He]; [exact Hself|by apply Hclones]).
    destruct Hvisited as [Hholds (ed' & Hed' & _ & Hpalette)].
    exists ed'. unfold holds in Hholds. rewrite Hed' in Hholds.
    injection Hholds as Hcolour. by rewrite Hpalette.
  - apply Hkept. split; [by intros v []|by intros fnt pal []].
  - apply Hkept. split; [by intros v []|by intros fnt pal []].
  - apply Hkept. split; [by intros v []|by intros fnt pal []].
Qed.

Lemma background_reaches_every_palette_witness :
  ∃ w', set_background 3 0%nat light_gray split_views = Ok (tt, w') ∧
        (∀ e, e = 0%nat ∨ e ∈ [1%nat] →
              ∃ ed', editors w' !! e = Some ed' ∧
                     _background ed' = light_gray ∧
                     Base (palette ed') = light_gray) ∧
        untouched _font_size split_views w' ∧
        untouched _zoom_level split_views w' ∧
        untouched clones split_views w' ∧
        ∀ d, toPlainText <$> documents w' !! d
             = toPlainText <$> documents split_views !! d.
Proof.
  apply (background_reaches_every_palette split_views_rank 3 split_views
           0%nat (with_clones [1%nat] (new_CodeEdit 0 0)) light_gray).
  - apply clone_tree_check_correct. unfold clone_tree_check.
    apply (bool_decide_unpack _). vm_compute. exact I.
  - reflexivity.
  - simpl. lia.
Defined.

(** X11. [editor.selection_foreground = colour] on an editor of a
    well-formed store returns and stores the colour in the editor and in
    each of its clones, but it changes the palette and the font of no
    widget: the setter does not call [_reset_stylesheet], so the colour of
    the selected text that is shown stays the one of the last restyling. *)
Theorem selection_foreground_leaves_the_palette rank depth w self ed colour :
  clone_tree rank w → editors w !! self = Some ed → (rank self < depth)%nat →
  ∃ w', set_selection_foreground depth self colour w = Ok (tt, w') ∧
        (∀ e, e = self ∨ e ∈ clones ed → holds _sel_foreground colour w' e) ∧
        untouched palette w w' ∧ untouched font w w'.
Proof.
  intros Htree Hed Hdepth.
  destruct (plain_setter_evolves id with_sel_foreground _sel_foreground rank
              depth w self ed colour)
    as (w' & Hrun & (_ & Hkept & _) & Hself & Hclones); try done.
  { by intros v []. }
  { by intros v []. }
  { by intros v []. }
  exists w'. split; [exact Hrun|]. split_and!.
  - intros e [->|He]; [exact Hself|by apply Hclones].
  - apply Hkept. by intros v [].
  - apply Hkept. by intros v [].
Qed.

Lemma selection_foreground_leaves_the_palette_witness :
  ∃ w', set_selection_foreground 3 0%nat black split_views = Ok (tt, w') ∧
        (∀ e, e = 0%nat ∨ e ∈ [1%nat] → holds _sel_foreground black w' e) ∧
        untouched palette split_views w' ∧ untouched font split_views w'.
Proof.
  apply (selection_foreground_leaves_the_palette split_views_rank 3
           split_views 0%nat (with_clones [1%nat] (new_CodeEdit 0 0)) black).
  - apply clone_tree_check_correct. unfold clone_tree_check.
    apply (bool_decide_unpack _). vm_compute. exact I.
  - reflexivity.
  - simpl. lia.
Defined.

(** ** What [link] copies *)

(** [show_whitespaces], whose refresh step sets the flag of the document. *)
Lemma show_whitespaces_evolves rank depth w self ed value :
  clone_tree rank w → editors w !! self = Some ed → (rank self < depth)%nat →
  ∃ w', set_show_whitespaces depth self value w = Ok (tt, w') ∧
        evolves _show_whitespaces value
          (λ T obs, ignores with_show_whitespaces obs) w w' ∧
        holds _show_whitespaces value w' self.
Proof.
  intros Htree Hed Hdepth.
  set (independent := λ (T : Type) (obs : CodeEdit → T),
                        ignores with_show_whitespaces obs).
  set (related := λ v, evolves _show_whitespaces v independent).
  set (visited := λ v w e, holds _show_whitespaces v w e).
  assert (Hrefl : ∀ v w, related v w w) by (intros; apply evolves_refl).
  assert (Htrans : ∀ v w1 w2 w3,
             related v w1 w2 → related v w2 w3 → related v w1 w3)
    by (intros v w1 w2 w3; apply evolves_trans).
  assert (Hshape : ∀ v w w', related v w w' → same_shape w w')
    by (intros v w1 w2; apply evolves_shape).
  assert (Hstable : ∀ v w w' e,
             related v w w' → visited v w e → visited v w' e)
    by (intros v w1 w2 e; apply evolves_holds).
  assert (Hlocal : ∀ (rank : editor_id → nat) w self v,
             clone_tree rank w → is_Some (editors w !! self) →
             ∃ w', (modify_editor self (with_show_whitespaces v);;
                    _set_whitespaces_flags self v) w = Ok (tt, w') ∧
                   related v w w' ∧ visited v w' self).
  { intros rank' w0 e v Htree0 [ed0 Hed0]. unfold _set_whitespaces_flags.
    destruct (Htree0 e ed0 Hed0) as [[d Hd] _].
    destruct (editor_update_evolves _show_whitespaces independent v w0 e ed0
                (with_show_whitespaces v) Hed0) as [Hev Hholds];
      [by destruct ed0..|by intros T obs Hobs|].
    rewrite (bind_Ok _ _ _ _ _ (modify_editor_Ok _ _ _ _ Hed0)).
    erewrite bind_Ok;
      [|apply get_editor_Ok; simpl; apply lookup_insert_eq].
    assert (Hdoc : document (with_show_whitespaces v ed0) = document ed0)
      by (by destruct ed0).
    rewrite Hdoc. erewrite modify_document_Ok; [|simpl; exact Hd].
    eexists. split; [reflexivity|]. split.
    - eapply Htrans; [exact Hev|].
      by apply (document_flags_evolves _show_whitespaces independent v
                  {| editors := <[e := with_show_whitespaces v ed0]>
                                  (editors w0);
                     documents := documents w0;
                     QToolTip := QToolTip w0 |} (document ed0) d v).
    - exact Hholds. }
  destruct (synced_setter_invariant id with_show_whitespaces
              _set_whitespaces_flags related visited (λ v, eq_refl) Hrefl
              Htrans Hshape Hstable Hlocal rank depth w self value Htree
              (ex_intro _ ed Hed) Hdepth)
    as (w' & Hrun & Hev & Hself & _).
  by exists w'.
Qed.

(** [zoom_level], which is not propagated. *)
Lemma zoom_level_evolves w self ed value :
  editors w !! self = Some ed →
  ∃ w', set_zoom_level self value w = Ok (tt, w') ∧
        evolves _zoom_level value (λ T obs, ignores with_zoom_level obs) w w' ∧
        holds _zoom_level value w' self.
Proof.
  intros Hed. unfold set_zoom_level.
  rewrite (modify_editor_Ok _ _ _ _ Hed). eexists. split; [reflexivity|].
  apply (editor_update_evolves _zoom_level
           (λ T obs, ignores with_zoom_level obs) value w self ed
           (with_zoom_level value) Hed); [by destruct ed..|].
  by intros T obs Hobs.
Qed.

(** [word_separators], which writes the attribute of each clone. *)
Lemma word_separators_evolves rank w self ed value :
  clone_tree rank w → editors w !! self = Some ed →
  ∃ w', set_word_separators self value w = Ok (tt, w') ∧
        evolves _word_separators value
          (λ T obs, ignores with_word_separators obs) w w' ∧
        holds _word_separators value w' self.
Proof.
  intros Htree Hed. unfold set_word_separators.
  set (independent := λ (T : Type) (obs : CodeEdit → T),
                        ignores with_word_separators obs).
  set (related := λ v, evolves _word_separators v independent).
  set (visited := λ v w e, holds _word_separators v w e).
  assert (Hrefl : ∀ v w, related v w w) by (intros; apply evolves_refl).
  assert (Htrans : ∀ v w1 w2 w3,
             related v w1 w2 → related v w2 w3 → related v w1 w3)
    by (intros v w1 w2 w3; apply evolves_trans).
  assert (Hshape : ∀ v w w', related v w w' → same_shape w w')
    by (intros v w1 w2; apply evolves_shape).
  assert (Hstable : ∀ v w w' e,
             related v w w' → visited v w e → visited v w' e)
    by (intros v w1 w2 e; apply evolves_holds).
  assert (Hlocal : ∀ w e ed,
             editors w !! e = Some ed →
             ∃ w', modify_editor e (with_word_separators value) w
                     = Ok (tt, w') ∧
                   related value w w' ∧ visited value w' e).
  { intros w0 e ed0 Hed0. rewrite (modify_editor_Ok _ _ _ _ Hed0).
    eexists. split; [reflexivity|].
    apply (editor_update_evolves _word_separators independent value w0 e ed0
             (with_word_separators value) Hed0); [by destruct ed0..|].
    by intros T obs Hobs. }
  destruct (Hlocal w self ed Hed) as (w1 & Hrun1 & Hev1 & Hself1).
  rewrite (bind_Ok _ _ _ _ _ Hrun1).
  assert (Htree1 : clone_tree rank w1)
    by (eapply clone_tree_same_shape; [by eapply Hshape|done]).
  destruct (same_shape_lookup _ _ _ _ (Hshape _ _ _ Hev1) Hed)
    as (ed1 & Hed1 & Hcl1 & _).
  rewrite (bind_Ok _ _ _ _ _ (get_editor_Ok _ _ _ Hed1)).
  destruct (for_each_clone_invariant related visited Hrefl Htrans Hshape
              Hstable (λ c v, modify_editor c (with_word_separators v)) rank
              (rank self) value) with (l := clones ed1) (w := w1)
    as (w' & Hrun & Hev & _).
  - intros w0 c _ [ed0 Hed0] _. by apply (Hlocal w0 c ed0).
  - done.
  - intros c Hc. by apply (Htree1 self ed1 Hed1).
  - exists w'. split; [exact Hrun|]. split; [by eapply Htrans|].
    by eapply Hstable.
Qed.

Lemma evolves_untouched {V T : Type} (A : CodeEdit → V) v independent w w'
    (obs : CodeEdit → T) e :
  evolves A v independent w w' → independent T obs →
  obs <$> editors w' !! e = obs <$> editors w !! e.
Proof. intros (_ & Hkept & _) Hobs. by apply Hkept. Qed.

Lemma plain_setter_copies {V : Type} assign (A : CodeEdit → V) rank depth :
  (∀ v ed, A (assign v ed) = v) →
  ignores assign clones → ignores assign document →
  copies (synced_setter id assign no_refresh depth) id A
    (λ T obs, ignores assign obs) rank depth.
Proof.
  intros HA Hcl Hdoc w e ed v Htree Hed Hdepth.
  destruct (plain_setter_evolves id assign A rank depth w e ed v)
    as (w' & Hrun & Hev & Hself & _); try done.
  by exists w'.
Qed.

Lemma restyling_setter_copies {V : Type} normalise assign (A : CodeEdit → V)
    rank depth :
  (∀ v, normalise (normalise v) = normalise v) →
  (∀ v ed, A (assign v ed) = v) →
  ignores assign clones → ignores assign document → ignores_style A →
  copies (synced_setter normalise assign (λ self _, _reset_stylesheet self)
            depth) normalise A
    (λ T obs, ignores assign obs ∧ ignores_style obs) rank depth.
Proof.
  intros Hidem HA Hcl Hdoc Hstyle w e ed v Htree Hed Hdepth.
  destruct (restyling_setter_evolves normalise assign A rank depth w e ed v)
    as (w' & Hrun & Hev & _ & [Hself _] & _); try done.
  by exists w'.
Qed.

Lemma font_name_or_default_idem sys_platform v :
  font_name_or_default sys_platform (font_name_or_default sys_platform v)
  = font_name_or_default sys_platform v.
Proof.
  unfold font_name_or_default, _DEFAULT_FONT.
  repeat case_decide; congruence.
Qed.

(** The observer [obs] is read further back, as long as the steps on the
    way have left it alone. *)
Ltac independent :=
  cbv beta;
  first [ by intros ? []
        | split; [by intros ? []|by intros ? ? []] ].

Ltac back obs :=
  repeat match goal with
         | H : evolves _ _ _ ?w ?w' |- context [editors ?w' !! ?e] =>
             rewrite (evolves_untouched _ _ _ w w' obs e H) by independent
         end.

(** One [clone.prop = self.prop] of [link]. *)
Ltac copy_step Hcopies A self clone s Hs0 Hdepth :=
  match goal with
  | |- context [bind (attr self A) _ ?wi] =>
      match goal with
      | Hs : editors wi !! self = Some ?si,
        Hc : editors wi !! clone = Some ?ci,
        Htree : clone_tree _ wi |- _ =>
          let wn := fresh "w" in
          let sn := fresh "s" in
          let cn := fresh "c" in
          let Hrun := fresh "Hrun" in
          let Hev := fresh "Hev" in
          let Hholds := fresh "Hholds" in
          let Hval := fresh "Hval" in
          let Hsn := fresh "Hs" in
          let Hcn := fresh "Hc" in
          let Htreen := fresh "Htree" in
          assert (Hval : A si = A s);
          [ assert (Hval : A <$> editors wi !! self = Some (A s))
              by (back A; by rewrite Hs0);
            rewrite Hs in Hval; simpl in Hval; congruence
          | rewrite (bind_Ok _ _ _ _ _ (attr_Ok _ _ _ A Hs));
            destruct (Hcopies wi clone ci (A si) Htree Hc Hdepth)
              as (wn & Hrun & Hev & Hholds);
            rewrite (bind_Ok _ _ _ _ _ Hrun); cbv beta;
            try rewrite Hval in Hev; try rewrite Hval in Hholds;
            assert (Htreen : clone_tree _ wn)
              by (eapply clone_tree_same_shape;
                  [by eapply evolves_shape|done]);
            destruct (same_shape_lookup _ _ _ _
                        (evolves_shape _ _ _ _ _ Hev) Hs) as (sn & Hsn & _);
            destruct (same_shape_lookup _ _ _ _
                        (evolves_shape _ _ _ _ _ Hev) Hc) as (cn & Hcn & _);
            clear Hrun Hval ]
      end
  end.

(** An observer that no step has touched has the value of the start. *)
Ltac inherited obs clone Hc0 :=
  match goal with
  | Hc : editors ?w !! clone = Some ?c |- obs ?c = ?rhs =>
      let H := fresh in
      assert (H : obs <$> editors w !! clone = Some rhs);
      [ back obs; rewrite Hc0; simpl; congruence
      | rewrite Hc in H; simpl in H; congruence ]
  end.

(** The value of [A] that the clone has in the end. *)
Ltac settle A clone :=
  match goal with
  | Hc : editors ?w !! clone = Some ?c |- A ?c = ?rhs =>
      let H := fresh in
      assert (H : A <$> editors w !! clone = Some rhs);
      [ back A;
        match goal with
        | Hh : holds A _ _ clone |- _ => exact Hh
        end
      | rewrite Hc in H; simpl in H; congruence ]
  end.

Lemma link_effect sys_platform rank depth w self clone s c :
  clone_tree rank w → self ≠ clone →
  editors w !! self = Some s → editors w !! clone = Some c →
  (rank clone < depth)%nat →
  ∃ w' c', link sys_platform depth self clone w = Ok (tt, w') ∧
    editors w' !! clone = Some c' ∧
    file c' = file s ∧ document c' = document s ∧
    (_use_spaces_instead_of_tabs c' = _use_spaces_instead_of_tabs s ∧
     _tab_length c' = _tab_length s ∧
     _min_indent_column c' = _min_indent_column s ∧
     _save_on_focus_out c' = _save_on_focus_out s ∧
     _show_whitespaces c' = _show_whitespaces s ∧
     _font_family c' = font_name_or_default sys_platform (_font_family s) ∧
     _font_size c' = _font_size s ∧
     _zoom_level c' = _zoom_level s ∧
     _background c' = _background s ∧
     _foreground c' = _foreground s ∧
     _whitespaces_foreground c' = _whitespaces_foreground s ∧
     _sel_background c' = _sel_background s ∧
     _sel_foreground c' = _sel_foreground s ∧
     _word_separators c' = _word_separators s) ∧
    font c' = QtGui_QFont (font_name_or_default sys_platform (_font_family s))
                (_font_size s + _zoom_level s) ∧
    palette c' = {| Base := _background s;
                    Text := _foreground s;
                    Highlight := _sel_background s;
                    HighlightedText := _sel_foreground c |}.
Proof.
  intros Htree Hne Hs Hc Hdepth. unfold link.
  assert (Hs' : ∀ c', <[clone := c']> (editors w) !! self = Some s)
    by (intros c'; by rewrite lookup_insert_ne).
  rewrite (bind_Ok _ _ _ _ _ (attr_Ok _ _ _ _ Hs)).
  rewrite (bind_Ok _ _ _ _ _ (modify_editor_Ok _ _ _ _ Hc)).
  erewrite bind_Ok; [|apply attr_Ok; simpl; apply Hs'].
  erewrite bind_Ok; [|apply modify_editor_Ok; simpl; apply lookup_insert_eq].
  simpl. rewrite insert_insert_eq.
  erewrite bind_Ok; [|apply attr_Ok; simpl; apply Hs'].
  erewrite bind_Ok; [|apply modify_editor_Ok; simpl; apply lookup_insert_eq].
  simpl. rewrite insert_insert_eq.
  erewrite bind_Ok; [|apply attr_Ok; simpl; apply Hs'].
  erewrite bind_Ok; [|apply modify_editor_Ok; simpl; apply lookup_insert_eq].
  simpl. rewrite insert_insert_eq.
  match goal with
  | |- context [<[clone := ?linked]> (editors w)] => set (c0 := linked)
  end.
  assert (Hcl0 : clones c0 = clones c) by (subst c0; by destruct c).
  assert (Hdoc0 : document c0 = document s) by (subst c0; by destruct c).
  assert (Hfile0 : file c0 = file s)
    by (subst c0; destruct c; simpl; by destruct (file s)).
  assert (Hfg0 : _sel_foreground c0 = _sel_foreground c)
    by (subst c0; by destruct c).
  remember {| editors := <[clone := c0]> (editors w);
              documents := documents w;
              QToolTip := QToolTip w |} as w0 eqn:Hw0.
  assert (Hs0 : editors w0 !! self = Some s) by (subst w0; apply Hs').
  assert (Hc0 : editors w0 !! clone = Some c0)
    by (subst w0; simpl; apply lookup_insert_eq).
  assert (Htree0 : clone_tree rank w0).
  { intros e ed Hed. subst w0; simpl in *.
    assert (Hsome : ∀ i, is_Some (editors w !! i) →
                         is_Some (<[clone := c0]> (editors w) !! i)).
    { intros i Hi. destruct (decide (clone = i)) as [<-|].
      - rewrite lookup_insert_eq. by eexists.
      - by rewrite lookup_insert_ne. }
    destruct (decide (clone = e)) as [<-|].
    - rewrite lookup_insert_eq in Hed. injection Hed as <-.
      rewrite Hdoc0, Hcl0. split; [by apply (Htree self s)|].
      intros c' Hc'. destruct (Htree clone c Hc) as [_ Hclones].
      destruct (Hclones c' Hc'). split; [by apply Hsome|done].
    - rewrite lookup_insert_ne in Hed by done.
      destruct (Htree e ed Hed) as [Hdocs Hclones]. split; [done|].
      intros c' Hc'. destruct (Hclones c' Hc'). split; [by apply Hsome|done]. }
  clear Hw0 Hs' Htree Hs Hc. clearbody c0.
  assert (H1 : copies (set_use_spaces_instead_of_tabs depth) id
                 _use_spaces_instead_of_tabs _ rank depth)
    by (apply plain_setter_copies; by intros ? []).
  assert (H2 : copies (set_tab_length depth) id _tab_length _ rank depth)
    by (apply plain_setter_copies; by intros ? []).
  assert (H3 : copies (set_min_indent_column depth) id _min_indent_column _
                 rank depth)
    by (apply plain_setter_copies; by intros ? []).
  assert (H4 : copies (set_save_on_focus_out depth) id _save_on_focus_out _
                 rank depth)
    by (apply plain_setter_copies; by intros ? []).
  assert (H5 : copies (set_show_whitespaces depth) id _show_whitespaces _
                 rank depth)
    by (intros w1 e ed v Ht He Hd;
        exact (show_whitespaces_evolves rank depth w1 e ed v Ht He Hd)).
  assert (H6 : copies (set_font_name sys_platform depth)
                 (font_name_or_default sys_platform) _font_family _ rank
                 depth)
    by (apply restyling_setter_copies;
        first [apply font_name_or_default_idem|by intros ? []
              |by intros ? ? []]).
  assert (H7 : copies (set_font_size depth) id _font_size _ rank depth)
    by (apply restyling_setter_copies;
        first [done|by intros ? []|by intros ? ? []]).
  assert (H8 : copies set_zoom_level id _zoom_level _ rank depth)
    by (intros w1 e ed v _ He _; exact (zoom_level_evolves w1 e ed v He)).
  assert (H9 : copies (set_background depth) id _background _ rank depth)
    by (apply restyling_setter_copies;
        first [done|by intros ? []|by intros ? ? []]).
  assert (H10 : copies (set_foreground depth) id _foreground _ rank depth)
    by (apply restyling_setter_copies;
        first [done|by intros ? []|by intros ? ? []]).
  assert (H11 : copies (set_whitespaces_foreground depth) id
                  _whitespaces_foreground _ rank depth)
    by (apply plain_setter_copies; by intros ? []).
  assert (H12 : ∀ w e ed v,
             clone_tree rank w → editors w !! e = Some ed →
             (rank e < depth)%nat →
             ∃ w', set_selection_background depth e v w = Ok (tt, w') ∧
                   evolves _sel_background (id v)
                     (λ T obs, ignores with_sel_background obs
                               ∧ ignores_style obs) w w' ∧
                   holds _sel_background (id v) w' e ∧ styled_at w' e).
  { intros w1 e ed v Ht He Hd.
    destruct (restyling_setter_evolves id with_sel_background _sel_background
                rank depth w1 e ed v)
      as (w' & Hrun & Hev & _ & Hself & _);
      first [done|by intros ? []|by intros ? ? []|by exists w']. }
  assert (H13 : copies (set_selection_foreground depth) id _sel_foreground _
                  rank depth)
    by (apply plain_setter_copies; by intros ? []).
  assert (H14 : copies set_word_separators id _word_separators _ rank depth)
    by (intros w1 e ed v Ht He _;
        exact (word_separators_evolves rank w1 e ed v Ht He)).
  copy_step H1 _use_spaces_instead_of_tabs self clone s Hs0 Hdepth.
  copy_step H2 _tab_length self clone s Hs0 Hdepth.
  copy_step H3 _min_indent_column self clone s Hs0 Hdepth.
  copy_step H4 _save_on_focus_out self clone s Hs0 Hdepth.
  copy_step H5 _show_whitespaces self clone s Hs0 Hdepth.
  copy_step H6 _font_family self clone s Hs0 Hdepth.
  copy_step H7 _font_size self clone s Hs0 Hdepth.
  copy_step H8 _zoom_level self clone s Hs0 Hdepth.
  copy_step H9 _background self clone s Hs0 Hdepth.
  copy_step H10 _foreground self clone s Hs0 Hdepth.
  copy_step H11 _whitespaces_foreground self clone s Hs0 Hdepth.
  copy_step H12 _sel_background self clone s Hs0 Hdepth.
  match goal with
  | H : holds _sel_background _ ?w' clone ∧ styled_at ?w' clone |- _ =>
      destruct H as [? (shown & Hshown & Hfont & Hpalette)]
  end.
  copy_step H13 _sel_foreground self clone s Hs0 Hdepth.
  lazymatch goal with
  | |- context [bind (attr self _word_separators) _ ?wi] =>
      lazymatch goal with
      | Hs : editors wi !! self = Some ?si,
        Hc : editors wi !! clone = Some ?ci,
        Htree : clone_tree _ wi |- _ =>
          assert (Hval : _word_separators si = _word_separators s);
          [ assert (Hval : _word_separators <$> editors wi !! self
                           = Some (_word_separators s))
              by (back _word_separators; by rewrite Hs0);
            rewrite Hs in Hval; simpl in Hval; congruence
          | rewrite (bind_Ok _ _ _ _ _ (attr_Ok _ _ _ _word_separators Hs));
            destruct (H14 wi clone ci (_word_separators si) Htree Hc Hdepth)
              as (w' & Hrun & Hev' & Hholds');
            rewrite Hval in Hev', Hholds';
            destruct (same_shape_lookup _ _ _ _
                        (evolves_shape _ _ _ _ _ Hev') Hc)
              as (c' & Hc' & _);
            clear Hs Hc Hval ]
      end
  end.
  exists w', c'. split; [exact Hrun|]. split; [exact Hc'|].
  clear H1 H2 H3 H4 H5 H6 H7 H8 H9 H10 H11 H12 H13 H14 Hrun.
  split; [inherited file clone Hc0|].
  split; [inherited document clone Hc0|].
  split.
  { split_and!.
    - settle _use_spaces_instead_of_tabs clone.
    - settle _tab_length clone.
    - settle _min_indent_column clone.
    - settle _save_on_focus_out clone.
    - settle _show_whitespaces clone.
    - settle _font_family clone.
    - settle _font_size clone.
    - settle _zoom_level clone.
    - settle _background clone.
    - settle _foreground clone.
    - settle _whitespaces_foreground clone.
    - settle _sel_background clone.
    - settle _sel_foreground clone.
    - settle _word_separators clone. }
  assert (Hfamily : _font_family shown
                    = font_name_or_default sys_platform (_font_family s))
    by settle _font_family clone.
  assert (Hsize : _font_size shown = _font_size s)
    by settle _font_size clone.
  assert (Hzoom : _zoom_level shown = _zoom_level s)
    by settle _zoom_level clone.
  assert (Hbase : _background shown = _background s)
    by settle _background clone.
  assert (Htext : _foreground shown = _foreground s)
    by settle _foreground clone.
  assert (Hhighlight : _sel_background shown = _sel_background s)
    by settle _sel_background clone.
  assert (Hhighlighted : _sel_foreground shown = _sel_foreground c)
    by inherited _sel_foreground clone Hc0.
  split.
  - assert (Hkept : font <$> editors w' !! clone = Some (font shown))
      by (back font; by rewrite Hshown).
    rewrite Hc' in Hkept. injection Hkept as ->.
    by rewrite Hfont, Hfamily, Hsize, Hzoom.
  - assert (Hkept : palette <$> editors w' !! clone = Some (palette shown))
      by (back palette; by rewrite Hshown).
    rewrite Hc' in Hkept. injection Hkept as ->.
    by rewrite Hpalette, Hbase, Htext, Hhighlight, Hhighlighted.
Qed.

Lemma same_configuration_font_name (a b : CodeEdit) (name : string) :
  _use_spaces_instead_of_tabs a = _use_spaces_instead_of_tabs b →
  _tab_length a = _tab_length b →
  _min_indent_column a = _min_indent_column b →
  _save_on_focus_out a = _save_on_focus_out b →
  _show_whitespaces a = _show_whitespaces b →
  _font_family a = name →
  _font_size a = _font_size b →
  _zoom_level a = _zoom_level b →
  _background a = _background b →
  _foreground a = _foreground b →
  _whitespaces_foreground a = _whitespaces_foreground b →
  _sel_background a = _sel_background b →
  _sel_foreground a = _sel_foreground b →
  _word_separators a = _word_separators b →
  same_configuration a (with_font_family name b).
Proof. intros. destruct b. unfold same_configuration. by simpl in *. Qed.

(** X12. [link(clone)] on two editors of a well-formed store returns, and
    the clone then has the path, encoding and mime type of the original and
    its configuration: the thirteen properties and the zoom level, where an
    empty font name of the original has become the default font. *)
Theorem link_copies_the_configuration
    sys_platform rank depth w self clone s c :
  clone_tree rank w → self ≠ clone →
  editors w !! self = Some s → editors w !! clone = Some c →
  (rank clone < depth)%nat →
  ∃ w' c', link sys_platform depth self clone w = Ok (tt, w') ∧
    editors w' !! clone = Some c' ∧
    file c' = file s ∧
    same_configuration c'
      (with_font_family (font_name_or_default sys_platform (_font_family s))
         s).
Proof.
  intros Htree Hne Hs Hc Hdepth.
  destruct (link_effect sys_platform rank depth w self clone s c
              Htree Hne Hs Hc Hdepth)
    as (w' & c' & Hrun & Hc' & Hfile & _ & Hconf & _).
  exists w', c'. split_and!; [done..|].
  destruct Hconf as (? & ? & ? & ? & ? & ? & ? & ? & ? & ? & ? & ? & ? & ?).
  by apply same_configuration_font_name.
Qed.

Lemma link_copies_the_configuration_witness :
  ∃ w' c', link "linux" 3 0%nat 3%nat split_views = Ok (tt, w') ∧
    editors w' !! 3%nat = Some c' ∧
    file c' = file (with_clones [1%nat] (new_CodeEdit 0 0)) ∧
    same_configuration c'
      (with_font_family
         (font_name_or_default "linux"
            (_font_family (with_clones [1%nat] (new_CodeEdit 0 0))))
         (with_clones [1%nat] (new_CodeEdit 0 0))).
Proof.
  apply (link_copies_the_configuration "linux" split_views_rank 3 split_views
           0%nat 3%nat (with_clones [1%nat] (new_CodeEdit 0 0))
           (new_CodeEdit 1 0)).
  - apply clone_tree_check_correct. unfold clone_tree_check.
    apply (bool_decide_unpack _). vm_compute. exact I.
  - lia.
  - reflexivity.
  - reflexivity.
  - simpl. lia.
Defined.

(** X13. After [link(clone)] the widget of the clone has the font
    [QFont(family, font_size + zoom_level)] of the original's values (of
    the default size of the system when that sum is not positive) and the
    base, text and highlight colours of
    the original, but the colour of the highlighted text in its palette is
    the selection foreground the clone had before, although the property of
    the clone now is that of the original: [selection_foreground] is
    assigned after the last [_reset_stylesheet]. *)
Theorem link_shows_the_former_selection_foreground
    sys_platform rank depth w self clone s c :
  clone_tree rank w → self ≠ clone →
  editors w !! self = Some s → editors w !! clone = Some c →
  (rank clone < depth)%nat →
  ∃ w' c', link sys_platform depth self clone w = Ok (tt, w') ∧
    editors w' !! clone = Some c' ∧
    _sel_foreground c' = _sel_foreground s ∧
    font c' = QtGui_QFont (font_name_or_default sys_platform (_font_family s))
                (_font_size s + _zoom_level s) ∧
    palette c' = {| Base := _background s;
                    Text := _foreground s;
                    Highlight := _sel_background s;
                    HighlightedText := _sel_foreground c |}.
Proof.
  intros Htree Hne Hs Hc Hdepth.
  destruct (link_effect sys_platform rank depth w self clone s c
              Htree Hne Hs Hc Hdepth)
    as (w' & c' & Hrun & Hc' & _ & _ & Hconf & Hfont & Hpalette).
  exists w', c'. split_and!; [done|done| |done|done].
  by destruct Hconf as (_ & _ & _ & _ & _ & _ & _ & _ & _ & _ & _ & _ & ? & _).
Qed.

Lemma link_shows_the_former_selection_foreground_witness :
  ∃ w' c', link "linux" 3 0%nat 3%nat split_views = Ok (tt, w') ∧
    editors w' !! 3%nat = Some c' ∧
    _sel_foreground c'
    = _sel_foreground (with_clones [1%nat] (new_CodeEdit 0 0)) ∧
    font c'
    = QtGui_QFont
        (font_name_or_default "linux"
           (_font_family (with_clones [1%nat] (new_CodeEdit 0 0))))
        (_font_size (with_clones [1%nat] (new_CodeEdit 0%nat 0%nat))
         + _zoom_level (with_clones [1%nat] (new_CodeEdit 0%nat 0%nat))) ∧
    palette c'
    = {| Base := _background (with_clones [1%nat] (new_CodeEdit 0 0));
         Text := _foreground (with_clones [1%nat] (new_CodeEdit 0 0));
         Highlight :=
           _sel_background (with_clones [1%nat] (new_CodeEdit 0 0));
         HighlightedText := _sel_foreground (new_CodeEdit 1 0) |}.
Proof.
  apply (link_shows_the_former_selection_foreground "linux" split_views_rank
           3 split_views 0%nat 3%nat (with_clones [1%nat] (new_CodeEdit 0 0))
           (new_CodeEdit 1 0)).
  - apply clone_tree_check_correct. unfold clone_tree_check.
    apply (bool_decide_unpack _). vm_compute. exact I.
  - lia.
  - reflexivity.
  - reflexivity.
  - simpl. lia.
Defined.

(** ** A split view *)

(** The constructor adds one editor and one document and leaves the
    rest of the store as it is. *)
Lemma CodeEdit_init_frame sys_platform app_highlight app_highlightedText
    depth w :
  (0 < depth)%nat →
  ∃ cb,
    CodeEdit_init sys_platform app_highlight app_highlightedText depth w
    = Ok (fresh (dom (editors w)),
          {| editors := <[fresh (dom (editors w)) := cb]> (editors w);
             documents :=
               <[fresh (dom (documents w)) :=
                   {| toPlainText := []; ShowTabsAndSpaces := false |}]>
                 (documents w);
             QToolTip := QToolTip w |}) ∧
    _sel_foreground cb = app_highlightedText.
Proof.
  intros Hdepth. destruct depth as [|depth]; [lia|].
  unfold CodeEdit_init, set_font_name. simpl synced_setter.
  repeat step. simpl. rewrite ?insert_insert_eq.
  eexists. split; reflexivity.
Qed.

(** X14. [split()] on an editor of a well-formed store returns a new editor.
    The new editor shows the document of the original, has its path,
    encoding and mime type and its configuration (an empty font name having
    become the default font), has no clones, and its cursor is where the
    cursor of the original is, without a selection. It is the last clone of
    the original and the clones are a tree again. The highlighted text in
    its palette has the colour of the application, whatever the selection
    foreground of the original is. *)
Theorem split_view_is_configured
    sys_platform app_highlight app_highlightedText rank depth w self ed :
  clone_tree rank w →
  editors w !! self = Some ed →
  (0 < depth)%nat →
  ∃ w' new rank' view,
    split sys_platform app_highlight app_highlightedText depth self w
    = Ok (new, w') ∧
    editors w !! new = None ∧
    clone_tree rank' w' ∧
    clones <$> editors w' !! self = Some (clones ed ++ [new]) ∧
    editors w' !! new = Some view ∧
    clones view = [] ∧
    document view = document ed ∧
    file view = file ed ∧
    same_configuration view
      (with_font_family (font_name_or_default sys_platform (_font_family ed))
         ed) ∧
    textCursor view = {| anchor := position (textCursor ed);
                         position := position (textCursor ed) |} ∧
    HighlightedText (palette view) = app_highlightedText.
Proof.
  intros Htree Hed Hdepth.
  destruct (split_keeps_clone_tree sys_platform app_highlight
              app_highlightedText rank depth w self ed Htree Hed Hdepth)
    as (w' & new & rank' & Hsplit & Htree' & Hfresh & Hclones_self
        & Hclones_new & Hdoc_new).
  exists w', new, rank'. pose proof Hsplit as Hrun.
  destruct (CodeEdit_init_frame sys_platform app_highlight app_highlightedText
              depth w Hdepth) as (cb & Hinit & Hforeground).
  destruct (CodeEdit_init_correct sys_platform app_highlight
              app_highlightedText rank depth w Htree Hdepth)
    as (wb & new_b & Hrun_b & Hnew_b & Htree_b & _ & _).
  rewrite Hrun_b in Hinit. injection Hinit as -> Hwb.
  assert (Hne : self ≠ fresh (dom (editors w))) by (intros ->; congruence).
  assert (Hsb : editors wb !! self = Some ed)
    by (rewrite Hwb; simpl; by rewrite lookup_insert_ne).
  assert (Hcb : editors wb !! fresh (dom (editors w)) = Some cb)
    by (rewrite Hwb; simpl; by rewrite lookup_insert_eq).
  clear Hwb.
  unfold split, clone in Hsplit.
  rewrite (bind_Ok _ _ _ _ _ (attr_Ok _ _ _ _ Hed)) in Hsplit.
  rewrite (bind_Ok _ _ _ _ _ Hrun_b) in Hsplit.
  destruct (link_effect sys_platform _ depth wb self (fresh (dom (editors w)))
              ed cb Htree_b Hne Hsb Hcb)
    as (wc & c' & Hrun_c & Hc' & Hfile & Hdoc & Hconf & _ & Hpalette).
  { simpl. by rewrite decide_True. }
  rewrite (bind_Ok _ _ _ _ _ Hrun_c) in Hsplit.
  rewrite (bind_Ok _ _ _ _ _ (modify_editor_Ok _ _ _ _ Hc')) in Hsplit.
  unfold bind, modify_editor in Hsplit. simpl in Hsplit.
  rewrite lookup_insert_ne in Hsplit by done.
  destruct (editors wc !! self) as [sc|]; [|done].
  injection Hsplit as <- <-.
  eexists. split; [exact Hrun|]. split; [exact Hfresh|].
  split; [exact Htree'|]. split; [exact Hclones_self|].
  split.
  { simpl. rewrite lookup_insert_ne by done. apply lookup_insert_eq. }
  destruct Hconf as (? & ? & ? & ? & ? & ? & ? & ? & ? & ? & ? & ? & ? & ?).
  destruct c'. simpl in *. split_and!; try done.
  - simpl in Hclones_new. rewrite lookup_insert_ne in Hclones_new by done.
    rewrite lookup_insert_eq in Hclones_new. by injection Hclones_new.
  - by apply same_configuration_font_name.
  - by rewrite Hpalette.
Qed.

Lemma split_view_is_configured_witness :
  ∃ w' new rank' view,
    split "linux" blue_highlight white 3 1%nat split_views = Ok (new, w') ∧
    editors split_views !! new = None ∧
    clone_tree rank' w' ∧
    clones <$> editors w' !! 1%nat
    = Some (clones (with_clones [2%nat] (new_CodeEdit 0 0)) ++ [new]) ∧
    editors w' !! new = Some view ∧
    clones view = [] ∧
    document view = document (with_clones [2%nat] (new_CodeEdit 0 0)) ∧
    file view = file (with_clones [2%nat] (new_CodeEdit 0 0)) ∧
    same_configuration view
      (with_font_family
         (font_name_or_default "linux"
            (_font_family (with_clones [2%nat] (new_CodeEdit 0 0))))
         (with_clones [2%nat] (new_CodeEdit 0 0))) ∧
    textCursor view
    = {| anchor :=
           position (textCursor (with_clones [2%nat] (new_CodeEdit 0 0)));
         position :=
           position (textCursor (with_clones [2%nat] (new_CodeEdit 0 0))) |} ∧
    HighlightedText (palette view) = white.
Proof.
  apply (split_view_is_configured "linux" blue_highlight white
           split_views_rank 3 split_views 1%nat
           (with_clones [2%nat] (new_CodeEdit 0 0))).
  - apply clone_tree_check_correct. unfold clone_tree_check.
    apply (bool_decide_unpack _). vm_compute. exact I.
  - reflexivity.
  - lia.
Defined.

(** ** The properties on sample objects *)

Lemma delete_removes_the_selection_witness :
  ∃ w' ed' d',
    CodeEditSlots.delete 0%nat selecting_editor = Ok (tt, w') ∧
    editors w' !! 0%nat = Some ed' ∧
    documents w' !! 0%nat = Some d' ∧
    document ed' = 0%nat ∧
    toPlainText d' = String.list_ascii_of_string "aef" ∧
    textCursor ed' = {| anchor := 1; position := 1 |} ∧
    (∀ other, other ≠ 0%nat →
              documents w' !! other = documents selecting_editor !! other) ∧
    CodeEditSlots.delete 0%nat w' = Ok (tt, w').
Proof.
  apply (delete_removes_the_selection selecting_editor 0%nat
           (with_textCursor {| anchor := 1; position := 4 |}
              (new_CodeEdit 0 0))
           (new_QTextDocument "abcdef")).
  - reflexivity.
  - reflexivity.
Defined.

Lemma duplicate_line_copies_the_line_witness :
  ∃ w' ed' d',
    CodeEditSlots.duplicate_line 0%nat (single_editor "x = 1" 2)
    = Ok (tt, w') ∧
    editors w' !! 0%nat = Some ed' ∧
    documents w' !! 0%nat = Some d' ∧
    toPlainText d'
    = [] ++ String.list_ascii_of_string "x = 1"
      ++ newline :: String.list_ascii_of_string "x = 1" ++ [] ∧
    textCursor ed' = {| anchor := 8; position := 8 |} ∧
    cursor_in_line (toPlainText d') (position (textCursor ed'))
      ([] ++ String.list_ascii_of_string "x = 1" ++ [newline])
      (String.list_ascii_of_string "x = 1") [] ∧
    positionInBlock (toPlainText d') (textCursor ed') = 2%nat.
Proof.
  apply (duplicate_line_copies_the_line (single_editor "x = 1" 2) 0%nat
           (new_CodeEdit 0 2) (new_QTextDocument "x = 1")
           [] (String.list_ascii_of_string "x = 1") []).
  - reflexivity.
  - reflexivity.
  - split_and!.
    + reflexivity.
    + apply (bool_decide_unpack _). vm_compute. exact I.
    + left. reflexivity.
    + left. reflexivity.
    + simpl. lia.
    + simpl. lia.
Defined.

Lemma visible_blocks_lie_within_the_widget_witness :
  let block := {| blockNumber := 0; block_height := 10; isVisible := true |} in
  0%Z = blockNumber block ∧
  isVisible block = true ∧
  fits 25 0 block ∧
  ∃ above below,
    three_blocks = above ++ block :: below ∧
    0%Z = (0 + total_height above)%Z.
Proof.
  apply (visible_blocks_lie_within_the_widget three_blocks 0 25 0 0
           {| blockNumber := 0; block_height := 10; isVisible := true |}).
  vm_compute. left.
Defined.

Lemma visible_blocks_stop_at_the_first_misfit_witness :
  ∃ shown rest,
    three_blocks = shown ++ rest ∧
    (_update_visible_blocks three_blocks 0 25).*2
    = filter (λ b, isVisible b = true) shown ∧
    (∀ above block below, shown = above ++ block :: below →
       fits 25 (0 + total_height above) block) ∧
    match rest with
    | [] => True
    | block :: _ => ¬ fits 25 (0 + total_height shown) block
    end.
Proof.
  apply (visible_blocks_stop_at_the_first_misfit three_blocks 0 25).
Defined.

Lemma insert_action_goes_before_prev_action_witness :
  (∃ l1 l2,
     ContextMenu._actions two_actions = l1 ++ 1%nat :: l2 ∧
     (1%nat ∉ l1) ∧
     ContextMenu.insert_action 7%nat 1%nat two_actions
     = ContextMenu.Returns
         {| ContextMenu._actions := l1 ++ 7%nat :: 1%nat :: l2;
            ContextMenu._menus := ContextMenu._menus two_actions;
            ContextMenu.created := ContextMenu.created two_actions |}) ∧
  ContextMenu.insert_action 7%nat 5%nat two_actions
  = ContextMenu.Raises ContextMenu.ValueError.
Proof.
  split.
  - apply (proj1 (insert_action_goes_before_prev_action 7%nat 1%nat
                    two_actions)).
    apply (bool_decide_unpack _). vm_compute. exact I.
  - apply (proj2 (insert_action_goes_before_prev_action 7%nat 5%nat
                    two_actions)).
    apply (bool_decide_unpack _). vm_compute. exact I.
Defined.

Lemma remove_action_undoes_add_action_witness :
  (ContextMenu.remove_action (Some 5%nat) two_actions
   = ContextMenu.Raises ContextMenu.ValueError ∧
   ContextMenu.remove_action (Some 5%nat)
     (ContextMenu.add_action 5%nat two_actions)
   = ContextMenu.Returns two_actions) ∧
  ContextMenu.remove_action (Some 1%nat) two_actions
  = ContextMenu.Returns
      {| ContextMenu._actions := [0%nat] ++ [];
         ContextMenu._menus := ContextMenu._menus two_actions;
         ContextMenu.created := ContextMenu.created two_actions |}.
Proof.
  split.
  - apply (proj1 (remove_action_undoes_add_action 5%nat two_actions)).
    apply (bool_decide_unpack _). vm_compute. exact I.
  - apply (proj2 (remove_action_undoes_add_action 1%nat two_actions)
             [0%nat] []).
    + reflexivity.
    + apply (bool_decide_unpack _). vm_compute. exact I.
Defined.

Lemma case_converter_enable_then_disable_witness :
  ∃ mode1 editor1 editor2 sep lower upper,
    CaseConverter.on_state_changed true CaseConverter.init two_actions
    = ContextMenu.Returns (mode1, editor1) ∧
    CaseConverter.separator mode1 = Some sep ∧
    CaseConverter.action_to_lower mode1 = Some lower ∧
    CaseConverter.action_to_upper mode1 = Some upper ∧
    ContextMenu._actions editor1
    = ContextMenu._actions two_actions ++ [sep; lower; upper] ∧
    (CaseConverter._actions_created CaseConverter.init = true →
     CaseConverter.action_to_lower CaseConverter.init = Some lower ∧
     CaseConverter.action_to_upper CaseConverter.init = Some upper) ∧
    CaseConverter.on_state_changed false mode1 editor1
    = ContextMenu.Returns (mode1, editor2) ∧
    ContextMenu._actions editor2 = ContextMenu._actions two_actions ∧
    ContextMenu._menus editor2 = ContextMenu._menus two_actions ∧
    ContextMenu.well_formed editor2 ∧
    CaseConverter.disabled_on mode1 editor2.
Proof.
  apply (case_converter_enable_then_disable CaseConverter.init two_actions).
  - intros a Ha. apply list_elem_of_In in Ha. simpl in *. lia.
  - exact I.
Defined.

Lemma zoom_round_trips_witness :
  ((1 ≤ _font_size (new_CodeEdit 0%nat 0%nat) + _zoom_level (new_CodeEdit 0%nat 0%nat))%Z →
   (zoom_in 0%nat 3;; zoom_out 0%nat 3) (single_editor "x" 0)
   = _reset_stylesheet 0%nat (single_editor "x" 0)) ∧
  ∃ w' ed',
    (zoom_out 0%nat 3;; zoom_in 0%nat 3) (single_editor "x" 0)
    = Ok (tt, w') ∧
    editors w' !! 0%nat = Some ed' ∧
    _zoom_level ed'
    = Z.max (_zoom_level (new_CodeEdit 0%nat 0%nat))
        (1 - _font_size (new_CodeEdit 0%nat 0%nat) + 3) ∧
    _font_size ed' = _font_size (new_CodeEdit 0%nat 0%nat) ∧
    pointSize (font ed')
    = if decide (0 < _font_size ed' + _zoom_level ed')%Z
      then Points (_font_size ed' + _zoom_level ed')
      else DefaultSize.
Proof.
  apply (zoom_round_trips (single_editor "x" 0) 0%nat (new_CodeEdit 0 0) 3).
  reflexivity.
Defined.

(** ** A key press that a mode handles *)

Section key_press.
Context `{WordBoundaries}.

Variable post_key_pressed : QKeyEvent → M QKeyEvent.
Variables indent_requested unindent_requested : M unit.
Variable QPlainTextEdit_keyPressEvent : QKeyEvent → M QKeyEvent.

(** X15. In an editor whose [key_pressed] signal has the handler of an
    enabled [AutoIndentMode] as its slot, [keyPressEvent] with a Return or
    Enter key inserts the newline and the indentation whether the event
    arrives accepted or not, and the text is then exactly the one the
    handler leaves: the handler of [QPlainTextEdit] and the indentation
    signals are not run, only the slots of [post_key_pressed] follow, with
    the event accepted, and the event ends accepted. *)
Theorem return_key_is_handled_by_auto_indent
    (mode : AutoIndentMode) (event : QKeyEvent) (w : world)
    (ed : CodeEdit) (d : QTextDocument) (before line after : list ascii) :
  key_pressed_connected mode = true →
  key event = Key_Return ∨ key event = Key_Enter →
  editors w !! editor mode = Some ed →
  documents w !! document ed = Some d →
  cursor_in_line (toPlainText d) (position (textCursor ed)) before line after →
  let p := position (textCursor ed) in
  let indent := expected_indent (min_indent mode) line in
  let tail := drop p (toPlainText d) in
  let behind := (p + S (length indent))%nat in
  let n := (next_word (take p (toPlainText d) ++ newline :: indent ++ tail)
              behind - behind)%nat in
  ∃ w1 d',
    documents w1 !! document ed = Some d' ∧
    toPlainText d'
    = take p (toPlainText d) ++ newline :: indent
      ++ without_eaten_spaces n tail ∧
    CodeEditEvents.keyPressEvent (key_pressed_emit mode) post_key_pressed
      indent_requested unindent_requested QPlainTextEdit_keyPressEvent
      (editor mode) event w
    = (handled <- post_key_pressed (accept event);
       ret (CodeEditEvents.setAccepted true handled)) w1.
Proof.
  intros Hconn Hkey Hed Hd Hline p indent tail behind n.
  destruct (on_key_pressed_indents mode (CodeEditEvents.ignore event) w ed d
              before line after Hconn eq_refl Hkey Hed Hd Hline)
    as (w1 & d' & Hrun & Hd' & Htext & _).
  exists w1, d'. split_and!; [done..|].
  unfold CodeEditEvents.keyPressEvent.
  by rewrite (bind_Ok _ _ _ _ _ Hrun).
Qed.

End key_press.

Lemma return_key_is_handled_by_auto_indent_witness :
  ∃ w1 d',
    documents w1 !! 0%nat = Some d' ∧
    toPlainText d'
    = String.list_ascii_of_string "    x ="
      ++ newline :: String.list_ascii_of_string "    1" ∧
    CodeEditEvents.keyPressEvent (key_pressed_emit auto_indent_mode) ret
      (ret tt) (ret tt) ret 0%nat (accept return_pressed)
      (single_editor "    x =    1" 7)
    = (handled <- ret (accept (accept return_pressed));
       ret (CodeEditEvents.setAccepted true handled)) w1.
Proof.
  destruct (return_key_is_handled_by_auto_indent ret (ret tt) (ret tt) ret
              auto_indent_mode (accept return_pressed)
              (single_editor "    x =    1" 7) (new_CodeEdit 0 7)
              (new_QTextDocument "    x =    1")
              [] (String.list_ascii_of_string "    x =    1") [])
    as (w1 & d' & Hd' & Htext & Hrun).
  - reflexivity.
  - left. reflexivity.
  - reflexivity.
  - reflexivity.
  - split_and!.
    + reflexivity.
    + apply (bool_decide_unpack _). vm_compute. exact I.
    + left. reflexivity.
    + left. reflexivity.
    + simpl. lia.
    + simpl. lia.
  - exists w1, d'. split_and!; [exact Hd'|exact Htext|exact Hrun].
Defined.

(** ** The home key, pressed twice *)

Section home_key_twice.
Context `{WordBoundaries}.

(** The cursor [_do_home_key] sets, as a function of the column and of the
    indentation width of the line, when [select] is set or the cursor has
    no selection. *)
Lemma do_home_key_cursor w self ed d before line after event
    (shift : bool) :
  editors w !! self = Some ed →
  documents w !! document ed = Some d →
  cursor_in_line (toPlainText d) (position (textCursor ed)) before line after →
  shift = true ∨ anchor (textCursor ed) = position (textCursor ed) →
  let column := (position (textCursor ed) - length before)%nat in
  let indent := length (leading_whitespace line) in
  let target (q : nat) :=
    {| anchor := if shift then anchor (textCursor ed) else q;
       position := q |} in
  _do_home_key self event shift w
  = Ok (accept <$> event,
        {| editors :=
             <[self := with_textCursor
                         (if decide (indent < column)%nat
                          then target (length before + indent)%nat
                          else if decide (column = indent)
                               then target (length before)
                               else textCursor ed) ed]> (editors w);
           documents := documents w;
           QToolTip := QToolTip w |}).
Proof.
  intros Hed Hd Hline Hkept column indent target. unfold _do_home_key.
  apply leaves_selection_select in Hkept.
  rewrite (bind_Ok _ _ _ _ _ (get_editor_Ok _ _ _ Hed)).
  rewrite (bind_Ok _ _ _ _ _ (get_document_Ok _ _ _ Hd)).
  rewrite (bind_Ok _ _ _ _ _ (modify_editor_Ok _ _ _ _ Hed)).
  unfold line_indent.
  rewrite (positionInBlock_in_line _ _ _ _ _ Hline).
  rewrite (block_text_in_line _ _ _ _ _ Hline).
  fold column indent. subst target. unfold ret. simpl.
  assert (Hcolumn : (length before + column)%nat = position (textCursor ed)).
  { destruct Hline as (_ & _ & _ & _ & Hp). subst column. lia. }
  destruct (decide (indent < column)%nat) as [Hafter|Hnot].
  - rewrite decide_True by lia. unfold movePosition.
    replace (Z.to_nat (Z.of_nat column - Z.of_nat indent))
      with (S (column - indent - 1)) by lia.
    rewrite move_left_iter by done.
    replace (position (textCursor ed) - S (column - indent - 1))%nat
      with (length before + indent)%nat by lia.
    by destruct shift.
  - destruct (decide (column = indent)) as [Hat|Hbefore].
    + rewrite decide_False by lia. unfold movePosition.
      change (Z.to_nat 1) with 1%nat.
      cbn [Nat.iter nat_rect]. unfold move_once, move_target.
      rewrite (block_start_in_line _ _ _ _ _ Hline).
      by destruct shift.
    + rewrite decide_True by lia. unfold movePosition.
      by replace (Z.to_nat (Z.of_nat column - Z.of_nat indent))
        with 0%nat by lia.
Qed.

(** X16. With the cursor behind the first character of the line that is not
    white space, and with [select] set or no selection, the home key puts
    the cursor on that character; pressed again, it puts the cursor at the
    start of the line. With [select] the anchor of the cursor stays where
    it was, without it there is no selection afterwards. The text is not
    changed and the event, if any, is accepted. *)
Theorem home_key_goes_to_the_text_then_to_the_line_start
    w self ed d before line after event (shift : bool) :
  editors w !! self = Some ed →
  documents w !! document ed = Some d →
  cursor_in_line (toPlainText d) (position (textCursor ed)) before line after →
  (length before + length (leading_whitespace line)
   < position (textCursor ed))%nat →
  shift = true ∨ anchor (textCursor ed) = position (textCursor ed) →
  let first := (length before + length (leading_whitespace line))%nat in
  let target (q : nat) :=
    {| anchor := if shift then anchor (textCursor ed) else q;
       position := q |} in
  ∃ w1 ed1 w2 ed2,
    _do_home_key self event shift w = Ok (accept <$> event, w1) ∧
    editors w1 !! self = Some ed1 ∧
    textCursor ed1 = target first ∧
    _do_home_key self event shift w1 = Ok (accept <$> event, w2) ∧
    editors w2 !! self = Some ed2 ∧
    textCursor ed2 = target (length before) ∧
    documents w2 = documents w.
Proof.
  intros Hed Hd Hline Hbehind Hkept first target.
  pose proof (do_home_key_cursor w self ed d before line after event shift
                Hed Hd Hline Hkept) as Hrun1.
  cbv zeta in Hrun1. rewrite decide_True in Hrun1 by lia.
  fold first in Hrun1.
  set (ed1 := with_textCursor (target first) ed).
  set (w1 := {| editors := <[self := ed1]> (editors w);
                documents := documents w;
                QToolTip := QToolTip w |}).
  assert (Htc1 : textCursor ed1 = target first) by (by destruct ed).
  assert (Hdoc1 : document ed1 = document ed) by (by destruct ed).
  assert (Hed1 : editors w1 !! self = Some ed1) by apply lookup_insert_eq.
  assert (Hd1 : documents w1 !! document ed1 = Some d) by (by rewrite Hdoc1).
  assert (Hline1 : cursor_in_line (toPlainText d) (position (textCursor ed1))
                     before line after).
  { rewrite Htc1. simpl. destruct Hline as (? & ? & ? & ? & ?).
    split_and!; [done..|subst first; lia|subst first; lia]. }
  assert (Hkept1 : shift = true
                   ∨ anchor (textCursor ed1) = position (textCursor ed1)).
  { rewrite Htc1. subst target. simpl.
    destruct shift; [by left|by right]. }
  pose proof (do_home_key_cursor w1 self ed1 d before line after event shift
                Hed1 Hd1 Hline1 Hkept1) as Hrun2.
  cbv zeta in Hrun2. rewrite Htc1 in Hrun2. simpl position in Hrun2.
  rewrite decide_False in Hrun2 by (subst first; lia).
  rewrite decide_True in Hrun2 by (subst first; lia).
  eexists w1, ed1, _, _. split_and!; [exact Hrun1|exact Hed1|exact Htc1
                                     |exact Hrun2|apply lookup_insert_eq| |done].
  destruct ed. subst target. simpl. by destruct shift.
Qed.

End home_key_twice.

Lemma home_key_goes_to_the_text_then_to_the_line_start_witness :
  ∃ w1 ed1 w2 ed2,
    _do_home_key 0%nat (Some home_pressed) false (single_editor "    x = 1" 7)
    = Ok (accept <$> Some home_pressed, w1) ∧
    editors w1 !! 0%nat = Some ed1 ∧
    textCursor ed1 = {| anchor := 4; position := 4 |} ∧
    _do_home_key 0%nat (Some home_pressed) false w1
    = Ok (accept <$> Some home_pressed, w2) ∧
    editors w2 !! 0%nat = Some ed2 ∧
    textCursor ed2 = {| anchor := 0; position := 0 |} ∧
    documents w2 = documents (single_editor "    x = 1" 7).
Proof.
  apply (home_key_goes_to_the_text_then_to_the_line_start
           (single_editor "    x = 1" 7) 0%nat (new_CodeEdit 0 7)
           (new_QTextDocument "    x = 1")
           [] (String.list_ascii_of_string "    x = 1") []
           (Some home_pressed) false).
  - reflexivity.
  - reflexivity.
  - split_and!.
    + reflexivity.
    + apply (bool_decide_unpack _). vm_compute. exact I.
    + left. reflexivity.
    + left. reflexivity.
    + simpl. lia.
    + simpl. lia.
  - simpl. lia.
  - right. reflexivity.
Defined.

(** ** White space flags *)

(** X17. [editor.show_whitespaces = show] on an editor of a well-formed
    store returns; the editor and each of its clones then has the property
    [show], and the document each of them shows has the flag
    [ShowTabsAndSpaces] set or cleared accordingly. Every document has
    the text it had, and its flag is as it was or is [show]. *)
Theorem show_whitespaces_sets_the_document_flag rank depth w self ed show :
  clone_tree rank w → editors w !! self = Some ed → (rank self < depth)%nat →
  ∃ w', set_show_whitespaces depth self show w = Ok (tt, w') ∧
        (∀ e, e = self ∨ e ∈ clones ed →
              ∃ ed', editors w' !! e = Some ed' ∧
                     _show_whitespaces ed' = show ∧
                     ShowTabsAndSpaces <$> documents w' !! document ed'
                     = Some show) ∧
        (∀ d, ShowTabsAndSpaces <$> documents w' !! d
              = ShowTabsAndSpaces <$> documents w !! d
              ∨ ShowTabsAndSpaces <$> documents w' !! d = Some show) ∧
        (∀ d, toPlainText <$> documents w' !! d
              = toPlainText <$> documents w !! d).
Proof.
  intros Htree Hed Hdepth.
  set (independent := λ (T : Type) (obs : CodeEdit → T),
                        ignores with_show_whitespaces obs).
  set (flag := λ (w : world) (d : doc_id),
                 ShowTabsAndSpaces <$> documents w !! d).
  set (related := λ v w w',
         evolves _show_whitespaces v independent w w' ∧
         ∀ d, flag w' d = flag w d ∨ flag w' d = Some v).
  set (visited := λ v w e,
         ∃ ed, editors w !! e = Some ed ∧ _show_whitespaces ed = v ∧
               flag w (document ed) = Some v).
  assert (Hrefl : ∀ v w, related v w w)
    by (intros; split; [apply evolves_refl|by left]).
  assert (Htrans : ∀ v w1 w2 w3,
             related v w1 w2 → related v w2 w3 → related v w1 w3).
  { intros v w1 w2 w3 [Hev1 Hflag1] [Hev2 Hflag2].
    split; [by eapply evolves_trans|]. intros d0.
    destruct (Hflag2 d0) as [Heq|]; [|by right].
    destruct (Hflag1 d0) as [Heq'|Hset]; [left|right]; congruence. }
  assert (Hshape : ∀ v w w', related v w w' → same_shape w w')
    by (intros v w1 w2 [? _]; by eapply evolves_shape).
  assert (Hstable : ∀ v w w' e,
             related v w w' → visited v w e → visited v w' e).
  { intros v w1 w2 e [Hev Hflag] (ed1 & Hed1 & Hshow & Hdoc).
    pose proof (evolves_holds _ _ v w1 w2 e Hev) as Hkept.
    unfold holds in Hkept. rewrite Hed1 in Hkept. simpl in Hkept.
    rewrite Hshow in Hkept. specialize (Hkept eq_refl).
    destruct (same_shape_lookup _ _ _ _ (evolves_shape _ _ _ _ _ Hev) Hed1)
      as (ed2 & Hed2 & _ & Hdoc2).
    exists ed2. rewrite Hed2 in Hkept. injection Hkept as Hkept.
    split_and!; [done|done|]. rewrite Hdoc2.
    destruct (Hflag (document ed1)) as [Heq|]; [congruence|done]. }
  assert (Hlocal : ∀ (rank : editor_id → nat) w self v,
             clone_tree rank w → is_Some (editors w !! self) →
             ∃ w', (modify_editor self (with_show_whitespaces v);;
                    _set_whitespaces_flags self v) w = Ok (tt, w') ∧
                   related v w w' ∧ visited v w' self).
  { intros rank' w0 e v Htree0 [ed0 Hed0]. unfold _set_whitespaces_flags.
    destruct (Htree0 e ed0 Hed0) as [[d Hd] _].
    destruct (editor_update_evolves _show_whitespaces independent v w0 e ed0
                (with_show_whitespaces v) Hed0) as [Hev Hholds];
      [by destruct ed0..|by intros T obs Hobs|].
    rewrite (bind_Ok _ _ _ _ _ (modify_editor_Ok _ _ _ _ Hed0)).
    erewrite bind_Ok;
      [|apply get_editor_Ok; simpl; apply lookup_insert_eq].
    assert (Hdoc : document (with_show_whitespaces v ed0) = document ed0)
      by (by destruct ed0).
    rewrite Hdoc. erewrite modify_document_Ok; [|simpl; exact Hd].
    eexists. split; [reflexivity|]. split; [split|].
    - eapply evolves_trans; [exact Hev|].
      by apply (document_flags_evolves _show_whitespaces independent v
                  {| editors := <[e := with_show_whitespaces v ed0]>
                                  (editors w0);
                     documents := documents w0;
                     QToolTip := QToolTip w0 |} (document ed0) d v).
    - intros d0. subst flag. simpl.
      destruct (decide (document ed0 = d0)) as [<-|].
      + right. rewrite lookup_insert_eq. by destruct d.
      + left. by rewrite lookup_insert_ne.
    - exists (with_show_whitespaces v ed0). subst flag. simpl.
      rewrite lookup_insert_eq, Hdoc, lookup_insert_eq.
      split_and!; [done|by destruct ed0|by destruct d]. }
  destruct (synced_setter_invariant id with_show_whitespaces
              _set_whitespaces_flags related visited (λ v, eq_refl) Hrefl
              Htrans Hshape Hstable Hlocal rank depth w self show Htree
              (ex_intro _ ed Hed) Hdepth)
    as (w' & Hrun & [Hev Hflag] & Hself & Hclones).
  exists w'. split; [exact Hrun|]. split_and!.
  - intros e [->|He]; [exact Hself|by eapply Hclones].
  - exact Hflag.
  - by destruct Hev as (_ & _ & ?).
Qed.

Lemma show_whitespaces_sets_the_document_flag_witness :
  ∃ w', set_show_whitespaces 3 0%nat true split_views = Ok (tt, w') ∧
        (∀ e, e = 0%nat ∨ e ∈ [1%nat] →
              ∃ ed', editors w' !! e = Some ed' ∧
                     _show_whitespaces ed' = true ∧
                     ShowTabsAndSpaces <$> documents w' !! document ed'
                     = Some true) ∧
        (∀ d, ShowTabsAndSpaces <$> documents w' !! d
              = ShowTabsAndSpaces <$> documents split_views !! d
              ∨ ShowTabsAndSpaces <$> documents w' !! d = Some true) ∧
        (∀ d, toPlainText <$> documents w' !! d
              = toPlainText <$> documents split_views !! d).
Proof.
  apply (show_whitespaces_sets_the_document_flag split_views_rank 3
           split_views 0%nat (with_clones [1%nat] (new_CodeEdit 0 0)) true).
  - apply clone_tree_check_correct. unfold clone_tree_check.
    apply (bool_decide_unpack _). vm_compute. exact I.
  - reflexivity.
  - simpl. lia.
Defined.

(** ** A new line in front of text *)

Section auto_indent_exact.
Context `{WordBoundaries}.

(** X18. When the character behind the cursor is not a space (or the cursor
    is at the end of the text), the handler of an enabled [AutoIndentMode]
    inserts the newline and the indentation at the cursor and changes
    nothing else of the text, also when there is a selection: the selected
    text is not replaced. The cursor of the editor ends behind the inserted
    indentation, and its anchor stays on the character it was on. *)
Theorem auto_indent_keeps_the_text_behind_the_cursor
    (mode : AutoIndentMode) (event : QKeyEvent) (w : world)
    (ed : CodeEdit) (d : QTextDocument) (before line after : list ascii) :
  key_pressed_connected mode = true →
  isAccepted event = false →
  key event = Key_Return ∨ key event = Key_Enter →
  editors w !! editor mode = Some ed →
  documents w !! document ed = Some d →
  cursor_in_line (toPlainText d) (position (textCursor ed)) before line after →
  startswith_space (drop (position (textCursor ed)) (toPlainText d)) = false →
  let p := position (textCursor ed) in
  let a := anchor (textCursor ed) in
  let indent := expected_indent (min_indent mode) line in
  ∃ w' d' ed',
    key_pressed_emit mode event w = Ok (accept event, w') ∧
    documents w' !! document ed = Some d' ∧
    toPlainText d'
    = take p (toPlainText d) ++ newline :: indent ++ drop p (toPlainText d) ∧
    editors w' !! editor mode = Some ed' ∧
    position (textCursor ed') = (p + S (length indent))%nat ∧
    anchor (textCursor ed')
    = (if (a <? p)%nat then a else a + S (length indent))%nat.
Proof.
  intros Hconn Hacc Hkey Hed Hd Hline Hnone p a indent.
  destruct (on_key_pressed_indents mode event w ed d before line after
              Hconn Hacc Hkey Hed Hd Hline)
    as (w' & d' & Hrun & Hd' & Htext & Hcursor).
  cbv zeta in Htext, Hcursor.
  rewrite without_eaten_spaces_none in Htext by done.
  specialize (Hcursor Hnone). fold p indent in Hcursor.
  destruct (editors w' !! editor mode) as [ed'|] eqn:Hed'; [|done].
  injection Hcursor as Hcursor.
  exists w', d', ed'. split_and!; [done..| |].
  - rewrite Hcursor. unfold track_cursor, track. simpl. fold p.
    rewrite Nat.ltb_irrefl. lia.
  - rewrite Hcursor. unfold track_cursor, track. simpl. fold a.
    destruct (Nat.ltb_spec a p); lia.
Qed.

End auto_indent_exact.

Lemma auto_indent_keeps_the_text_behind_the_cursor_witness :
  ∃ w' d' ed',
    key_pressed_emit auto_indent_mode return_pressed
      (single_editor "    x = 1" 6) = Ok (accept return_pressed, w') ∧
    documents w' !! 0%nat = Some d' ∧
    toPlainText d'
    = take 6 (String.list_ascii_of_string "    x = 1")
      ++ newline :: String.list_ascii_of_string "    "
      ++ drop 6 (String.list_ascii_of_string "    x = 1") ∧
    editors w' !! 0%nat = Some ed' ∧
    position (textCursor ed') = 11%nat ∧
    anchor (textCursor ed') = 11%nat.
Proof.
  apply (auto_indent_keeps_the_text_behind_the_cursor auto_indent_mode
           return_pressed (single_editor "    x = 1" 6) (new_CodeEdit 0 6)
           (new_QTextDocument "    x = 1")
           [] (String.list_ascii_of_string "    x = 1") []).
  - reflexivity.
  - reflexivity.
  - left. reflexivity.
  - reflexivity.
  - reflexivity.
  - split_and!.
    + reflexivity.
    + apply (bool_decide_unpack _). vm_compute. exact I.
    + left. reflexivity.
    + left. reflexivity.
    + simpl. lia.
    + simpl. lia.
  - reflexivity.
Defined.
